(** * libbitcoin-blockchain: block validation, transaction pool and populators

    A shallow embedding of
      - [src/validate_block.cpp]              (check / accept / connect),
      - [src/transaction_pool.cpp]            (the bounded memory pool),
      - [src/populate/populate_chain_state.cpp],
      - [src/populate/populate_block.cpp],
    followed by the properties established about them.

    Conventions.  Unsigned machine integers are [Z] values; where the C++
    arithmetic can wrap, the reduction modulo [2^w] is written out.  A
    function that reports through a completion handler is a computation that
    records every handler invocation, so that "the handler fires once" is a
    statement about the recorded list and not a property of the type.  A
    member function of the pool also records how it ends: it returns, or it
    is left by the exception of a call through an empty [std::function],
    or it evaluates [front()] of an empty buffer. *)

From Stdlib Require Import ZArith List Bool Lia Sorted.
Import ListNotations.
From stdpp Require Import base tactics option numbers list.

Local Open Scope Z_scope.

(** ** Error codes *)

Module error.

(** The [error::] values the four source files mention. *)
Inductive code : Type :=
| success
| service_stopped
| operation_failed
| not_found
| size_limits
| first_not_coinbase
| extra_coinbases
| duplicate
| merkle_mismatch
| too_many_sigs
| proof_of_work
| incorrect_proof_of_work
| futuristic_timestamp
| timestamp_too_early
| checkpoints_failed
| old_version_block
| coinbase_height_mismatch
| non_final_transaction
| input_not_found
| duplicate_or_spent
| validate_inputs_failed
| pool_filled
| blockchain_reorganized
| unknown.

#[global] Instance code_eq_dec : EqDecision code.
Proof. solve_decision. Defined.

(** [if (ec)]: a code is "set" when it is not [success]. *)
Definition is_error (ec : code) : bool :=
  match ec with success => false | _ => true end.

(** The error vocabulary of the specification (section 7): service,
    structural, header consensus, transaction consensus and pool errors,
    together with [success]. *)
Definition in_taxonomy (ec : code) : bool :=
  match ec with
  | success
  | service_stopped | operation_failed | not_found
  | size_limits | first_not_coinbase | extra_coinbases | duplicate
  | merkle_mismatch | too_many_sigs
  | proof_of_work | incorrect_proof_of_work | futuristic_timestamp
  | timestamp_too_early | checkpoints_failed | old_version_block
  | coinbase_height_mismatch
  | non_final_transaction | input_not_found | duplicate_or_spent
  | validate_inputs_failed
  | pool_filled | blockchain_reorganized => true
  | unknown => false
  end.

End error.
Import error.

(** ** Machine integers *)

Definition max_uint32 : Z := 2 ^ 32 - 1.
Definition max_uint64 : Z := 2 ^ 64 - 1.

(** [size_t] and [uint64_t] arithmetic is arithmetic modulo [2^64]. *)
Definition wrap64 (z : Z) : Z := z mod 2 ^ 64.

(** ** Chain types

    The records keep the members that the validator, the pool and the
    populators read.  Digests are 32-byte values, read here as numbers. *)

Definition hash_digest : Type := Z.
Definition null_hash : hash_digest := 0.
Definition data_chunk : Type := list Z.

(** [chain::opcode], by its raw byte. *)
Module opcode.
Definition special : Z := 1.
Definition op_1 : Z := 81.
Definition op_16 : Z := 96.
Definition checksig : Z := 172.
Definition checksigverify : Z := 173.
Definition checkmultisig : Z := 174.
Definition checkmultisigverify : Z := 175.
Definition bad_operation : Z := 255.
End opcode.

Record operation : Type := mk_operation {
  op_code : Z;
  op_data : data_chunk
}.

Record script : Type := mk_script {
  operations : list operation
}.

Record output_point : Type := mk_output_point {
  point_hash : hash_digest;
  point_index : Z
}.

Record input : Type := mk_input {
  previous_output : output_point;
  input_script : script;
  sequence : Z
}.

Record output : Type := mk_output {
  value : Z;
  output_script : script
}.

Record transaction : Type := mk_transaction {
  tx_hash : hash_digest;
  tx_version : Z;
  tx_locktime : Z;
  inputs : list input;
  outputs : list output
}.

Record header : Type := mk_header {
  header_hash : hash_digest;
  version : Z;
  previous_block_hash : hash_digest;
  merkle : hash_digest;
  timestamp : Z;
  bits : Z;
  nonce : Z
}.

Record block : Type := mk_block {
  block_header : header;
  transactions : list transaction
}.

#[global] Instance operation_eq_dec : EqDecision operation.
Proof. solve_decision. Defined.
#[global] Instance script_eq_dec : EqDecision script.
Proof. solve_decision. Defined.
#[global] Instance output_point_eq_dec : EqDecision output_point.
Proof. solve_decision. Defined.
#[global] Instance input_eq_dec : EqDecision input.
Proof. solve_decision. Defined.
#[global] Instance output_eq_dec : EqDecision output.
Proof. solve_decision. Defined.
#[global] Instance transaction_eq_dec : EqDecision transaction.
Proof. solve_decision. Defined.

(** Modelled from the spec: [transaction::is_coinbase] belongs to the base
    library; section 3 states that a transaction is a coinbase iff it has
    exactly one input whose previous-output hash is the all-zero hash. *)
Definition is_coinbase (tx : transaction) : bool :=
  match inputs tx with
  | [i] => bool_decide (point_hash (previous_output i) = null_hash)
  | _ => false
  end.

Inductive payment_type : Type :=
| script_hash
| other_payment.

(** ** The base library

    Everything the four files call in [<bitcoin/bitcoin.hpp>] (and in the
    headers of this library that are not part of the sources at hand) is an
    operation of this interface.  [hash_number] is the 256-bit unsigned
    integer of the base library with its compact ("bits") encoding. *)
Class base_library : Type := {
  hash_number : Type;
  (** [hash_number(uint64_t)] *)
  hn_of_uint64 : Z -> hash_number;
  (** [set_compact]: the success flag and the value left in the number *)
  hn_set_compact : Z -> bool * hash_number;
  (** [set_hash] *)
  hn_set_hash : hash_digest -> hash_number;
  (** [compact()] *)
  hn_compact : hash_number -> Z;
  (** [operator*=(uint32_t)] and [operator/=(const hash_number&)] *)
  hn_mul : hash_number -> Z -> hash_number;
  hn_div : hash_number -> hash_number -> hash_number;
  (** [operator<=] and [operator>] *)
  hn_le : hash_number -> hash_number -> bool;
  hn_gt : hash_number -> hash_number -> bool;
  max_target : hash_number;
  max_work_bits : Z;
  (** [block::serialized_size] and [block::generate_merkle_root] *)
  serialized_size : block -> Z;
  generate_merkle_root : list transaction -> hash_digest;
  (** [validate_transaction::check_transaction] *)
  check_transaction : transaction -> code;
  (** [transaction::is_final(height, timestamp)] *)
  is_final : transaction -> Z -> Z -> bool;
  (** [validate_transaction::validate_consensus] *)
  validate_consensus : script -> transaction -> Z -> header -> Z -> bool;
  (** [script::to_data(false)], [script::from_data(data, false, strict)]
      and [script::type()] *)
  script_to_data : script -> data_chunk;
  script_from_data : data_chunk -> option script;
  script_type : script -> payment_type;
  (** [script_number(height).data()] *)
  script_number_data : Z -> data_chunk;
  (** [dispatcher::parallel] and its synchronizer: the code handed to the
      joined handler (if that handler is invoked at all), given the codes
      with which the parallel calls completed *)
  parallel_join : list code -> option code
}.

(** Modelled from the spec: [max_money()] and [coinbase_maturity] are
    constants of the base library; section 6 of the specification gives
    their values. *)
Definition max_money : Z := 21000000 * 100000000.
Definition coinbase_maturity : Z := 100.

(** [range_constrain(value, minimum, maximum)] of the base library. *)
Definition range_constrain (value minimum maximum : Z) : Z :=
  if value <? minimum then minimum
  else if value >? maximum then maximum
  else value.

(** ** Constants of validate_block.cpp *)

Definition max_block_size : Z := 1000000.
Definition max_block_script_sig_operations : Z := max_block_size / 50.
Definition max_version1_height : Z := 237370.
Definition bip30_exception_block1 : Z := 91842.
Definition bip30_exception_block2 : Z := 91880.
Definition target_timespan : Z := 2 * 7 * 24 * 60 * 60.
Definition target_spacing : Z := 10 * 60.
Definition readjustment_interval : Z := target_timespan / target_spacing.

(** ** Checkpoints *)

Record checkpoint : Type := mk_checkpoint {
  checkpoint_height : Z;
  checkpoint_hash : hash_digest
}.

(** Modelled from the spec: [checkpoint::validate] is declared in
    checkpoint.hpp, which is not among the sources; section 4.E says that at
    any checkpoint height the hash must match exactly and that at
    non-checkpoint heights the test is always true. *)
Definition checkpoint_validate (hash : hash_digest) (height : Z)
    (checks : list checkpoint) : bool :=
  forallb (fun c =>
    implb (checkpoint_height c =? height) (checkpoint_hash c =? hash)) checks.

(** ** validate_block

    The abstract class: its data members, the caller-supplied stop callback
    and the pure virtual chain queries that a derived class implements.
    The stop callback is polled repeatedly and may change its answer;
    [stop_callback_ v n] is its answer to the [n]-th poll.  The overload of
    [is_output_spent] with three arguments is [is_output_spent_by]. *)

Record validate_block : Type := mk_validate_block {
  height_ : Z;
  current_block_ : block;
  checkpoints_ : list checkpoint;
  stop_callback_ : nat -> bool;
  actual_timespan : Z -> Z;
  fetch_block : Z -> header;
  fetch_transaction : hash_digest -> option (transaction * Z);
  is_output_spent : output_point -> bool;
  is_output_spent_by : output_point -> Z -> Z -> bool;
  median_time_past : Z;
  previous_block_bits : Z;
  transaction_exists : hash_digest -> bool;
  current_time : Z
}.

(** *** Handler-reporting computations

    A validator member function runs in a state that counts the polls of the
    stop callback and records the codes its [complete] handler has received.
    It either falls through to the next statement or executes [return]. *)

Record vstate : Type := mk_vstate {
  polls : nat;
  fired : list code
}.

Inductive flow (A : Type) : Type :=
| Next (a : A)
| Return.
Arguments Next {A} a.
Arguments Return {A}.

Definition V (A : Type) : Type := vstate -> flow A * vstate.

Definition vret {A : Type} (a : A) : V A := fun s => (Next a, s).

Definition vbind {A B : Type} (m : V A) (f : A -> V B) : V B :=
  fun s =>
    match m s with
    | (Next a, s') => f a s'
    | (Return, s') => (Return, s')
    end.

#[global] Instance V_ret : MRet V := @vret.
#[global] Instance V_bind : MBind V := fun A B f m => vbind m f.

(** [return;] *)
Definition vreturn {A : Type} : V A := fun s => (Return, s).

(** [complete(ec);] *)
Definition complete (ec : code) : V unit :=
  fun s => (Next tt, mk_vstate (polls s) (fired s ++ [ec])).

(** [complete(ec); return;] *)
Definition complete_return {A : Type} (ec : code) : V A :=
  complete ec ;; vreturn.

(** [if (c) { complete(ec); return; }] *)
Definition return_if (c : bool) (ec : code) : V unit :=
  if c then complete_return ec else vret tt.

(** [validate_block::stopped] *)
Definition stopped (v : validate_block) : V bool :=
  fun s => (Next (stop_callback_ v (polls s)), mk_vstate (S (polls s)) (fired s)).

(** The macro [RETURN_IF_STOPPED(complete)]. *)
Definition RETURN_IF_STOPPED (v : validate_block) : V unit :=
  b ← stopped v;
  return_if b service_stopped.

(** A range-based [for] whose body may [return]. *)
Fixpoint for_each {A : Type} (l : list A) (body : A -> V unit) : V unit :=
  match l with
  | [] => vret tt
  | x :: rest => body x ;; for_each rest body
  end.

(** The codes a member function delivers to its handler when started with
    [n] polls already made. *)
Definition run_from (n : nat) (m : V unit) : list code :=
  fired (snd (m (mk_vstate n []))).

Definition run (m : V unit) : list code := run_from 0 m.

(** *** check_block and its helpers *)

Section validate_block_members.
Context `{base_library}.

(** [std::unique]: every run of consecutive equal elements keeps its
    first element. *)
Fixpoint std_unique {A : Type} `{EqDecision A} (l : list A) : list A :=
  match l with
  | [] => []
  | x :: rest =>
      match rest with
      | [] => [x]
      | y :: _ => if decide (x = y) then std_unique rest
                  else x :: std_unique rest
      end
  end.

(** [is_distinct_tx_set]: [distinct_end == hashes.end()] holds when
    [std::unique] dropped nothing. *)
Definition is_distinct_tx_set (txs : list transaction) : bool :=
  let hashes := map tx_hash txs in
  let distinct_end := length (std_unique hashes) in
  bool_decide (distinct_end = length hashes).

Definition is_valid_time_stamp (v : validate_block) (timestamp : Z) : bool :=
  let two_hour_future := current_time v + 2 * 3600 in
  timestamp <=? two_hour_future.

Definition is_valid_proof_of_work (hash : hash_digest) (bits : Z) : bool :=
  let '(ok, target) := hn_set_compact bits in
  if negb ok then false
  else if hn_le target (hn_of_uint64 0) || hn_gt target max_target then false
  else hn_le (hn_set_hash hash) target.

Definition within_op_n (code : Z) : bool :=
  (opcode.op_1 <=? code) && (code <=? opcode.op_16).

Definition decode_op_n (code : Z) : Z :=
  (code - opcode.op_1 + 1) mod 2 ^ 8.

(** The loop body of [count_script_sigops] on the pair
    [(total_sigs, last_opcode)]. *)
Definition count_op (accurate : bool) (acc : Z * Z) (op : operation) : Z * Z :=
  let '(total_sigs, last_opcode) := acc in
  let total_sigs :=
    if (op_code op =? opcode.checksig) || (op_code op =? opcode.checksigverify)
    then wrap64 (total_sigs + 1)
    else if (op_code op =? opcode.checkmultisig)
            || (op_code op =? opcode.checkmultisigverify)
    then
      if accurate && within_op_n last_opcode
      then wrap64 (total_sigs + decode_op_n last_opcode)
      else wrap64 (total_sigs + 20)
    else total_sigs in
  (total_sigs, op_code op).

Definition count_script_sigops (ops : list operation) (accurate : bool) : Z :=
  fst (fold_left (count_op accurate) ops (0, opcode.bad_operation)).

(** [legacy_sigops_count(const chain::transaction&)] *)
Definition legacy_sigops_count_tx (tx : transaction) : Z :=
  let total_sigs :=
    fold_left (fun total i =>
      wrap64 (total + count_script_sigops (operations (input_script i)) false))
      (inputs tx) 0 in
  fold_left (fun total o =>
    wrap64 (total + count_script_sigops (operations (output_script o)) false))
    (outputs tx) total_sigs.

(** [legacy_sigops_count(const chain::transaction::list&)] *)
Definition legacy_sigops_count (txs : list transaction) : Z :=
  fold_left (fun total tx => wrap64 (total + legacy_sigops_count_tx tx)) txs 0.

(** [transactions.front().is_coinbase()]; the list is not empty there. *)
Definition front_is_coinbase (txs : list transaction) : bool :=
  match txs with
  | tx :: _ => is_coinbase tx
  | [] => false
  end.

(** Lines 101-150 of [check_block]: everything before the distinctness
    test. *)
Definition check_block_before_distinct (v : validate_block) : V unit :=
  let transactions := transactions (current_block_ v) in
  return_if (bool_decide (transactions = [])
             || (Z.of_nat (length transactions) >? max_block_size)
             || (serialized_size (current_block_ v) >? max_block_size))
            size_limits ;;
  let header := block_header (current_block_ v) in
  let hash := header_hash header in
  return_if (negb (is_valid_proof_of_work hash (bits header)))
            proof_of_work ;;
  RETURN_IF_STOPPED v ;;
  return_if (negb (is_valid_time_stamp v (timestamp header)))
            futuristic_timestamp ;;
  RETURN_IF_STOPPED v ;;
  return_if (negb (front_is_coinbase transactions)) first_not_coinbase ;;
  for_each (tail transactions) (fun it =>
    RETURN_IF_STOPPED v ;;
    return_if (is_coinbase it) extra_coinbases) ;;
  for_each transactions (fun tx =>
    RETURN_IF_STOPPED v ;;
    let ec := check_transaction tx in
    return_if (is_error ec) ec).

(** Lines 152-174 of [check_block]: distinctness, signature operations
    and merkle root. *)
Definition check_block_from_distinct (v : validate_block) : V unit :=
  let transactions := transactions (current_block_ v) in
  let header := block_header (current_block_ v) in
  RETURN_IF_STOPPED v ;;
  return_if (negb (is_distinct_tx_set transactions)) duplicate ;;
  RETURN_IF_STOPPED v ;;
  let sigops := legacy_sigops_count transactions in
  return_if (sigops >? max_block_script_sig_operations) too_many_sigs ;;
  RETURN_IF_STOPPED v ;;
  return_if (negb (merkle header =? generate_merkle_root transactions))
            merkle_mismatch ;;
  complete success.

Definition check_block (v : validate_block) : V unit :=
  check_block_before_distinct v ;;
  check_block_from_distinct v.

(** *** accept_block and its helpers *)

(** [work_required] as compiled without [ENABLE_TESTNET].  The multiplier
    of [operator*=] is a 32-bit value, hence the reduction of the 64-bit
    [constrained]. *)
Definition work_required (v : validate_block) : Z :=
  if height_ v =? 0 then max_work_bits
  else if negb (height_ v mod readjustment_interval =? 0)
  then previous_block_bits v
  else
    let actual := actual_timespan v readjustment_interval in
    let constrained :=
      range_constrain actual (target_timespan / 4) (target_timespan * 4) in
    let retarget := snd (hn_set_compact (previous_block_bits v)) in
    let retarget := hn_mul retarget (constrained mod 2 ^ 32) in
    let retarget := hn_div retarget (hn_of_uint64 target_timespan) in
    let retarget :=
      if hn_gt retarget max_target then max_target else retarget in
    hn_compact retarget.

(** [std::equal(expect.begin(), expect.end(), raw.begin())], called when
    [expect] is not longer than [raw]. *)
Fixpoint std_equal (expect raw : data_chunk) : bool :=
  match expect, raw with
  | [], _ => true
  | e :: expect', r :: raw' => (e =? r) && std_equal expect' raw'
  | _ :: _, [] => false
  end.

(** The script holding the single operation that pushes the height. *)
Definition expect_coinbase (height : Z) : script :=
  mk_script [mk_operation opcode.special (script_number_data height)].

Definition is_valid_coinbase_height (height : Z) (blk : block) : bool :=
  if height <? max_version1_height then true
  else if version (block_header blk) <? 2 then false
  else
    match transactions blk with
    | [] => false
    | coinbase_tx :: _ =>
        match inputs coinbase_tx with
        | [] => false
        | front :: _ =>
            let raw_coinbase := script_to_data (input_script front) in
            let expect := script_to_data (expect_coinbase height) in
            if (length raw_coinbase <? length expect)%nat then false
            else std_equal expect raw_coinbase
        end
    end.

(** Lines 291-333 of [accept_block]: everything before the coinbase
    height rule. *)
Definition accept_block_before_coinbase_height (v : validate_block) : V unit :=
  let header := block_header (current_block_ v) in
  return_if (negb (bits header =? work_required v))
            incorrect_proof_of_work ;;
  RETURN_IF_STOPPED v ;;
  return_if (timestamp header <=? median_time_past v) timestamp_too_early ;;
  RETURN_IF_STOPPED v ;;
  for_each (transactions (current_block_ v)) (fun tx =>
    return_if (negb (is_final tx (height_ v) (timestamp header)))
              non_final_transaction ;;
    RETURN_IF_STOPPED v) ;;
  let block_hash := header_hash header in
  return_if (negb (checkpoint_validate block_hash (height_ v) (checkpoints_ v)))
            checkpoints_failed ;;
  RETURN_IF_STOPPED v ;;
  return_if ((version header <? 2) && (height_ v >? max_version1_height))
            old_version_block ;;
  RETURN_IF_STOPPED v.

(** Lines 336-344 of [accept_block]. *)
Definition accept_block_coinbase_height (v : validate_block) : V unit :=
  let header := block_header (current_block_ v) in
  return_if ((version header >=? 2)
             && negb (is_valid_coinbase_height (height_ v) (current_block_ v)))
            coinbase_height_mismatch ;;
  complete success.

Definition accept_block (v : validate_block) : V unit :=
  accept_block_before_coinbase_height v ;;
  accept_block_coinbase_height v.

(** *** connect_block and its helpers *)

(** A callee that is handed a handler of its own: the caller's record of
    handler calls is set aside, and what the callee's handler received is
    returned.  The callee's [return] ends the callee only. *)
Definition with_own_handler (callee : V unit) : V (list code) :=
  fun s =>
    let '(_, s') := callee (mk_vstate (polls s) []) in
    (Next (fired s'), mk_vstate (polls s') (fired s)).

Fixpoint collect {A : Type} (items : list A) (method : A -> V unit)
    : V (list code) :=
  match items with
  | [] => vret []
  | x :: rest =>
      r ← with_own_handler (method x);
      rs ← collect rest method;
      vret (r ++ rs)
  end.

(** [dispatch_.parallel(items, name, handler, method, this)], run in the
    order of the collection. *)
Definition parallel {A : Type} (items : list A) (handler : code -> V unit)
    (method : A -> V unit) : V unit :=
  results ← collect items method;
  match parallel_join results with
  | Some ec => handler ec
  | None => vret tt
  end.

Definition connect_block1 (v : validate_block) (ec : code) : V unit :=
  RETURN_IF_STOPPED v ;;
  complete unknown.

Definition check_output_spent (v : validate_block) (point : output_point)
    : V unit :=
  RETURN_IF_STOPPED v ;;
  let spent := is_output_spent v point in
  complete (if spent then success else duplicate_or_spent).

(** [points]: one outpoint [{ hash, index++ }] per output. *)
Definition output_points (hash : hash_digest) (outs : list output)
    : list output_point :=
  imap (fun index _ => mk_output_point hash (Z.of_nat index)) outs.

Definition check_spent_duplicate (v : validate_block) (tx : transaction)
    : V unit :=
  RETURN_IF_STOPPED v ;;
  let hash := tx_hash tx in
  if negb (transaction_exists v hash) then complete_return success
  else
    let points := output_points hash (outputs tx) in
    parallel points complete (check_output_spent v).

Definition connect_block (v : validate_block) : V unit :=
  RETURN_IF_STOPPED v ;;
  let next_step := connect_block1 v in
  let skip_bip30_rule :=
    (height_ v =? bip30_exception_block1)
    || (height_ v =? bip30_exception_block2) in
  if skip_bip30_rule then next_step success ;; vreturn
  else
    parallel (transactions (current_block_ v)) next_step
             (check_spent_duplicate v).

(** What the BIP30 phase of [connect_block] hands to [connect_block1]:
    [Some ec] when the next step is invoked with [ec]. *)
Definition bip30_phase (v : validate_block) (n : nat) : option code :=
  if (height_ v =? bip30_exception_block1)
     || (height_ v =? bip30_exception_block2)
  then Some success
  else
    match collect (transactions (current_block_ v)) (check_spent_duplicate v)
            (mk_vstate n []) with
    | (Next results, _) => parallel_join results
    | (Return, _) => None
    end.

(** *** Input connection *)

(** Unchecked [operator[]] on a vector: outside the vector the behaviour
    of the program is undefined. *)
Inductive unchecked_index : Type :=
| inputs_index
| outputs_index.

Inductive outcome (A : Type) : Type :=
| defined (a : A)
| undefined (where_ : unchecked_index).
Arguments defined {A} a.
Arguments undefined {A} where_.

(** [v[i]] for an unsigned [i]. *)
Definition at_index {A : Type} (l : list A) (i : Z) : option A :=
  if i <? 0 then None else l !! Z.to_nat i.

(** [script_hash_signature_operations_count]; [None] is the thrown
    [end_of_stream]. *)
Definition script_hash_signature_operations_count
    (output_script input_script : script) : option Z :=
  match script_type output_script with
  | script_hash =>
      match list.last (operations input_script) with
      | None => Some 0
      | Some back =>
          let last_data := op_data back in
          match script_from_data last_data with
          | None => None
          | Some eval_script =>
              Some (count_script_sigops (operations eval_script) true)
          end
      end
  | _ => Some 0
  end.

(** [connect_input]: the returned flag with the final values of the
    reference parameters [value_in] and [total_sigops]. *)
Definition connect_input (v : validate_block) (index_in_parent : Z)
    (current_tx : transaction) (input_index : Z)
    (value_in total_sigops : Z) : outcome (bool * Z * Z) :=
  match at_index (inputs current_tx) input_index with
  | None => undefined inputs_index
  | Some input =>
      let previous_output := previous_output input in
      match fetch_transaction v (point_hash previous_output) with
      | None => defined (false, value_in, total_sigops)
      | Some (previous_tx, previous_height) =>
          match at_index (outputs previous_tx) (point_index previous_output) with
          | None => undefined outputs_index
          | Some previous_tx_out =>
              match script_hash_signature_operations_count
                      (output_script previous_tx_out) (input_script input) with
              | None => defined (false, value_in, total_sigops)
              | Some count =>
                  let total_sigops := wrap64 (total_sigops + count) in
                  if total_sigops >? max_block_script_sig_operations
                  then defined (false, value_in, total_sigops)
                  else
                    let output_value := value previous_tx_out in
                    if output_value >? max_money
                    then defined (false, value_in, total_sigops)
                    else if is_coinbase previous_tx
                            && (wrap64 (height_ v - previous_height)
                                <? coinbase_maturity)
                    then defined (false, value_in, total_sigops)
                    else if negb (validate_consensus
                                    (output_script previous_tx_out) current_tx
                                    input_index
                                    (block_header (current_block_ v))
                                    (height_ v))
                    then defined (false, value_in, total_sigops)
                    else if is_output_spent_by v previous_output
                              index_in_parent input_index
                    then defined (false, value_in, total_sigops)
                    else
                      let value_in := wrap64 (value_in + output_value) in
                      if value_in >? max_money
                      then defined (false, value_in, total_sigops)
                      else defined (true, value_in, total_sigops)
              end
          end
      end
  end.

(** The loop of [validate_inputs] from [input_index] on, [remaining]
    inputs to go. *)
Fixpoint validate_inputs_from (v : validate_block) (tx : transaction)
    (index_in_parent : Z) (remaining : nat) (input_index : Z)
    (value_in total_sigops : Z) : outcome (bool * Z * Z) :=
  match remaining with
  | O => defined (true, value_in, total_sigops)
  | S remaining' =>
      match connect_input v index_in_parent tx input_index
              value_in total_sigops with
      | undefined w => undefined w
      | defined (false, value_in', total_sigops') =>
          defined (false, value_in', total_sigops')
      | defined (true, value_in', total_sigops') =>
          validate_inputs_from v tx index_in_parent remaining'
            (input_index + 1) value_in' total_sigops'
      end
  end.

Definition validate_inputs (v : validate_block) (tx : transaction)
    (index_in_parent : Z) (value_in total_sigops : Z)
    : outcome (bool * Z * Z) :=
  validate_inputs_from v tx index_in_parent (length (inputs tx)) 0
    value_in total_sigops.

End validate_block_members.

Arguments defined {A} a.
Arguments undefined {A} where_.

(** ** Standard algorithms with an effectful predicate

    [std::remove_if] as the standard library implements it: find the first
    element to drop, then move every later element that is kept down to the
    write position.  The predicate may have effects, recorded as events,
    and it may throw: its answer is then [None], and the exception leaves
    the algorithm at once, with the container as it is at that moment.
    After a move the source element is left in its moved-from state,
    [moved_from source old_target]. *)

Section std_remove_if.
Context {A E : Type}.
Variable moved_from : A -> A -> A.
Variable pred : A -> list E * option bool.

(** [std::find_if] from position [i]: the events of the predicate calls
    and the position found ([i + length l] when there is none), or [None]
    when the predicate threw. *)
Fixpoint std_find_if (l : list A) (i : nat) : list E * option nat :=
  match l with
  | [] => ([], Some i)
  | x :: rest =>
      let '(ev, found) := pred x in
      match found with
      | None => (ev, None)
      | Some true => (ev, Some i)
      | Some false =>
          let '(ev', j) := std_find_if rest (S i) in
          (ev ++ ev', j)
      end
  end.

(** [*first = std::move( *i)] on a buffer. *)
Definition move_assign (buf : list A) (first i : nat) : list A :=
  match buf !! i, buf !! first with
  | Some x, Some old => <[i := moved_from x old]> (<[first := x]> buf)
  | _, _ => buf
  end.

(** [for (i = first; ++i != last;) if (!pred( *i)) *first++ = std::move( *i);]
    entered with [i] already incremented and [remaining] elements left. *)
Fixpoint remove_if_loop (remaining : nat) (buf : list A) (first i : nat)
    : list E * list A * option nat :=
  match remaining with
  | O => ([], buf, Some first)
  | S remaining' =>
      match buf !! i with
      | None => ([], buf, Some first)
      | Some x =>
          let '(ev, drop) := pred x in
          match drop with
          | None => (ev, buf, None)
          | Some drop =>
              let '(ev', buf', first') :=
                if drop then remove_if_loop remaining' buf first (S i)
                else remove_if_loop remaining' (move_assign buf first i)
                       (S first) (S i) in
              (ev ++ ev', buf', first')
          end
      end
  end.

(** The events, the buffer afterwards and the returned position ([None]
    when the predicate threw). *)
Definition std_remove_if (buf : list A) : list E * list A * option nat :=
  let '(ev, found) := std_find_if buf 0 in
  match found with
  | None => (ev, buf, None)
  | Some first =>
      if decide (first = length buf) then (ev, buf, Some first)
      else
        let '(ev', buf', first') :=
          remove_if_loop (length buf - S first) buf first (S first) in
        (ev ++ ev', buf', first')
  end.

End std_remove_if.

(** ** transaction_pool *)

Module transaction_pool.

(** Handlers are opaque callbacks supplied by the caller; the model keeps
    their identity and records each invocation.  The validation, fetch and
    existence handlers are called as the caller passed them and are taken
    to hold a target.  A confirmation handler is kept in an entry of the
    buffer, and entries are moved: what an entry holds is a
    [std_function]. *)
Definition confirm_handler : Type := nat.
Definition validate_handler : Type := nat.
Definition fetch_handler : Type := nat.
Definition exists_handler : Type := nat.
Definition index_list : Type := list Z.

(** A [std::function] object: the target it holds, or none.  A function
    that has been moved from holds none, and calling a function without
    target throws [std::bad_function_call]. *)
Definition std_function (target : Type) : Type := option target.

(** The entries of the buffer, with the members that the member
    functions use. *)
Record transaction_entry_info : Type := mk_entry {
  hash : hash_digest;
  tx : transaction;
  handle_confirm : std_function confirm_handler
}.

Definition pool_buffer : Type := list transaction_entry_info.

Inductive event : Type :=
| confirm_called (h : confirm_handler) (ec : code)
| validate_called (h : validate_handler) (ec : code) (unconfirmed : index_list)
| fetch_called (h : fetch_handler) (ec : code) (t : option transaction)
| exists_called (h : exists_handler) (ec : code) (found : bool)
| subscribe_reorganize.

(** What the pool uses without defining it: the transaction validator
    ([validate_transaction::start], which reports a code and the list of
    unconfirmed input indexes) and the state a transaction is left in when
    it is moved into another one. *)
Class pool_externals : Type := {
  validate_transaction_start :
    transaction -> pool_buffer -> code * index_list;
  moved_from_tx : transaction -> transaction -> transaction
}.

(** The entry [source] after [old_target = std::move(source)]: the hash is
    an array and is copied, the handler is left without target. *)
Definition moved_from `{pool_externals} (source old_target : transaction_entry_info)
    : transaction_entry_info :=
  mk_entry (hash source) (moved_from_tx (tx source) (tx old_target)) None.

(** The members: the circular buffer with its fixed capacity, and the
    stop flag. *)
Record pool : Type := mk_pool {
  buffer_ : pool_buffer;
  capacity : nat;
  stopped_ : bool
}.

(** How a member function ends: it returns, or the call of a handler
    without target throws, or it evaluates [front()] of an empty buffer,
    whose behaviour is undefined. *)
Inductive ending : Type :=
| returned
| bad_function_call
| undefined_front.

(** A member function maps the pool to the events it causes, the pool
    afterwards and the way it ends; when it does not return, the events
    and the pool are those of the moment it stops. *)
Definition action : Type := pool -> list event * pool * ending.

Definition events_of (r : list event * pool * ending) : list event :=
  fst (fst r).
Definition pool_of (r : list event * pool * ending) : pool := snd (fst r).
Definition ending_of (r : list event * pool * ending) : ending := snd r.

(** [a; b]: [b] runs only when [a] has returned. *)
Definition and_then (a b : action) : action :=
  fun p =>
    let '(ev, p', e) := a p in
    match e with
    | returned =>
        let '(ev', p'', e') := b p' in
        (ev ++ ev', p'', e')
    | _ => (ev, p', e)
    end.

Definition set_buffer (p : pool) (b : pool_buffer) : pool :=
  mk_pool b (capacity p) (stopped_ p).

(** The constructor: an empty buffer, stopped. *)
Definition create (capacity : nat) : pool := mk_pool [] capacity true.

Definition empty (p : pool) : bool := bool_decide (buffer_ p = []).
Definition size (p : pool) : nat := length (buffer_ p).

Definition start : action :=
  fun p =>
    ([subscribe_reorganize], mk_pool (buffer_ p) (capacity p) false, returned).

Definition stop : action :=
  fun p => ([], mk_pool (buffer_ p) (capacity p) true, returned).

Definition stopped (p : pool) : bool := stopped_ p.

Definition tx_find (p : pool) (h : hash_digest)
    : option transaction_entry_info :=
  find (fun entry => bool_decide (hash entry = h)) (buffer_ p).

Definition tx_exists (p : pool) (h : hash_digest) : bool :=
  bool_decide (is_Some (tx_find p h)).

(** [boost::circular_buffer::push_back]: at capacity the front element is
    overwritten. *)
Definition push_back (cap : nat) (b : pool_buffer)
    (e : transaction_entry_info) : pool_buffer :=
  if decide (cap = 0%nat) then b
  else if decide (length b = cap) then tail b ++ [e]
  else b ++ [e].

(** The call [handle_confirm(ec)] of an entry's handler. *)
Definition call_confirm (handle_confirm : std_function confirm_handler)
    (ec : code) : action :=
  fun p =>
    match handle_confirm with
    | Some target => ([confirm_called target ec], p, returned)
    | None => ([], p, bad_function_call)
    end.

Section members.
Context `{pool_externals}.

(** A validation handler: a caller's callback, or a closure of the
    pool. *)
Definition handler : Type := code -> index_list -> action.

Definition user_handler (h : validate_handler) : handler :=
  fun ec unconfirmed p => ([validate_called h ec unconfirmed], p, returned).

Definition validation_complete (ec : code) (unconfirmed : index_list)
    (tx_hash : hash_digest) (handle_validate : handler) : action :=
  fun p =>
    if stopped p then handle_validate service_stopped [] p
    else if bool_decide (ec = input_not_found)
            || bool_decide (ec = validate_inputs_failed)
    then handle_validate ec unconfirmed p
    else if is_error ec then handle_validate ec [] p
    else if tx_exists p tx_hash then handle_validate duplicate [] p
    else handle_validate success unconfirmed p.

Definition do_validate (t : transaction) (handle_validate : handler)
    : action :=
  fun p =>
    if stopped p then handle_validate service_stopped [] p
    else
      let '(ec, unconfirmed) := validate_transaction_start t (buffer_ p) in
      validation_complete ec unconfirmed (tx_hash t) handle_validate p.

(** [validate]: the work is queued on the ordered dispatcher; items of
    that queue run one after another. *)
Definition validate (t : transaction) (handle_validate : handler)
    : action :=
  do_validate t handle_validate.

(** The closure [store_transaction] of [store].  When the buffer is full,
    [front()] is evaluated and the handler found there is called: a buffer
    of capacity 0 is full and has no front, and the handler of the front
    entry may be without target. *)
Definition store_transaction (t : transaction)
    (handle_confirm_ : std_function confirm_handler) : action :=
  and_then
    (fun p =>
       if decide (length (buffer_ p) = capacity p) then
         match buffer_ p with
         | front :: _ => call_confirm (handle_confirm front) pool_filled p
         | [] => ([], p, undefined_front)
         end
       else ([], p, returned))
    (fun p =>
       ([],
        set_buffer p (push_back (capacity p) (buffer_ p)
                        (mk_entry (tx_hash t) t handle_confirm_)),
        returned)).

(** The closure [wrap_validate] of [store]. *)
Definition wrap_validate (t : transaction)
    (hc : std_function confirm_handler) (hv : validate_handler) : handler :=
  fun ec unconfirmed =>
    and_then
      (if is_error ec then fun p => ([], p, returned)
       else store_transaction t hc)
      (user_handler hv ec unconfirmed).

Definition store (t : transaction)
    (handle_confirm : std_function confirm_handler)
    (handle_validate : validate_handler) : action :=
  fun p =>
    if stopped p then ([], p, returned)
    else validate t (wrap_validate t handle_confirm handle_validate) p.

Definition fetch (transaction_hash : hash_digest)
    (handle_fetch : fetch_handler) : action :=
  fun p =>
    if stopped p
    then ([fetch_called handle_fetch service_stopped None], p, returned)
    else
      match tx_find p transaction_hash with
      | None => ([fetch_called handle_fetch not_found None], p, returned)
      | Some it =>
          ([fetch_called handle_fetch success (Some (tx it))], p, returned)
      end.

Definition exists_ (transaction_hash : hash_digest)
    (handle_exists : exists_handler) : action :=
  fun p =>
    if stopped p
    then ([exists_called handle_exists service_stopped false], p, returned)
    else ([exists_called handle_exists success
             (tx_exists p transaction_hash)], p, returned).

(** [for (const auto& entry: buffer_) entry.handle_confirm(ec);] *)
Fixpoint confirm_each (entries : pool_buffer) (ec : code) : action :=
  match entries with
  | [] => fun p => ([], p, returned)
  | entry :: rest =>
      and_then (call_confirm (handle_confirm entry) ec) (confirm_each rest ec)
  end.

Definition invalidate_pool : action :=
  fun p =>
    if stopped p then ([], p, returned)
    else
      and_then (confirm_each (buffer_ p) blockchain_reorganized)
        (fun p => ([], set_buffer p [], returned)) p.

(** The predicate [match_and_confirm] of [try_delete_tx]: its answer, or
    [None] when the call of the handler throws. *)
Definition match_and_confirm (h : hash_digest)
    (entry : transaction_entry_info) : list event * option bool :=
  if bool_decide (hash entry = h) then
    match handle_confirm entry with
    | Some target => ([confirm_called target success], Some true)
    | None => ([], None)
    end
  else ([], Some false).

(** [try_delete_tx]: the position returned by [std::remove_if] is
    dropped, the buffer keeps its size. *)
Definition try_delete_tx (h : hash_digest) : action :=
  fun p =>
    if stopped p then ([], p, returned)
    else
      let '(ev, buf, position) :=
        std_remove_if moved_from (match_and_confirm h) (buffer_ p) in
      (ev, set_buffer p buf,
       if position is Some _ then returned else bad_function_call).

(** Run actions one after the other, as long as they return. *)
Fixpoint sequence_ (acts : list action) : action :=
  match acts with
  | [] => fun p => ([], p, returned)
  | a :: rest => and_then a (sequence_ rest)
  end.

Definition delete_confirmed (new_blocks : list block) : action :=
  fun p =>
    if stopped p then ([], p, returned)
    else if empty p then ([], p, returned)
    else
      sequence_
        (flat_map (fun new_block =>
                     map (fun new_tx => try_delete_tx (tx_hash new_tx))
                         (transactions new_block))
                  new_blocks) p.

(** [reorganize]: the organizer's notification.  The work it queues on
    the ordered dispatcher runs once [reorganize] has returned, that is
    after the pool has subscribed again. *)
Definition reorganize (ec : code) (fork_point : Z)
    (new_blocks replaced_blocks : list block) : action :=
  fun p =>
    if bool_decide (ec = service_stopped) then stop p
    else if is_error ec then stop p
    else
      let '(ev, p', e) :=
        if bool_decide (replaced_blocks = []) then delete_confirmed new_blocks p
        else invalidate_pool p in
      (subscribe_reorganize :: ev, p', e).

End members.

End transaction_pool.

(** ** Chain state

    [chain::chain_state] with its [map] and [data] structures belongs to the
    base library; section 3 of the specification describes the members. *)

Module chain_state.

(** [map::unrequested] is [max_size_t]. *)
Definition unrequested : Z := max_uint64.

Record range : Type := mk_range {
  high : Z;
  count : Z
}.

Record map : Type := mk_map {
  map_bits : range;
  map_bits_self : Z;
  map_version : range;
  map_version_self : Z;
  map_timestamp : range;
  map_timestamp_self : Z;
  map_timestamp_retarget : Z;
  map_allow_collisions_height : Z
}.

Record data : Type := mk_data {
  height : Z;
  hash : hash_digest;
  allow_collisions_hash : hash_digest;
  bits_self : Z;
  bits_ordered : list Z;
  version_self : Z;
  version_ordered : list Z;
  timestamp_self : Z;
  timestamp_retarget : Z;
  timestamp_ordered : list Z
}.

(** [chain_state::data data;] *)
Definition default_data : data := mk_data 0 0 0 0 [] 0 [] 0 0 [].

Definition set_height (d : data) (x : Z) : data :=
  mk_data x (hash d) (allow_collisions_hash d) (bits_self d) (bits_ordered d)
    (version_self d) (version_ordered d) (timestamp_self d)
    (timestamp_retarget d) (timestamp_ordered d).
Definition set_hash (d : data) (x : hash_digest) : data :=
  mk_data (height d) x (allow_collisions_hash d) (bits_self d)
    (bits_ordered d) (version_self d) (version_ordered d) (timestamp_self d)
    (timestamp_retarget d) (timestamp_ordered d).
Definition set_allow_collisions_hash (d : data) (x : hash_digest) : data :=
  mk_data (height d) (hash d) x (bits_self d) (bits_ordered d)
    (version_self d) (version_ordered d) (timestamp_self d)
    (timestamp_retarget d) (timestamp_ordered d).
Definition set_bits_self (d : data) (x : Z) : data :=
  mk_data (height d) (hash d) (allow_collisions_hash d) x (bits_ordered d)
    (version_self d) (version_ordered d) (timestamp_self d)
    (timestamp_retarget d) (timestamp_ordered d).
Definition set_bits_ordered (d : data) (x : list Z) : data :=
  mk_data (height d) (hash d) (allow_collisions_hash d) (bits_self d) x
    (version_self d) (version_ordered d) (timestamp_self d)
    (timestamp_retarget d) (timestamp_ordered d).
Definition set_version_self (d : data) (x : Z) : data :=
  mk_data (height d) (hash d) (allow_collisions_hash d) (bits_self d)
    (bits_ordered d) x (version_ordered d) (timestamp_self d)
    (timestamp_retarget d) (timestamp_ordered d).
Definition set_version_ordered (d : data) (x : list Z) : data :=
  mk_data (height d) (hash d) (allow_collisions_hash d) (bits_self d)
    (bits_ordered d) (version_self d) x (timestamp_self d)
    (timestamp_retarget d) (timestamp_ordered d).
Definition set_timestamp_self (d : data) (x : Z) : data :=
  mk_data (height d) (hash d) (allow_collisions_hash d) (bits_self d)
    (bits_ordered d) (version_self d) (version_ordered d) x
    (timestamp_retarget d) (timestamp_ordered d).
Definition set_timestamp_retarget (d : data) (x : Z) : data :=
  mk_data (height d) (hash d) (allow_collisions_hash d) (bits_self d)
    (bits_ordered d) (version_self d) (version_ordered d) (timestamp_self d)
    x (timestamp_ordered d).
Definition set_timestamp_ordered (d : data) (x : list Z) : data :=
  mk_data (height d) (hash d) (allow_collisions_hash d) (bits_self d)
    (bits_ordered d) (version_self d) (version_ordered d) (timestamp_self d)
    (timestamp_retarget d) x.

Inductive rule_fork : Type :=
| allow_collisions
| other_fork.

(** The class and what the populators call on it: [state] is the type of
    chain-state objects, [make] the constructor from
    [(data, checkpoints, forks, stale_seconds)] and [promote] the
    constructor from the parent's state and the new header. *)
Class library : Type := {
  state : Type;
  get_map : Z -> list checkpoint -> Z -> map;
  make : data -> list checkpoint -> Z -> Z -> state;
  promote : state -> header -> state;
  is_under_checkpoint : state -> bool;
  enabled_forks : state -> Z;
  is_enabled : state -> rule_fork -> bool
}.

End chain_state.

(** ** header_branch *)

Module header_branch.
Section branch.
Context `{chain_state.library}.

(** A header of the branch with its [validation.state] metadata. *)
Record entry : Type := mk_entry {
  entry_header : header;
  validation_state : option chain_state.state
}.

(** Modelled from the spec: header_branch.hpp is not among the sources.
    Section 3 and section 4.A describe a branch as the ordered headers
    above a fork point, with [top], [top_parent], [top_height] and the
    indexed queries [get_bits], [get_version], [get_timestamp] and
    [get_block_hash], which answer exactly for the heights
    [fork_point + 1 .. top_height]. *)
Record t : Type := mk_branch {
  fork_height : Z;
  headers : list entry
}.

Definition empty (b : t) : bool := bool_decide (headers b = []).

Definition top (b : t) : option entry := list.last (headers b).

Definition top_parent (b : t) : option entry :=
  match reverse (headers b) with
  | _ :: parent :: _ => Some parent
  | _ => None
  end.

Definition top_height (b : t) : Z :=
  fork_height b + Z.of_nat (length (headers b)).

Definition at_height (b : t) (height : Z) : option entry :=
  if height <=? fork_height b then None
  else headers b !! Z.to_nat (height - fork_height b - 1).

Definition get_bits (b : t) (height : Z) : option Z :=
  bits <$> (entry_header <$> at_height b height).
Definition get_version (b : t) (height : Z) : option Z :=
  version <$> (entry_header <$> at_height b height).
Definition get_timestamp (b : t) (height : Z) : option Z :=
  timestamp <$> (entry_header <$> at_height b height).
Definition get_block_hash (b : t) (height : Z) : option hash_digest :=
  header_hash <$> (entry_header <$> at_height b height).
End branch.
End header_branch.

(** ** fast_chain

    The reader interface of interface/fast_chain.hpp, as far as the two
    populators call it.  A getter with an out-parameter and a [bool] result
    returns an option. *)
Class fast_chain `{chain_state.library} : Type := {
  (** [chain_state(block_const_ptr)] *)
  block_chain_state : block -> option chain_state.state;
  get_block_height : bool -> option Z;
  get_block_hash : Z -> bool -> option hash_digest;
  get_bits : Z -> bool -> option Z;
  get_timestamp : Z -> bool -> option Z;
  get_version : Z -> bool -> option Z;
  is_blocks_stale : bool
}.

(** ** populate_chain_state *)

Module populate_chain_state.

Definition unspecified_timestamp : Z := max_uint32.
Definition hour_seconds : Z := 3600.

(** The attribute kinds the populator reads. *)
Inductive kind : Type :=
| k_bits
| k_version
| k_timestamp
| k_block_hash.

#[global] Instance kind_eq_dec : EqDecision kind.
Proof. solve_decision. Defined.

(** A call of a getter of the fast-chain reader. *)
Record query : Type := mk_query {
  query_kind : kind;
  query_height : Z;
  query_block : bool
}.

(** A member function returns its result together with the reader calls
    it made, in order. *)
Definition R (A : Type) : Type := (A * list query)%type.

Definition rret {A : Type} (a : A) : R A := (a, []).
Definition rbind {A B : Type} (m : R A) (f : A -> R B) : R B :=
  let '(a, log) := m in
  let '(b, log') := f a in
  (b, log ++ log').

#[global] Instance R_ret : MRet R := @rret.
#[global] Instance R_bind : MBind R := fun A B f m => rbind m f.

Section members.
Context `{chain_state.library} `{!fast_chain}.

(** The members set by the constructor: the sorted checkpoints, the
    enabled forks and [notify_limit_hours * hour_seconds]. *)
Record t : Type := mk_populator {
  checkpoints_ : list checkpoint;
  forks_ : Z;
  stale_seconds_ : Z
}.

(** The reader's getter for a kind. *)
Definition reader_get (k : kind) (height : Z) (block : bool) : option Z :=
  match k with
  | k_bits => get_bits height block
  | k_version => get_version height block
  | k_timestamp => get_timestamp height block
  | k_block_hash => get_block_hash height block
  end.

(** The branch's getter for a kind. *)
Definition branch_get (k : kind) (branch : header_branch.t) (height : Z)
    : option Z :=
  match k with
  | k_bits => header_branch.get_bits branch height
  | k_version => header_branch.get_version branch height
  | k_timestamp => header_branch.get_timestamp branch height
  | k_block_hash => header_branch.get_block_hash branch height
  end.

(** A call of the reader, recorded. *)
Definition ask (k : kind) (height : Z) (block : bool) : R (option Z) :=
  (reader_get k height block, [mk_query k height block]).

(** [branch->get_x(out, height) || fast_chain_.get_x(out, height, block)]:
    the four getters of lines 51-77 differ in the kind only. *)
Definition get (k : kind) (height : Z) (branch : header_branch.t)
    (block : bool) : R (option Z) :=
  match branch_get k branch height with
  | Some x => rret (Some x)
  | None => ask k height block
  end.

Definition get_bits (height : Z) (branch : header_branch.t) (block : bool)
    : R (option Z) := get k_bits height branch block.
Definition get_version (height : Z) (branch : header_branch.t)
    (block : bool) : R (option Z) := get k_version height branch block.
Definition get_timestamp (height : Z) (branch : header_branch.t)
    (block : bool) : R (option Z) := get k_timestamp height branch block.
Definition get_block_hash (height : Z) (branch : header_branch.t)
    (block : bool) : R (option Z) := get k_block_hash height branch block.

(** [for (auto& x: ordered) if (!get_x(x, ++height, branch, block))
    return false;] over the [n] elements from index [i] on.  The flag
    tells whether the loop ran to its end. *)
Fixpoint fill (k : kind) (branch : header_branch.t) (block : bool)
    (n i : nat) (height : Z) (ordered : list Z) : R (bool * list Z) :=
  match n with
  | O => rret (true, ordered)
  | S n' =>
      let height := wrap64 (height + 1) in
      r ← get k height branch block;
      match r with
      | None => rret (false, ordered)
      | Some x => fill k branch block n' (S i) height (<[i := x]> ordered)
      end
  end.

(** The common shape of the three range loops: resize, start below the
    range, fill. *)
Definition populate_range (k : kind) (r : chain_state.range)
    (ordered : list Z) (branch : header_branch.t) (block : bool)
    : R (bool * list Z) :=
  let ordered := resize (Z.to_nat (chain_state.count r)) 0 ordered in
  let height := wrap64 (chain_state.high r - chain_state.count r) in
  fill k branch block (length ordered) 0 height ordered.

Definition populate_bits (d : chain_state.data) (m : chain_state.map)
    (branch : header_branch.t) (block : bool) : R (bool * chain_state.data) :=
  '(ok, bits) ← populate_range k_bits (chain_state.map_bits m)
                  (chain_state.bits_ordered d) branch block;
  let d := chain_state.set_bits_ordered d bits in
  if negb ok then rret (false, d)
  else
    r ← get_bits (chain_state.map_bits_self m) branch block;
    match r with
    | None => rret (false, d)
    | Some x => rret (true, chain_state.set_bits_self d x)
    end.

Definition populate_versions (d : chain_state.data) (m : chain_state.map)
    (branch : header_branch.t) (block : bool) : R (bool * chain_state.data) :=
  '(ok, versions) ← populate_range k_version (chain_state.map_version m)
                      (chain_state.version_ordered d) branch block;
  let d := chain_state.set_version_ordered d versions in
  if negb ok then rret (false, d)
  else
    r ← get_version (chain_state.map_version_self m) branch block;
    match r with
    | None => rret (false, d)
    | Some x => rret (true, chain_state.set_version_self d x)
    end.

Definition populate_timestamps (d : chain_state.data) (m : chain_state.map)
    (branch : header_branch.t) (block : bool) : R (bool * chain_state.data) :=
  let d := chain_state.set_timestamp_retarget d unspecified_timestamp in
  '(ok, timestamps) ← populate_range k_timestamp (chain_state.map_timestamp m)
                        (chain_state.timestamp_ordered d) branch block;
  let d := chain_state.set_timestamp_ordered d timestamps in
  if negb ok then rret (false, d)
  else
    '(ok, d) ←
      (if bool_decide (chain_state.map_timestamp_retarget m
                       ≠ chain_state.unrequested)
       then
         r ← get_timestamp (chain_state.map_timestamp_retarget m)
               branch block;
         match r with
         | None => rret (false, d)
         | Some x => rret (true, chain_state.set_timestamp_retarget d x)
         end
       else rret (true, d));
    if negb ok then rret (false, d)
    else
      r ← get_timestamp (chain_state.map_timestamp_self m) branch block;
      match r with
      | None => rret (false, d)
      | Some x => rret (true, chain_state.set_timestamp_self d x)
      end.

Definition populate_checkpoint (d : chain_state.data) (m : chain_state.map)
    (branch : header_branch.t) (block : bool) : R (bool * chain_state.data) :=
  if bool_decide (chain_state.map_allow_collisions_height m
                  = chain_state.unrequested)
  then rret (true, chain_state.set_allow_collisions_hash d null_hash)
  else
    r ← get_block_hash (chain_state.map_allow_collisions_height m)
          branch block;
    match r with
    | None => rret (false, d)
    | Some x => rret (true, chain_state.set_allow_collisions_hash d x)
    end.

(** [a && b] on populating steps: [b] runs only when [a] succeeded. *)
Definition and_then (a : R (bool * chain_state.data))
    (b : chain_state.data -> R (bool * chain_state.data))
    : R (bool * chain_state.data) :=
  rbind a (fun '(ok, d) => if ok then b d else rret (false, d)).

Definition populate_all (p : t) (d : chain_state.data)
    (branch : header_branch.t) (block : bool) : R (bool * chain_state.data) :=
  let m := chain_state.get_map (chain_state.height d)
             (checkpoints_ p) (forks_ p) in
  and_then (populate_bits d m branch block) (fun d =>
  and_then (populate_versions d m branch block) (fun d =>
  and_then (populate_timestamps d m branch block) (fun d =>
  populate_checkpoint d m branch block))).

(** The empty branch of the startup scenario. *)
Definition no_branch : header_branch.t := header_branch.mk_branch 0 [].

(** [populate(bool block_index)]: chain state for the top block or
    header. *)
Definition populate_top (p : t) (block_index : bool)
    : R (option chain_state.state) :=
  match get_block_height block_index with
  | None => rret None
  | Some height =>
      r ← ask k_block_hash height block_index;
      match r with
      | None => rret None
      | Some hash =>
          let d := chain_state.set_height
                     (chain_state.set_hash chain_state.default_data hash)
                     height in
          '(ok, d) ← populate_all p d no_branch block_index;
          if negb ok then rret None
          else rret (Some (chain_state.make d (checkpoints_ p) (forks_ p)
                             (stale_seconds_ p)))
      end
  end.

(** [populate(header_branch::const_ptr branch)]: chain state for the top
    header of the branch.  On the promotion path the new state is also
    stored in the top header's metadata. *)
Definition populate (p : t) (branch : header_branch.t)
    : R (option chain_state.state) :=
  match header_branch.top branch with
  | None => rret None
  | Some top_header =>
      match header_branch.top_parent branch
              ≫= header_branch.validation_state with
      | Some parent_state =>
          rret (Some (chain_state.promote parent_state
                        (header_branch.entry_header top_header)))
      | None =>
          let d := chain_state.set_height
                     (chain_state.set_hash chain_state.default_data
                        (header_hash (header_branch.entry_header top_header)))
                     (header_branch.top_height branch) in
          '(ok, d) ← populate_all p d branch false;
          if negb ok then rret None
          else rret (Some (chain_state.make d (checkpoints_ p) (forks_ p)
                             (stale_seconds_ p)))
      end
  end.

End members.
End populate_chain_state.

(** ** populate_block *)

Module populate_block.

(** What a population does to the outside: calls of the reader's
    populating members, the coinbase metadata write and the result
    handler.  Inputs are named by their position among the inputs of the
    non-coinbase transactions, transactions by their position in the
    block. *)
Inductive call : Type :=
| start_populate_set
| coinbase_prevout_set
| populate_transaction_called (position : Z) (forks : Z) (fork_height : Z)
| populate_output_called (input_position : Z) (prevout : output_point)
    (fork_height : Z)
| handler_called (ec : code).

(** [ceiling_add] of the base library: addition that saturates at the
    maximum of [size_t]. *)
Definition ceiling_add (a b : Z) : Z :=
  if a + b >? max_uint64 then max_uint64 else a + b.

Section members.
Context `{base_library} `{chain_state.library} `{!fast_chain}.

(** [block::total_non_coinbase_inputs] *)
Definition total_non_coinbase_inputs (blk : block) : Z :=
  Z.of_nat (length (flat_map inputs (tail (transactions blk)))).

Definition populate_coinbase (blk : block) (st : chain_state.state)
    (fork_height : Z) : list call :=
  let forks := chain_state.enabled_forks st in
  [coinbase_prevout_set; populate_transaction_called 0 forks fork_height].

(** The loop [for (position = first; position < txs.size();
    position = ceiling_add(position, buckets))].  It is not structural;
    [fuel] bounds the iterations and [None] reports that it ran out. *)
Fixpoint transactions_pass (fuel : nat) (txs : list transaction)
    (forks fork_height : Z) (position buckets : Z) : option (list call) :=
  match fuel with
  | O => None
  | S fuel' =>
      if position <? Z.of_nat (length txs) then
        rest ← transactions_pass fuel' txs forks fork_height
                 (ceiling_add position buckets) buckets;
        Some (populate_transaction_called position forks fork_height :: rest)
      else Some []
  end.

(** The inner loop over the inputs of one transaction, entered with the
    running [input_position]. *)
Fixpoint inputs_pass_tx (ins : list input) (fork_height : Z)
    (bucket buckets : Z) (input_position : Z) : list call * Z :=
  match ins with
  | [] => ([], input_position)
  | input :: rest =>
      let '(calls, final) :=
        inputs_pass_tx rest fork_height bucket buckets (input_position + 1) in
      if negb (input_position mod buckets =? bucket) then (calls, final)
      else
        (populate_output_called input_position (previous_output input)
           fork_height :: calls, final)
  end.

(** The outer loop [for (tx = txs.begin() + 1; tx != txs.end(); ++tx)]. *)
Fixpoint inputs_pass (txs : list transaction) (fork_height : Z)
    (bucket buckets : Z) (input_position : Z) : list call :=
  match txs with
  | [] => []
  | tx :: rest =>
      let '(calls, input_position) :=
        inputs_pass_tx (inputs tx) fork_height bucket buckets
          input_position in
      calls ++ inputs_pass rest fork_height bucket buckets input_position
  end.

(** Whether the per-transaction pass of a bucket runs. *)
Definition transactions_pass_enabled (st : chain_state.state) : bool :=
  negb is_blocks_stale
  || negb (chain_state.is_enabled st chain_state.allow_collisions).

Definition populate_transactions (fuel : nat) (blk : block)
    (st : chain_state.state) (fork_height : Z) (bucket buckets : Z)
    : option (list call) :=
  let txs := transactions blk in
  let input_position := 0 in
  let first := if bucket =? 0 then buckets else bucket in
  per_transaction ←
    (if transactions_pass_enabled st then
       let forks := chain_state.enabled_forks st in
       transactions_pass fuel txs forks fork_height first buckets
     else Some []);
  Some (per_transaction
        ++ inputs_pass (tail txs) fork_height bucket buckets input_position
        ++ [handler_called success]).

(** Iterations that always suffice for the per-transaction loop of a
    block when there is at least one bucket. *)
Definition enough_fuel (blk : block) : nat :=
  S (length (transactions blk)).

(** The work of the buckets [0 .. buckets - 1], each tagged with its
    bucket. *)
Definition bucket_work (blk : block) (st : chain_state.state)
    (fork_height : Z) (buckets : Z) : option (list (Z * list call)) :=
  mapM (fun bucket =>
          work ← populate_transactions (enough_fuel blk) blk st fork_height
                   bucket buckets;
          Some (bucket, work))
       (map Z.of_nat (seq 0 (Z.to_nat buckets))).

(** What reaches the result handler through a bucket's [join_handler]. *)
Definition joined (work : list call) : list code :=
  omap (fun c => match c with handler_called ec => Some ec | _ => None end)
       work.

(** [populate]: the calls made directly, then the buckets' calls, then
    what the synchronizer hands to the result handler.  [dispatch_size]
    is [dispatch_.size()]. *)
Definition populate (dispatch_size : Z) (blk : block) (fork_height : Z)
    : option (list call * list (Z * list call) * list call) :=
  match block_chain_state blk with
  | None => Some ([start_populate_set; handler_called operation_failed], [], [])
  | Some st =>
      if chain_state.is_under_checkpoint st
      then Some ([start_populate_set; handler_called success], [], [])
      else
        let direct := start_populate_set :: populate_coinbase blk st fork_height in
        let non_coinbase_inputs := total_non_coinbase_inputs blk in
        if non_coinbase_inputs =? 0
        then Some (direct ++ [handler_called success], [], [])
        else
          let buckets := Z.min dispatch_size non_coinbase_inputs in
          work ← bucket_work blk st fork_height buckets;
          let completions := flat_map (fun bw => joined (snd bw)) work in
          Some (direct, work,
                match parallel_join completions with
                | Some ec => [handler_called ec]
                | None => []
                end)
  end.

End members.
End populate_block.

(** ** A reference environment

    An executable instance of each interface, on which the members can be
    evaluated.  The 256-bit numbers are [Z] values below [2^256] with the
    compact encoding of the Bitcoin family; sizes, merkle roots and script
    serialization are deliberately small stand-ins. *)

Module reference.

Definition wrap256 (z : Z) : Z := z mod 2 ^ 256.

Definition decode_compact (compact : Z) : bool * Z :=
  let size := Z.shiftr compact 24 in
  let number := Z.land compact 8388607 in
  let value :=
    if size <=? 3 then Z.shiftr number (8 * (3 - size))
    else wrap256 (Z.shiftl number (8 * (size - 3))) in
  let negative := negb (number =? 0) && negb (Z.land compact 8388608 =? 0) in
  let overflow :=
    negb (number =? 0)
    && ((size >? 34) || ((number >? 255) && (size >? 33))
        || ((number >? 65535) && (size >? 32))) in
  (negb (negative || overflow), value).

Definition bit_length (z : Z) : Z :=
  if z <=? 0 then 0 else Z.log2 z + 1.

Definition encode_compact (value : Z) : Z :=
  let size := (bit_length value + 7) / 8 in
  let number :=
    if size <=? 3 then wrap64 (Z.shiftl (wrap64 value) (8 * (3 - size)))
    else wrap64 (Z.shiftr value (8 * (size - 3))) in
  let '(number, size) :=
    if negb (Z.land number 8388608 =? 0)
    then (Z.shiftr number 8, size + 1)
    else (number, size) in
  Z.lor number (Z.shiftl size 24) mod 2 ^ 32.

(** Little-endian bytes of a non-negative number, at most [fuel] of
    them. *)
Fixpoint le_bytes (fuel : nat) (n : Z) : data_chunk :=
  match fuel with
  | O => []
  | S fuel' => if n <=? 0 then [] else n mod 256 :: le_bytes fuel' (n / 256)
  end.

Definition number_data (n : Z) : data_chunk :=
  let bytes := le_bytes 8 n in
  match list.last bytes with
  | Some back => if 128 <=? back then bytes ++ [0] else bytes
  | None => []
  end.

Definition operation_to_data (op : operation) : data_chunk :=
  if op_code op =? opcode.special
  then Z.of_nat (length (op_data op)) :: op_data op
  else [op_code op].

Definition serialize (s : script) : data_chunk :=
  flat_map operation_to_data (operations s).

(** The synchronizer of the dispatcher: the first failure, or [success]
    when every call succeeded; with no call to wait for, the joined handler
    is never invoked. *)
Definition first_failure (codes : list code) : option code :=
  match codes with
  | [] => None
  | _ :: _ => Some (default success (find is_error codes))
  end.

Definition library : base_library := {|
  hash_number := Z;
  hn_of_uint64 := fun z => z;
  hn_set_compact := decode_compact;
  hn_set_hash := fun h => h;
  hn_compact := encode_compact;
  hn_mul := fun a b => wrap256 (a * b);
  hn_div := fun a b => a / b;
  hn_le := Z.leb;
  hn_gt := Z.gtb;
  max_target := 65535 * 2 ^ 208;
  max_work_bits := 486604799;
  serialized_size := fun b => 80 + Z.of_nat (length (transactions b));
  generate_merkle_root := fun txs => fold_right Z.lxor 0 (map tx_hash txs);
  check_transaction := fun _ => success;
  is_final := fun _ _ _ => true;
  validate_consensus := fun _ _ _ _ _ => true;
  script_to_data := serialize;
  script_from_data := fun _ => None;
  script_type := fun _ => other_payment;
  script_number_data := number_data;
  parallel_join := first_failure
|}.

(** A coinbase whose input script pushes [script_bytes]. *)
Definition coinbase (id : hash_digest) (script_bytes : data_chunk)
    : transaction :=
  mk_transaction id 1 0
    [mk_input (mk_output_point null_hash max_uint32)
       (mk_script [mk_operation opcode.special script_bytes]) max_uint32]
    [mk_output 2500000000 (mk_script [])].

(** A transaction with one input, spending output [index] of [from]. *)
Definition payment (id from : hash_digest) (index : Z) : transaction :=
  mk_transaction id 1 0
    [mk_input (mk_output_point from index) (mk_script []) max_uint32]
    [mk_output 1000 (mk_script [])].

(** A block over the given transactions whose header carries the merkle
    root of the instance, a small hash and the easiest target. *)
Definition block_of (ver : Z) (txs : list transaction) : block :=
  mk_block
    (mk_header 1 ver 0 (fold_right Z.lxor 0 (map tx_hash txs))
       1400000000 486604799 0)
    txs.

(** A validator over an empty chain view: no transaction is known, the
    stop callback never reports a stop. *)
Definition validator (height : Z) (blk : block) : validate_block :=
  {| height_ := height;
     current_block_ := blk;
     checkpoints_ := [];
     stop_callback_ := fun _ => false;
     actual_timespan := fun _ => target_timespan;
     fetch_block := fun _ => block_header blk;
     fetch_transaction := fun _ => None;
     is_output_spent := fun _ => false;
     is_output_spent_by := fun _ _ _ => false;
     median_time_past := 1300000000;
     previous_block_bits := 486604799;
     transaction_exists := fun _ => false;
     current_time := 1500000000 |}.

(** The same validator over a chain view that knows one transaction,
    confirmed at [known_height]. *)
Definition validator_knowing (height : Z) (blk : block) (known : transaction)
    (known_height : Z) : validate_block :=
  {| height_ := height;
     current_block_ := blk;
     checkpoints_ := [];
     stop_callback_ := fun _ => false;
     actual_timespan := fun _ => target_timespan;
     fetch_block := fun _ => block_header blk;
     fetch_transaction := fun h =>
       if h =? tx_hash known then Some (known, known_height) else None;
     is_output_spent := fun _ => false;
     is_output_spent_by := fun _ _ _ => false;
     median_time_past := 1300000000;
     previous_block_bits := 486604799;
     transaction_exists := fun h => h =? tx_hash known;
     current_time := 1500000000 |}.

(** Four transactions; the second and the fourth are the same. *)
Definition separated_duplicate : block :=
  block_of 2
    [coinbase 100 [1; 2; 3]; payment 7 50 0; payment 8 51 0; payment 7 50 0].

(** A coinbase and three further transactions with four inputs in all. *)
Definition four_inputs : block :=
  block_of 2
    [coinbase 100 [1; 2; 3];
     payment 7 50 0;
     mk_transaction 8 1 0
       [mk_input (mk_output_point 51 0) (mk_script []) max_uint32;
        mk_input (mk_output_point 52 1) (mk_script []) max_uint32]
       [mk_output 1000 (mk_script [])];
     payment 9 53 0].

(** A coinbase and one payment that spends output 0 of transaction 50. *)
Definition one_payment : block :=
  block_of 2 [coinbase 100 [1; 2; 3]; payment 7 50 0].

(** A block that holds its coinbase only. *)
Definition coinbase_only : block :=
  block_of 2 [coinbase 100 [1; 2; 3]].

(** A block whose coinbase script begins with the push of 300000
    (bytes [e0 93 04]), followed by another operation. *)
Definition coinbase_at_300000 : block :=
  block_of 2
    [mk_transaction 101 1 0
       [mk_input (mk_output_point null_hash max_uint32)
          (mk_script [mk_operation opcode.special [224; 147; 4];
                      mk_operation opcode.special [7; 7]]) max_uint32]
       [mk_output 2500000000 (mk_script [])]].

(** For the pool: every transaction validates, and a moved-from
    transaction is emptied. *)
Definition pool : transaction_pool.pool_externals :=
  {| transaction_pool.validate_transaction_start := fun _ _ => (success, []);
     transaction_pool.moved_from_tx := fun _ _ =>
       mk_transaction 0 0 0 [] [] |}.

(** The pool entry of a payment, confirmed through handler [h]. *)
Definition entry (id : hash_digest) (h : transaction_pool.confirm_handler)
    : transaction_pool.transaction_entry_info :=
  transaction_pool.mk_entry id (payment id 50 0) (Some h).

(** The entry that a move from the entry of payment [id] leaves behind. *)
Definition moved_from_entry (id : hash_digest)
    : transaction_pool.transaction_entry_info :=
  transaction_pool.mk_entry id (mk_transaction 0 0 0 [] []) None.

(** For the chain state: a state is the data it was built from, promotion
    moves the parent's data one height up, and the map asks for the bits of
    the previous block, the versions of the previous two, the timestamps of
    the previous three and, every fourth height, a retarget timestamp four
    blocks back. *)
Definition window (height size : Z) : chain_state.range :=
  if height =? 0 then chain_state.mk_range 0 0
  else chain_state.mk_range (height - 1) (Z.min height size).

Definition small_map (height : Z) : chain_state.map :=
  chain_state.mk_map
    (window height 1) height
    (window height 2) height
    (window height 3) height
    (if (4 <=? height) && (height mod 4 =? 0) then height - 4
     else chain_state.unrequested)
    chain_state.unrequested.

Definition chain_states : chain_state.library :=
  {| chain_state.state := chain_state.data;
     chain_state.get_map := fun height _ _ => small_map height;
     chain_state.make := fun d _ _ _ => d;
     chain_state.promote := fun parent top =>
       chain_state.set_hash
         (chain_state.set_height parent (chain_state.height parent + 1))
         (header_hash top);
     chain_state.is_under_checkpoint := fun _ => false;
     chain_state.enabled_forks := fun _ => 0;
     chain_state.is_enabled := fun _ _ => true |}.

#[local] Existing Instance chain_states.

(** A header with the given hash, bits, version and timestamp. *)
Definition plain_header (id ver time : Z) : header :=
  mk_header id ver 0 0 time 486604799 0.

(** A reader over an indexed chain given as the list of its headers from
    height 0 on. *)
Definition reader (indexed : list header) (stale : bool) : @fast_chain chain_states :=
  {| block_chain_state := fun _ =>
       Some (chain_state.default_data : @chain_state.state chain_states);
     get_block_height := fun _ =>
       if bool_decide (indexed = []) then None
       else Some (Z.of_nat (length indexed) - 1);
     get_block_hash := fun height _ => header_hash <$> at_index indexed height;
     get_bits := fun height _ => bits <$> at_index indexed height;
     get_timestamp := fun height _ => timestamp <$> at_index indexed height;
     get_version := fun height _ => version <$> at_index indexed height;
     is_blocks_stale := stale |}.

Definition populator : populate_chain_state.t := populate_chain_state.mk_populator [] 0 86400.

(** Four indexed headers, heights 0 to 3. *)
Definition indexed_chain : list header :=
  [plain_header 1000 1 100; plain_header 1001 1 200;
   plain_header 1002 2 300; plain_header 1003 2 400].

(** A branch of two headers above height 3, without cached states. *)
Definition branch_above_3 : @header_branch.t chain_states :=
  header_branch.mk_branch 3
    [header_branch.mk_entry (plain_header 1004 2 500) None;
     header_branch.mk_entry (plain_header 1005 2 600) None].

(** The same branch when the parent of its top carries a state. *)
Definition branch_with_parent_state : @header_branch.t chain_states :=
  header_branch.mk_branch 3
    [header_branch.mk_entry (plain_header 1004 2 500)
       (Some (chain_state.set_height chain_state.default_data 4));
     header_branch.mk_entry (plain_header 1005 2 600) None].

End reference.

(** ** Notions used to state the properties *)

(** [emits P m]: whatever [m] adds to the record of handler calls
    satisfies [P]. *)
Definition emits {A : Type} (P : code -> Prop) (m : V A) : Prop :=
  forall s, exists extra,
    fired (snd (m s)) = fired s ++ extra /\ Forall P extra.

(** The stop callback of [v] never reports a stop. *)
Definition never_stopped (v : validate_block) : Prop :=
  forall n, stop_callback_ v n = false.

(** [m], started in state [s], runs to its end without executing [return]
    and leaves state [s']. *)
Definition falls_through (m : V unit) (s s' : vstate) : Prop :=
  m s = (Next tt, s').

(** No two neighbours of the list are equal. *)
Fixpoint no_adjacent_equal {A : Type} (l : list A) : Prop :=
  match l with
  | [] => True
  | x :: rest =>
      match rest with
      | [] => True
      | y :: _ => x <> y /\ no_adjacent_equal rest
      end
  end.

(** [quiet m]: when [m] runs to its end without [return], it has not
    called the handler. *)
Definition quiet {A : Type} (m : V A) : Prop :=
  forall s a s', m s = (Next a, s') -> fired s' = fired s.

(** The retarget rule in the words of section 4.C: the actual timespan
    clamped to [[target_timespan / 4, target_timespan * 4]], times the
    previous target, divided by [target_timespan], capped at [max_target],
    compactly encoded. *)
Definition clamp (x lo hi : Z) : Z := Z.max lo (Z.min x hi).

Definition retarget_bits `{base_library} (previous_bits actual : Z) : Z :=
  let previous_target := snd (hn_set_compact previous_bits) in
  let scaled :=
    hn_div (hn_mul previous_target
              (clamp actual (target_timespan / 4) (target_timespan * 4)))
           (hn_of_uint64 target_timespan) in
  hn_compact (if hn_gt scaled max_target then max_target else scaled).

(** The serialization of the first input script of the block's first
    transaction begins with the push of [height] as a script number. *)
Definition begins_with_height `{base_library} (height : Z) (blk : block)
    : Prop :=
  exists coinbase_tx rest front ins suffix,
    transactions blk = coinbase_tx :: rest
    /\ inputs coinbase_tx = front :: ins
    /\ script_to_data (input_script front)
       = script_to_data (expect_coinbase height) ++ suffix.

(** The confirmation handlers fired by a list of pool events, in order,
    each with the code it received. *)
Definition confirmations (events : list transaction_pool.event)
    : list (transaction_pool.confirm_handler * code) :=
  omap (fun e =>
          match e with
          | transaction_pool.confirm_called h ec => Some (h, ec)
          | _ => None
          end) events.

(** The validation handlers fired by a list of pool events. *)
Definition validations (events : list transaction_pool.event)
    : list (transaction_pool.validate_handler * code) :=
  omap (fun e =>
          match e with
          | transaction_pool.validate_called h ec _ => Some (h, ec)
          | _ => None
          end) events.

Section chain_state_notions.
Import populate_chain_state.
Context `{chain_state.library} `{!fast_chain}.

(** The value of an attribute for the populator: the branch's where the
    branch covers the height, the reader's otherwise. *)
Definition lookup (branch : header_branch.t) (block : bool) (k : kind)
    (height : Z) : option Z :=
  match branch_get k branch height with
  | Some x => Some x
  | None => reader_get k height block
  end.

(** The heights of a range of the map, lowest first: index [i] of the
    ordered vector stands for height [high - count + 1 + i]. *)
Definition range_heights (r : chain_state.range) : list Z :=
  map (fun i => wrap64 (chain_state.high r - chain_state.count r + 1 + Z.of_nat i))
      (seq 0 (Z.to_nat (chain_state.count r))).

(** The attributes a chain-state map requires. *)
Definition required (m : chain_state.map) : list (kind * Z) :=
  map (pair k_bits) (range_heights (chain_state.map_bits m))
  ++ [(k_bits, chain_state.map_bits_self m)]
  ++ map (pair k_version) (range_heights (chain_state.map_version m))
  ++ [(k_version, chain_state.map_version_self m)]
  ++ map (pair k_timestamp) (range_heights (chain_state.map_timestamp m))
  ++ (if bool_decide (chain_state.map_timestamp_retarget m
                      = chain_state.unrequested)
      then [] else [(k_timestamp, chain_state.map_timestamp_retarget m)])
  ++ [(k_timestamp, chain_state.map_timestamp_self m)]
  ++ (if bool_decide (chain_state.map_allow_collisions_height m
                      = chain_state.unrequested)
      then [] else [(k_block_hash, chain_state.map_allow_collisions_height m)]).

(** The retarget timestamp the map asks for, or the unspecified value. *)
Definition retarget_value (branch : header_branch.t) (block : bool)
    (m : chain_state.map) : option Z :=
  if bool_decide (chain_state.map_timestamp_retarget m = chain_state.unrequested)
  then Some unspecified_timestamp
  else lookup branch block k_timestamp (chain_state.map_timestamp_retarget m).

(** The collision hash the map asks for, or the null hash. *)
Definition collision_value (branch : header_branch.t) (block : bool)
    (m : chain_state.map) : option Z :=
  if bool_decide (chain_state.map_allow_collisions_height m
                  = chain_state.unrequested)
  then Some null_hash
  else lookup branch block k_block_hash
         (chain_state.map_allow_collisions_height m).

(** An attribute is available when the branch or the reader has it. *)
Definition available (branch : header_branch.t) (block : bool)
    (a : kind * Z) : Prop :=
  is_Some (lookup branch block (fst a) (snd a)).

(** Every member of the data that the map asks for holds the value looked
    up for it; what the map does not ask for holds its default. *)
Definition complete_data (m : chain_state.map) (branch : header_branch.t)
    (block : bool) (d : chain_state.data) : Prop :=
  map Some (chain_state.bits_ordered d)
  = map (lookup branch block k_bits) (range_heights (chain_state.map_bits m))
  /\ Some (chain_state.bits_self d)
     = lookup branch block k_bits (chain_state.map_bits_self m)
  /\ map Some (chain_state.version_ordered d)
     = map (lookup branch block k_version)
           (range_heights (chain_state.map_version m))
  /\ Some (chain_state.version_self d)
     = lookup branch block k_version (chain_state.map_version_self m)
  /\ map Some (chain_state.timestamp_ordered d)
     = map (lookup branch block k_timestamp)
           (range_heights (chain_state.map_timestamp m))
  /\ Some (chain_state.timestamp_self d)
     = lookup branch block k_timestamp (chain_state.map_timestamp_self m)
  /\ (if bool_decide (chain_state.map_timestamp_retarget m
                      = chain_state.unrequested)
      then chain_state.timestamp_retarget d = unspecified_timestamp
      else Some (chain_state.timestamp_retarget d)
           = lookup branch block k_timestamp
               (chain_state.map_timestamp_retarget m))
  /\ (if bool_decide (chain_state.map_allow_collisions_height m
                      = chain_state.unrequested)
      then chain_state.allow_collisions_hash d = null_hash
      else Some (chain_state.allow_collisions_hash d)
           = lookup branch block k_block_hash
               (chain_state.map_allow_collisions_height m)).

(** The reader was asked only for attributes the branch does not cover,
    and with the index flag of the call. *)
Definition branch_first (branch : header_branch.t) (block : bool)
    (log : list query) : Prop :=
  Forall (fun q =>
            branch_get (query_kind q) branch (query_height q) = None
            /\ query_block q = block) log.

(** The reader calls that looking up the attributes [l] takes: one for
    each attribute the branch does not cover, in the order of [l]. *)
Definition reader_queries (branch : header_branch.t) (block : bool)
    (l : list (kind * Z)) : list query :=
  flat_map (fun a =>
              match branch_get (fst a) branch (snd a) with
              | Some _ => []
              | None => [mk_query (fst a) (snd a) block]
              end) l.

(** [reads_of branch block succeeded m l]: the reader calls of [m] are
    those of looking up a prefix of [l], and those of all of [l] when [m]
    succeeded. *)
Definition reads_of {A : Type} (branch : header_branch.t) (block : bool)
    (succeeded : A -> bool) (m : R A) (l : list (kind * Z)) : Prop :=
  (exists c, snd m = reader_queries branch block (take c l))
  /\ (succeeded (fst m) = true -> snd m = reader_queries branch block l).

End chain_state_notions.

(** Calls of [populate_output] on the input at [position], and calls of
    [populate_transaction] on the transaction at [position]. *)
Definition on_input (position : Z) (c : populate_block.call) : bool :=
  match c with
  | populate_block.populate_output_called p _ _ => p =? position
  | _ => false
  end.

Definition on_transaction (position : Z) (c : populate_block.call) : bool :=
  match c with
  | populate_block.populate_transaction_called p _ _ => p =? position
  | _ => false
  end.

(** How many calls of a list satisfy [f]. *)
Definition count_calls (f : populate_block.call -> bool)
    (work : list populate_block.call) : nat :=
  length (List.filter f work).

(** The calls of all buckets together. *)
Definition all_calls (work : list (Z * list populate_block.call))
    : list populate_block.call :=
  flat_map snd work.

(** The inputs of the transactions after the coinbase, in block order:
    the input at position [p] of this list is the non-coinbase input at
    global input position [p]. *)
Definition non_coinbase_inputs (blk : block) : list input :=
  flat_map inputs (tail (transactions blk)).




(** The elements an effectful predicate does not select, and those on
    which it throws. *)
Definition not_selected {A E : Type} (pred : A -> list E * option bool)
    (x : A) : bool :=
  bool_decide (snd (pred x) = Some false).

Definition throws {A E : Type} (pred : A -> list E * option bool) (x : A)
    : Prop :=
  snd (pred x) = None.

Section pool_notions.
Import transaction_pool.
Context `{pool_externals}.

(** The calls a pool receives from its users and from the organizer. *)
Inductive member_call : Type :=
| call_start
| call_stop
| call_validate (t : transaction) (hv : validate_handler)
| call_store (t : transaction) (hc : std_function confirm_handler)
    (hv : validate_handler)
| call_fetch (h : hash_digest) (hf : fetch_handler)
| call_exists (h : hash_digest) (he : exists_handler)
| call_reorganize (ec : code) (fork_point : Z)
    (new_blocks replaced_blocks : list block).

Definition perform (c : member_call) : action :=
  match c with
  | call_start => start
  | call_stop => stop
  | call_validate t hv => validate t (user_handler hv)
  | call_store t hc hv => store t hc hv
  | call_fetch h hf => fetch h hf
  | call_exists h he => exists_ h he
  | call_reorganize ec fork_point new_blocks replaced_blocks =>
      reorganize ec fork_point new_blocks replaced_blocks
  end.

(** The entries [try_delete_tx] is meant to keep: those with another
    hash. *)
Definition other_hash (h : hash_digest) (entry : transaction_entry_info)
    : bool :=
  negb (bool_decide (hash entry = h)).

(** The entry's confirmation handler holds a target. *)
Definition callable (entry : transaction_entry_info) : Prop :=
  is_Some (handle_confirm entry).

(** The targets of the confirmation handlers of a list of entries. *)
Definition targets (entries : pool_buffer) : list confirm_handler :=
  omap handle_confirm entries.

(** [keeps_shape a]: whatever way [a] ends, the pool has the size, the
    capacity and the stop flag it had, every event is the call of a
    confirmation handler with [success], and [front()] was not evaluated
    on an empty buffer. *)
Definition keeps_shape (a : action) : Prop :=
  forall p,
    size (pool_of (a p)) = size p
    /\ capacity (pool_of (a p)) = capacity p
    /\ stopped_ (pool_of (a p)) = stopped_ p
    /\ Forall (fun e => exists hc, e = confirm_called hc success)
         (events_of (a p))
    /\ ending_of (a p) <> undefined_front.

End pool_notions.

(** [completes_once m]: whether it returns or runs to its end, [m] has
    handed exactly one code to the handler. *)
Definition completes_once {A : Type} (m : V A) : Prop :=
  forall s, exists ec, fired (snd (m s)) = fired s ++ [ec].

(** [reports_on_return m]: when [m] executes [return], it has called the
    handler exactly once. *)
Definition reports_on_return {A : Type} (m : V A) : Prop :=
  forall s s', m s = (Return, s') -> exists ec, fired s' = fired s ++ [ec].

(** [checks m ok]: [m] is a chain of tests.  When they pass it runs to its
    end without calling the handler; when one fails it calls the handler
    once, with a code other than [success], and returns. *)
Definition checks {A : Type} (m : V A) (ok : bool) : Prop :=
  forall s, exists n,
    if ok then exists a, m s = (Next a, mk_vstate n (fired s))
    else exists ec, ec <> success
                    /\ m s = (Return, mk_vstate n (fired s ++ [ec])).

(** [concludes m ok]: [m] calls the handler exactly once, with [success]
    when [ok] holds and with another code when it does not. *)
Definition concludes {A : Type} (m : V A) (ok : bool) : Prop :=
  forall s, exists ec,
    fired (snd (m s)) = fired s ++ [ec] /\ (ec = success <-> ok = true).

(** The first transaction of the list is a coinbase and no other is. *)
Definition only_first_is_coinbase (txs : list transaction) : Prop :=
  exists first rest,
    txs = first :: rest
    /\ is_coinbase first = true
    /\ Forall (fun t => is_coinbase t = false) rest.

(** The operations that [count_script_sigops] counts: the single
    signature checks and the multi-signature checks. *)
Definition single_sig (op : operation) : bool :=
  (op_code op =? opcode.checksig) || (op_code op =? opcode.checksigverify).

Definition multi_sig (op : operation) : bool :=
  (op_code op =? opcode.checkmultisig)
  || (op_code op =? opcode.checkmultisigverify).

(** The scripts of a transaction: those of its inputs, then those of its
    outputs. *)
Definition scripts_of (tx : transaction) : list script :=
  map input_script (inputs tx) ++ map output_script (outputs tx).

(** The sum of a list of numbers. *)
Definition sum_of (l : list Z) : Z := fold_right Z.add 0 l.

(** The output an input spends, as the validator's chain view has it. *)
Definition spent_output (v : validate_block) (i : input) : option output :=
  match fetch_transaction v (point_hash (previous_output i)) with
  | Some (previous_tx, _) =>
      at_index (outputs previous_tx) (point_index (previous_output i))
  | None => None
  end.

(** The code with which [check_output_spent] completes on an outpoint when
    no stop is reported. *)
Definition output_spent_code (v : validate_block) (point : output_point)
    : code :=
  if is_output_spent v point then success else duplicate_or_spent.

(** * Properties *)

(** ** Reasoning about handler-reporting computations *)

Section handler_reasoning.
Context `{base_library}.

Lemma emits_ret {A : Type} (P : code -> Prop) (a : A) : emits P (vret a).
Proof. intros s. exists []. simpl. by rewrite app_nil_r. Qed.

Lemma emits_return {A : Type} (P : code -> Prop) : emits P (@vreturn A).
Proof. intros s. exists []. simpl. by rewrite app_nil_r. Qed.

Lemma emits_complete (P : code -> Prop) (ec : code) :
  P ec -> emits P (complete ec).
Proof. intros HP s. exists [ec]. simpl. auto. Qed.

Lemma emits_stopped (P : code -> Prop) (v : validate_block) :
  emits P (stopped v).
Proof. intros s. exists []. simpl. by rewrite app_nil_r. Qed.

Lemma emits_bind {A B : Type} (P : code -> Prop) (m : V A) (f : A -> V B) :
  emits P m -> (forall a, emits P (f a)) -> emits P (vbind m f).
Proof.
  intros Hm Hf s. unfold vbind.
  destruct (Hm s) as (e1 & E1 & F1).
  destruct (m s) as [[a|] s1]; simpl in *.
  - destruct (Hf a s1) as (e2 & E2 & F2).
    exists (e1 ++ e2). rewrite E2, E1, app_assoc. split; [done|].
    by apply Forall_app.
  - by exists e1.
Qed.

Lemma emits_complete_return {A : Type} (P : code -> Prop) (ec : code) :
  P ec -> emits P (@complete_return A ec).
Proof.
  intros HP. apply emits_bind; [by apply emits_complete|].
  intros _. apply emits_return.
Qed.

Lemma emits_return_if (P : code -> Prop) (c : bool) (ec : code) :
  P ec -> emits P (return_if c ec).
Proof.
  intros HP. destruct c; [by apply emits_complete_return | apply emits_ret].
Qed.

Lemma emits_RETURN_IF_STOPPED (P : code -> Prop) (v : validate_block) :
  P service_stopped -> emits P (RETURN_IF_STOPPED v).
Proof.
  intros HP. apply emits_bind; [apply emits_stopped|].
  intros b. by apply emits_return_if.
Qed.

(** A callee with a handler of its own adds nothing to the caller's
    record. *)
Lemma emits_with_own_handler (P : code -> Prop) (callee : V unit) :
  emits P (with_own_handler callee).
Proof.
  intros s. exists []. unfold with_own_handler.
  destruct (callee _) as [f s']. simpl. by rewrite app_nil_r.
Qed.

Lemma emits_collect {A : Type} (P : code -> Prop) (items : list A)
    (method : A -> V unit) :
  emits P (collect items method).
Proof.
  induction items as [|x rest IH]; simpl.
  - apply emits_ret.
  - apply emits_bind; [apply emits_with_own_handler|].
    intros r. apply emits_bind; [exact IH|].
    intros rs. apply emits_ret.
Qed.

Lemma emits_parallel {A : Type} (P : code -> Prop) (items : list A)
    (handler : code -> V unit) (method : A -> V unit) :
  (forall ec, emits P (handler ec)) -> emits P (parallel items handler method).
Proof.
  intros Hh. apply emits_bind; [apply emits_collect|].
  intros results. destruct (parallel_join results); [apply Hh | apply emits_ret].
Qed.

Lemma emits_connect_block1 (v : validate_block) (ec : code) :
  emits (fun c => c = service_stopped \/ c = unknown) (connect_block1 v ec).
Proof.
  apply emits_bind; [apply emits_RETURN_IF_STOPPED; auto|].
  intros _. apply emits_complete. auto.
Qed.

(** Whatever the block and the chain, [connect_block] hands its handler
    nothing but [service_stopped] and [unknown]. *)
Lemma connect_block_codes (v : validate_block) (ec : code) :
  In ec (run (connect_block v)) -> ec = service_stopped \/ ec = unknown.
Proof.
  assert (Hc : emits (fun c => c = service_stopped \/ c = unknown)
                 (connect_block v)).
  { apply emits_bind; [apply emits_RETURN_IF_STOPPED; auto|].
    intros _. simpl.
    destruct (_ || _).
    - apply emits_bind; [apply emits_connect_block1|].
      intros _. apply emits_return.
    - apply emits_parallel. intros c. apply emits_connect_block1. }
  unfold run, run_from. destruct (Hc (mk_vstate 0 [])) as (extra & E & F).
  rewrite E. simpl. intros Hin.
  rewrite Forall_forall in F. apply F. by apply list_elem_of_In.
Qed.

End handler_reasoning.

(** ** Handler discipline of the validator's building blocks *)

Section quiet_reasoning.
Context `{base_library}.

Lemma quiet_ret {A : Type} (a : A) : quiet (vret a).
Proof. intros s a' s' E. by inversion E. Qed.

Lemma quiet_return {A : Type} : quiet (@vreturn A).
Proof. intros s a s' E. inversion E. Qed.

Lemma quiet_stopped (v : validate_block) : quiet (stopped v).
Proof. intros s a s' E. by inversion E. Qed.

Lemma quiet_bind {A B : Type} (m : V A) (f : A -> V B) :
  quiet m -> (forall a, quiet (f a)) -> quiet (vbind m f).
Proof.
  intros Hm Hf s b s' E. unfold vbind in E.
  destruct (m s) as [[a|] s1] eqn:Em; [|inversion E].
  rewrite (Hf a _ _ _ E). exact (Hm _ _ _ Em).
Qed.

Lemma quiet_complete_return {A : Type} (ec : code) : quiet (@complete_return A ec).
Proof. intros s a s' E. inversion E. Qed.

Lemma quiet_return_if (c : bool) (ec : code) : quiet (return_if c ec).
Proof. destruct c; [apply quiet_complete_return | apply quiet_ret]. Qed.

Lemma quiet_RETURN_IF_STOPPED (v : validate_block) :
  quiet (RETURN_IF_STOPPED v).
Proof.
  apply quiet_bind; [apply quiet_stopped|]. intros b. apply quiet_return_if.
Qed.

Lemma quiet_for_each {A : Type} (l : list A) (body : A -> V unit) :
  (forall x, quiet (body x)) -> quiet (for_each l body).
Proof.
  intros Hb. induction l as [|x rest IH]; simpl; [apply quiet_ret|].
  apply quiet_bind; [apply Hb | intros _; exact IH].
Qed.

Lemma emits_for_each {A : Type} (P : code -> Prop) (l : list A)
    (body : A -> V unit) :
  (forall x, emits P (body x)) -> emits P (for_each l body).
Proof.
  intros Hb. induction l as [|x rest IH]; simpl; [apply emits_ret|].
  apply emits_bind; [apply Hb | intros _; exact IH].
Qed.

(** Running a sequence whose first part falls through. *)
Lemma run_bind_falls_through (m k : V unit) (s' : vstate) :
  quiet m -> falls_through m (mk_vstate 0 []) s' ->
  run (vbind m (fun _ => k)) = fired (snd (k (mk_vstate (polls s') []))).
Proof.
  intros Hq Hf. unfold run, run_from, vbind. rewrite Hf.
  apply Hq in Hf. simpl in Hf. destruct s' as [n f]. simpl in *. by subst.
Qed.

Lemma quiet_accept_block_before_coinbase_height (v : validate_block) :
  quiet (accept_block_before_coinbase_height v).
Proof.
  unfold accept_block_before_coinbase_height, mbind, V_bind. cbv zeta.
  repeat first
    [ apply quiet_return_if
    | apply quiet_RETURN_IF_STOPPED
    | apply quiet_for_each; intros ?
    | apply quiet_bind; [|intros ?] ].
Qed.

Lemma emits_accept_block_before_coinbase_height (v : validate_block) :
  emits (fun c => c <> coinbase_height_mismatch)
        (accept_block_before_coinbase_height v).
Proof.
  unfold accept_block_before_coinbase_height, mbind, V_bind. cbv zeta.
  repeat first
    [ apply emits_return_if; discriminate
    | apply emits_RETURN_IF_STOPPED; discriminate
    | apply emits_for_each; intros ?
    | apply emits_bind; [|intros ?] ].
Qed.

End quiet_reasoning.

(** ** check_block: the distinctness test *)

Section distinctness.
Context {A : Type} `{EqDecision A}.

Lemma std_unique_length (l : list A) :
  (length (std_unique l) <= length l)%nat.
Proof.
  induction l as [|x [|y rest] IH]; simpl in *; try lia.
  destruct (decide (x = y)); simpl in *; lia.
Qed.

(** [std::unique] drops nothing exactly when no two neighbours are equal. *)
Lemma std_unique_keeps_all (l : list A) :
  length (std_unique l) = length l <-> no_adjacent_equal l.
Proof.
  induction l as [|x [|y rest] IH]; simpl in *; try tauto.
  pose proof (std_unique_length (y :: rest)) as Hle. simpl in Hle.
  destruct (decide (x = y)) as [->|Hne]; simpl.
  - split; [lia | tauto].
  - rewrite <- IH. split; [intros; split; [done | lia] | intros [_ ?]; lia].
Qed.

End distinctness.

Section check_block_distinctness.
Context `{base_library}.

(** [is_distinct_tx_set] accepts exactly the lists in which no two
    neighbouring transactions have the same hash. *)
Lemma is_distinct_tx_set_adjacent (txs : list transaction) :
  is_distinct_tx_set txs = true <-> no_adjacent_equal (map tx_hash txs).
Proof.
  unfold is_distinct_tx_set. rewrite bool_decide_eq_true.
  apply std_unique_keeps_all.
Qed.

Lemma quiet_check_block_before_distinct (v : validate_block) :
  quiet (check_block_before_distinct v).
Proof.
  unfold check_block_before_distinct, mbind, V_bind. cbv zeta.
  repeat first
    [ apply quiet_return_if
    | apply quiet_RETURN_IF_STOPPED
    | apply quiet_for_each; intros ?
    | apply quiet_bind; [|intros ?] ].
Qed.

(** What [check_block] does at the distinctness test: for a block that
    passes the earlier steps, with no stop reported at the poll before the
    test, it completes with [duplicate] exactly when two neighbouring
    transactions have the same hash. *)
Lemma check_block_duplicate_adjacent (v : validate_block) (s' : vstate) :
  falls_through (check_block_before_distinct v) (mk_vstate 0 []) s' ->
  stop_callback_ v (polls s') = false ->
  run (check_block v) = [duplicate]
  <-> ~ no_adjacent_equal (map tx_hash (transactions (current_block_ v))).
Proof.
  intros Hfalls Hpoll. unfold check_block, mbind, V_bind.
  rewrite (run_bind_falls_through _ _ s'
             (quiet_check_block_before_distinct v) Hfalls).
  rewrite <- is_distinct_tx_set_adjacent.
  unfold check_block_from_distinct, RETURN_IF_STOPPED, mbind, V_bind, vbind,
    stopped.
  simpl. rewrite Hpoll. simpl.
  destruct (is_distinct_tx_set _); simpl.
  - split; [|done]. intros Hrun. exfalso.
    destruct (stop_callback_ v (S (polls s'))); simpl in Hrun; [done|].
    destruct (_ >? _); simpl in Hrun; [done|].
    destruct (stop_callback_ v (S (S (polls s')))); simpl in Hrun; [done|].
    destruct (negb _); simpl in Hrun; done.
  - split; [done | reflexivity].
Qed.

End check_block_distinctness.

(** C2 (the code departs from the claim).  The block
    [reference.separated_duplicate] holds the same transaction at positions
    1 and 3.  All steps of [check_block] before the distinctness test pass,
    its transaction hashes are not pairwise distinct, and yet
    [is_distinct_tx_set] accepts the list and [check_block] completes with
    [success] instead of [duplicate]. *)
Theorem check_block_separated_duplicate :
  let v := reference.validator 300000 reference.separated_duplicate in
  ~ NoDup (map tx_hash (transactions (current_block_ v)))
  /\ (exists s', falls_through
                   (check_block_before_distinct (H := reference.library) v)
                   (mk_vstate 0 []) s')
  /\ is_distinct_tx_set (transactions (current_block_ v)) = true
  /\ run (check_block (H := reference.library) v) = [success].
Proof.
  intros v. split; [|split; [|split]].
  - apply (proj1 (bool_decide_eq_false
              (NoDup (map tx_hash (transactions (current_block_ v)))))).
    vm_compute. reflexivity.
  - eexists. unfold falls_through. vm_compute. reflexivity.
  - vm_compute. reflexivity.
  - vm_compute. reflexivity.
Qed.

(** ** connect_block *)

Section connect_block_properties.
Context `{base_library}.

Lemma with_own_handler_state (callee : V unit) (s : vstate) :
  exists r n,
    with_own_handler callee s = (Next r, mk_vstate n (fired s)).
Proof.
  unfold with_own_handler. destruct (callee _) as [f s']. by eexists _, _.
Qed.

(** Collecting the parallel calls never returns from the caller and leaves
    the caller's record of handler calls as it was. *)
Lemma collect_state {A : Type} (items : list A) (method : A -> V unit)
    (s : vstate) :
  exists results n,
    collect items method s = (Next results, mk_vstate n (fired s)).
Proof.
  revert s. induction items as [|x rest IH]; intros s; simpl.
  - exists [], (polls s). by destruct s.
  - unfold mbind, V_bind, vbind.
    destruct (with_own_handler_state (method x) s) as (r & n & ->).
    destruct (IH (mk_vstate n (fired s))) as (rs & n' & ->). simpl.
    by eexists _, _.
Qed.

(** Whenever the BIP30 phase hands a code to the next step, be it
    [success], and the stop callback never reports a stop, [connect_block]
    completes with [unknown], once. *)
Lemma connect_block_after_bip30 (v : validate_block) (ec : code) :
  never_stopped v -> bip30_phase v 1 = Some ec ->
  run (connect_block v) = [unknown].
Proof.
  intros Hns Hphase. unfold bip30_phase in Hphase.
  unfold run, run_from, connect_block, RETURN_IF_STOPPED, connect_block1,
    RETURN_IF_STOPPED, mbind, V_bind, vbind, stopped.
  simpl. rewrite (Hns 0%nat). simpl.
  destruct (_ || _).
  - simpl. rewrite (Hns 1%nat). reflexivity.
  - unfold parallel, mbind, V_bind, vbind.
    destruct (collect_state (transactions (current_block_ v))
                (check_spent_duplicate v) (mk_vstate 1 []))
      as (results & n & Hc).
    rewrite Hc in *. rewrite Hphase. simpl. rewrite (Hns n). reflexivity.
Qed.

End connect_block_properties.

(** C1 (the code departs from the claim).  The block
    [reference.one_payment] is validated at height 300000 over a chain that
    knows the transaction its payment spends.  The BIP30 phase hands
    [success] to the next step and the connection checks of the payment's
    input all pass, yet [connect_block] completes with [unknown], a code
    outside the taxonomy, instead of [success]. *)
Theorem connect_block_completes_unknown :
  let v := reference.validator_knowing 300000 reference.one_payment
             (reference.payment 50 49 0) 1000 in
  bip30_phase (H := reference.library) v 1 = Some success
  /\ validate_inputs (H := reference.library) v (reference.payment 7 50 0)
       1 0 0 = defined (true, 1000, 0)
  /\ run (connect_block (H := reference.library) v) = [unknown]
  /\ in_taxonomy unknown = false.
Proof.
  intros v. repeat split; vm_compute; reflexivity.
Qed.

(** ** work_required *)

Section work_required_properties.
Context `{base_library}.

Lemma readjustment_interval_value : readjustment_interval = 2016.
Proof. reflexivity. Qed.

Lemma range_constrain_clamp (x lo hi : Z) :
  lo <= hi -> range_constrain x lo hi = clamp x lo hi.
Proof.
  intros Hle. unfold range_constrain, clamp.
  destruct (Z.ltb_spec x lo), (Z.gtb_spec x hi); lia.
Qed.

Lemma clamp_bounds (x lo hi : Z) : lo <= hi -> lo <= clamp x lo hi <= hi.
Proof. unfold clamp. lia. Qed.

(** The clamped timespan fits the 32-bit multiplier. *)
Lemma constrained_fits_uint32 (actual : Z) :
  clamp actual (target_timespan / 4) (target_timespan * 4) mod 2 ^ 32
  = clamp actual (target_timespan / 4) (target_timespan * 4).
Proof.
  pose proof (clamp_bounds actual (target_timespan / 4) (target_timespan * 4))
    as Hb.
  change (target_timespan / 4) with 302400 in *.
  change (target_timespan * 4) with 4838400 in *.
  apply Z.mod_small. lia.
Qed.

(** C5.  [work_required] returns [max_work_bits] at height 0; at a height
    that is not a multiple of 2016 it returns the previous block's bits; at
    a positive multiple of 2016 it returns the compact encoding of the
    previous target times the actual timespan clamped to
    [[target_timespan / 4, target_timespan * 4]], divided by
    [target_timespan] and capped at [max_target]. *)
Theorem work_required_cases (v : validate_block) :
  (height_ v = 0 -> work_required v = max_work_bits)
  /\ (height_ v mod 2016 <> 0 -> work_required v = previous_block_bits v)
  /\ (0 < height_ v -> height_ v mod 2016 = 0 ->
      work_required v
      = retarget_bits (previous_block_bits v) (actual_timespan v 2016)).
Proof.
  unfold work_required. rewrite readjustment_interval_value.
  split; [|split].
  - intros ->. reflexivity.
  - intros Hmod.
    destruct (Z.eqb_spec (height_ v) 0) as [E|_].
    + rewrite E in Hmod. by destruct Hmod.
    + by destruct (Z.eqb_spec (height_ v mod 2016) 0).
  - intros Hpos Hmod.
    destruct (Z.eqb_spec (height_ v) 0) as [E|_]; [lia|].
    rewrite Hmod. simpl negb. cbv iota.
    unfold retarget_bits.
    rewrite range_constrain_clamp by (vm_compute; discriminate).
    by rewrite constrained_fits_uint32.
Qed.

End work_required_properties.

(** The three cases of [work_required_cases] on the reference environment:
    heights 0, 300000 and 302400 (= 150 * 2016). *)
Lemma work_required_cases_witness :
  work_required (H := reference.library)
    (reference.validator 0 reference.coinbase_only) = 486604799
  /\ work_required (H := reference.library)
       (reference.validator 300000 reference.coinbase_only) = 486604799
  /\ work_required (H := reference.library)
       (reference.validator 302400 reference.coinbase_only)
     = retarget_bits (H := reference.library) 486604799 target_timespan.
Proof.
  pose proof (work_required_cases (H := reference.library)
                (reference.validator 0 reference.coinbase_only)) as (H0 & _).
  pose proof (work_required_cases (H := reference.library)
                (reference.validator 300000 reference.coinbase_only))
    as (_ & H1 & _).
  pose proof (work_required_cases (H := reference.library)
                (reference.validator 302400 reference.coinbase_only))
    as (_ & _ & H2).
  split; [|split].
  - apply H0. reflexivity.
  - apply H1. vm_compute. discriminate.
  - apply H2; reflexivity.
Defined.

(** A retarget on the reference environment: blocks that came eight times
    too fast quarter the target (the clamp stops at a factor of four). *)
Example retarget_quarters_the_target :
  retarget_bits (H := reference.library) 486604799 (target_timespan / 8)
  = 473956288
  /\ reference.decode_compact 473956288 = (true, 65535 * 2 ^ 206).
Proof. split; vm_compute; reflexivity. Qed.

(** ** accept_block: the coinbase height rule *)

Section coinbase_height_properties.
Context `{base_library}.

Lemma std_equal_prefix (expect raw : data_chunk) :
  std_equal expect raw = true <-> exists suffix, raw = expect ++ suffix.
Proof.
  revert raw. induction expect as [|e expect IH]; intros raw; simpl.
  - split; [intros _; by exists raw | done].
  - destruct raw as [|r raw].
    + split; [done | intros [suffix E]; discriminate].
    + rewrite andb_true_iff, IH, Z.eqb_eq. split.
      * intros [-> [suffix ->]]. by exists suffix.
      * intros [suffix E]. injection E as -> ->. split; [done | by exists suffix].
Qed.

Lemma is_valid_coinbase_height_below (height : Z) (blk : block) :
  height < max_version1_height -> is_valid_coinbase_height height blk = true.
Proof.
  intros Hlt. unfold is_valid_coinbase_height.
  by destruct (Z.ltb_spec height max_version1_height); [|lia].
Qed.

(** From [max_version1_height] on, a version 2 block passes exactly when
    its coinbase script begins with the pushed height. *)
Lemma is_valid_coinbase_height_from (height : Z) (blk : block) :
  max_version1_height <= height -> 2 <= version (block_header blk) ->
  is_valid_coinbase_height height blk = true <-> begins_with_height height blk.
Proof.
  intros Hge Hver. unfold is_valid_coinbase_height, begins_with_height.
  destruct (Z.ltb_spec height max_version1_height); [lia|].
  destruct (Z.ltb_spec (version (block_header blk)) 2); [lia|].
  destruct (transactions blk) as [|coinbase_tx rest].
  { split; [done | intros (? & ? & ? & ? & ? & E & _); discriminate]. }
  destruct (inputs coinbase_tx) as [|front ins] eqn:Ein.
  { split; [done|].
    intros (c & ? & ? & ? & ? & E & Ei & _). injection E as <- <-.
    rewrite Ein in Ei. discriminate. }
  cbv zeta.
  destruct (Nat.ltb_spec (length (script_to_data (input_script front)))
              (length (script_to_data (expect_coinbase height)))) as [Hlen|Hlen].
  - split; [done|].
    intros (c & ? & f & ? & suffix & E & Ei & Es). injection E as <- <-.
    rewrite Ein in Ei. injection Ei as <- <-.
    rewrite Es, length_app in Hlen. lia.
  - rewrite std_equal_prefix. split.
    + intros [suffix Es]. by exists coinbase_tx, rest, front, ins, suffix.
    + intros (c & ? & f & ? & suffix & E & Ei & Es). injection E as <- <-.
      rewrite Ein in Ei. injection Ei as <- <-. by exists suffix.
Qed.

(** C6, as amended.  Below [max_version1_height] (237370), [accept_block]
    never completes with [coinbase_height_mismatch].  From that height on,
    for a block of version 2 or more that passes every earlier step of
    [accept_block], [accept_block] completes with
    [coinbase_height_mismatch] exactly when the serialized first input
    script of the coinbase does not begin with the push of the block height
    as a script number. *)
Theorem accept_block_coinbase_height_rule (v : validate_block) :
  (height_ v < max_version1_height ->
   ~ In coinbase_height_mismatch (run (accept_block v)))
  /\ (forall s',
        max_version1_height <= height_ v ->
        2 <= version (block_header (current_block_ v)) ->
        falls_through (accept_block_before_coinbase_height v)
          (mk_vstate 0 []) s' ->
        run (accept_block v) = [coinbase_height_mismatch]
        <-> ~ begins_with_height (height_ v) (current_block_ v)).
Proof.
  split.
  - intros Hlt.
    assert (Hc : emits (fun c => c <> coinbase_height_mismatch) (accept_block v)).
    { apply emits_bind; [apply emits_accept_block_before_coinbase_height|].
      intros _. unfold accept_block_coinbase_height.
      rewrite (is_valid_coinbase_height_below _ _ Hlt), andb_false_r.
      apply emits_bind; [apply emits_ret|].
      intros _. by apply emits_complete. }
    unfold run, run_from. destruct (Hc (mk_vstate 0 [])) as (extra & E & F).
    rewrite E. simpl. intros Hin. rewrite Forall_forall in F.
    apply list_elem_of_In in Hin. by apply (F _ Hin).
  - intros s' Hge Hver Hfalls.
    unfold accept_block, mbind, V_bind.
    rewrite (run_bind_falls_through _ _ s'
               (quiet_accept_block_before_coinbase_height v) Hfalls).
    rewrite <- (is_valid_coinbase_height_from _ _ Hge Hver).
    unfold accept_block_coinbase_height, mbind, V_bind.
    destruct (Z.geb_spec (version (block_header (current_block_ v))) 2); [|lia].
    destruct (is_valid_coinbase_height _ _); simpl; split; congruence.
Qed.

End coinbase_height_properties.

(** [accept_block_coinbase_height_rule] on the reference environment: a
    version 2 block at height 1000 whose coinbase script does not carry the
    height, and a version 2 block at height 300000 whose coinbase script
    begins with the push of 300000. *)
Lemma accept_block_coinbase_height_rule_witness :
  ~ In coinbase_height_mismatch
      (run (accept_block (H := reference.library)
              (reference.validator 1000 reference.coinbase_only)))
  /\ (run (accept_block (H := reference.library)
             (reference.validator 300000 reference.coinbase_at_300000))
      = [coinbase_height_mismatch]
      <-> ~ begins_with_height (H := reference.library) 300000
              reference.coinbase_at_300000).
Proof.
  split.
  - apply (accept_block_coinbase_height_rule (H := reference.library)
             (reference.validator 1000 reference.coinbase_only)).
    reflexivity.
  - apply (proj2 (accept_block_coinbase_height_rule (H := reference.library)
                    (reference.validator 300000 reference.coinbase_at_300000))
             (mk_vstate 5 [])).
    + vm_compute. discriminate.
    + vm_compute. discriminate.
    + vm_compute. reflexivity.
Defined.

(** C6, counterexample to the claim as stated.  At height 237370, which is
    [max_version1_height] itself, the version 2 block
    [reference.coinbase_only] passes every earlier step and its coinbase
    script does not carry the height: [accept_block] completes with
    [coinbase_height_mismatch], although the height is not above
    [max_version1_height]. *)
Lemma accept_block_enforces_at_max_version1_height :
  let v := reference.validator 237370 reference.coinbase_only in
  height_ v <= max_version1_height
  /\ 2 <= version (block_header (current_block_ v))
  /\ run (accept_block (H := reference.library) v) = [coinbase_height_mismatch].
Proof.
  intros v. split; [|split].
  - vm_compute. discriminate.
  - vm_compute. discriminate.
  - vm_compute. reflexivity.
Qed.

(** ** connect_input: the unchecked output index *)

Section connect_input_properties.
Context `{base_library}.

Lemma at_index_None {A : Type} (l : list A) (i : Z) :
  at_index l i = None <-> ~ (0 <= i < Z.of_nat (length l)).
Proof.
  unfold at_index. destruct (Z.ltb_spec i 0) as [Hneg|Hpos].
  - split; [lia | done].
  - rewrite lookup_ge_None. lia.
Qed.

Lemma at_index_Some {A : Type} (l : list A) (i : Z) :
  is_Some (at_index l i) <-> 0 <= i < Z.of_nat (length l).
Proof.
  rewrite <- not_eq_None_Some, at_index_None.
  destruct (decide (0 <= i < Z.of_nat (length l))); tauto.
Qed.

(** C10.  Once [fetch_transaction] has succeeded, [connect_input] reads
    [previous_tx.outputs[previous_output.index]] whatever the index: the
    call has a defined result only if the index is below the number of
    outputs, and it is undefined at that access exactly when the index is
    not.  No test of the function stands between the fetch and the access,
    and the access outside the vector is reached by a concrete call. *)
Theorem connect_input_output_index_unchecked :
  (forall (v : validate_block) (index_in_parent : Z)
          (current_tx : transaction) (input_index value_in total_sigops : Z)
          (input : input) (previous_tx : transaction) (previous_height : Z),
      at_index (inputs current_tx) input_index = Some input ->
      fetch_transaction v (point_hash (previous_output input))
      = Some (previous_tx, previous_height) ->
      connect_input v index_in_parent current_tx input_index
        value_in total_sigops = undefined outputs_index
      <-> ~ (0 <= point_index (previous_output input)
             < Z.of_nat (length (outputs previous_tx))))
  /\ (exists (v : validate_block) (current_tx : transaction),
        connect_input v 1 current_tx 0 0 0 = undefined outputs_index).
Proof.
  split.
  - intros v index_in_parent current_tx input_index value_in total_sigops
      input previous_tx previous_height Hin Hfetch.
    unfold connect_input. rewrite Hin, Hfetch.
    rewrite <- at_index_None.
    destruct (at_index (outputs previous_tx) _) as [out|]; [|done].
    split; [|done].
    destruct (script_hash_signature_operations_count _ _); [|done].
    repeat match goal with
           | |- context [if ?c then _ else _] => destruct c
           end; done.
  - exists (reference.validator_knowing 300000 reference.coinbase_only
              (reference.payment 50 49 0) 1000),
           (reference.payment 7 50 5).
    reflexivity.
Qed.

End connect_input_properties.

(** [connect_input_output_index_unchecked] on the reference environment:
    the transaction with hash 50 has one output and the input at hand
    spends its output 5. *)
Lemma connect_input_output_index_unchecked_witness :
  connect_input (H := reference.library)
    (reference.validator_knowing 300000 reference.coinbase_only
       (reference.payment 50 49 0) 1000)
    1 (reference.payment 7 50 5) 0 0 0 = undefined outputs_index.
Proof.
  pose proof (proj1 (connect_input_output_index_unchecked
                       (H := reference.library))
                (reference.validator_knowing 300000 reference.coinbase_only
                   (reference.payment 50 49 0) 1000)
                1 (reference.payment 7 50 5) 0 0 0
                (mk_input (mk_output_point 50 5) (mk_script []) max_uint32)
                (reference.payment 50 49 0) 1000 eq_refl eq_refl) as Hiff.
  apply Hiff. vm_compute. intros [_ Hlt]. discriminate.
Defined.

(** ** std::remove_if *)

Section std_remove_if_properties.
Context {A E : Type}.
Variable moved_from : A -> A -> A.
Variable pred : A -> list E * option bool.

Lemma move_assign_length (buf : list A) (first i : nat) :
  length (move_assign moved_from buf first i) = length buf.
Proof.
  unfold move_assign.
  destruct (buf !! i), (buf !! first); try done.
  by rewrite !length_insert.
Qed.

Lemma remove_if_loop_length (remaining : nat) (buf : list A) (first i : nat) :
  length (snd (fst (remove_if_loop moved_from pred remaining buf first i)))
  = length buf.
Proof.
  revert buf first i.
  induction remaining as [|remaining IH]; intros buf first i; simpl; [done|].
  destruct (buf !! i) as [x|]; [|done].
  destruct (pred x) as [ev [drop|]]; [|done].
  destruct drop.
  - specialize (IH buf first (S i)).
    by destruct (remove_if_loop _ _ _ _ _ _) as [[? ?] ?].
  - specialize (IH (move_assign moved_from buf first i) (S first) (S i)).
    rewrite move_assign_length in IH.
    by destruct (remove_if_loop _ _ _ _ _ _) as [[? ?] ?].
Qed.

(** [std::remove_if] erases nothing: the container keeps its size, also
    when the predicate throws. *)
Lemma std_remove_if_length (buf : list A) :
  length (snd (fst (std_remove_if moved_from pred buf))) = length buf.
Proof.
  unfold std_remove_if.
  destruct (std_find_if pred buf 0) as [ev [first|]]; [|done].
  destruct (decide (first = length buf)); [done|].
  pose proof (remove_if_loop_length (length buf - S first) buf first (S first))
    as Hlen.
  by destruct (remove_if_loop _ _ _ _ _ _) as [[? ?] ?].
Qed.

(** The predicate events of a list, element by element, when the search
    comes to its end. *)
Lemma std_find_if_events (l : list A) (i j : nat) :
  snd (std_find_if pred l i) = Some j ->
  fst (std_find_if pred l i)
  = flat_map (fun x => fst (pred x)) (take (S (j - i)) l)
  /\ (i <= j <= i + length l)%nat.
Proof.
  revert i. induction l as [|x l IH]; intros i; simpl.
  - intros [= <-]. split; [done | lia].
  - destruct (pred x) as [ev [found|]] eqn:Ep; [|done].
    destruct found; simpl.
    + intros [= <-]. rewrite Nat.sub_diag. simpl. rewrite app_nil_r.
      split; [done | lia].
    + specialize (IH (S i)).
      destruct (std_find_if pred l (S i)) as [ev' r]. simpl in *.
      intros ->. destruct (IH eq_refl) as [-> Hj]. split; [|lia].
      replace (S (j - S i)) with (j - i)%nat by lia. done.
Qed.

Lemma move_assign_drop (buf : list A) (first i : nat) :
  (first < i)%nat ->
  drop (S i) (move_assign moved_from buf first i) = drop (S i) buf.
Proof.
  intros Hlt. unfold move_assign.
  destruct (buf !! i), (buf !! first); try done.
  rewrite !drop_insert_lt by lia. done.
Qed.

(** The loop applies the predicate to the elements from [i] on as they were
    on entry: a moved-from element is never examined. *)
Lemma remove_if_loop_events (remaining : nat) (buf : list A)
    (first i f : nat) :
  (first < i)%nat -> (length buf - i <= remaining)%nat ->
  snd (remove_if_loop moved_from pred remaining buf first i) = Some f ->
  fst (fst (remove_if_loop moved_from pred remaining buf first i))
  = flat_map (fun x => fst (pred x)) (drop i buf).
Proof.
  revert buf first i.
  induction remaining as [|remaining IH]; intros buf first i Hlt Hrem.
  - simpl. rewrite drop_ge by lia. done.
  - simpl. destruct (buf !! i) as [x|] eqn:Ei.
    + rewrite (drop_S _ _ _ Ei). simpl.
      destruct (pred x) as [ev [drop_it|]]; [|done].
      destruct drop_it.
      * specialize (IH buf first (S i) ltac:(lia) ltac:(lia)).
        destruct (remove_if_loop _ _ _ _ _ _) as [[? ?] ?]. simpl in *.
        intros Hf. by rewrite (IH Hf).
      * specialize (IH (move_assign moved_from buf first i) (S first) (S i)
                      ltac:(lia)).
        rewrite move_assign_length, move_assign_drop in IH by lia.
        specialize (IH ltac:(lia)).
        destruct (remove_if_loop _ _ _ _ _ _) as [[? ?] ?]. simpl in *.
        intros Hf. by rewrite (IH Hf).
    + apply lookup_ge_None in Ei. rewrite drop_ge by lia. done.
Qed.

(** When [std::remove_if] comes to its end, it has applied the predicate to
    every element, once, in order. *)
Lemma std_remove_if_events (buf : list A) (f : nat) :
  snd (std_remove_if moved_from pred buf) = Some f ->
  fst (fst (std_remove_if moved_from pred buf))
  = flat_map (fun x => fst (pred x)) buf.
Proof.
  unfold std_remove_if.
  pose proof (std_find_if_events buf 0) as Hfind.
  destruct (std_find_if pred buf 0) as [ev [first|]]; [|done].
  destruct (Hfind first eq_refl) as [Hev Hj]. simpl in Hev.
  rewrite Nat.sub_0_r in Hev.
  destruct (decide (first = length buf)) as [->|Hne]; simpl.
  - intros _. rewrite Hev, take_ge by lia. done.
  - pose proof (remove_if_loop_events (length buf - S first) buf first
                  (S first) f ltac:(lia) ltac:(lia)) as Hloop.
    destruct (remove_if_loop _ _ _ _ _ _) as [[ev' buf'] first']. simpl in *.
    intros Hf. rewrite Hev, (Hloop Hf), <- flat_map_app, take_drop. done.
Qed.

(** Whatever way [std::remove_if] ends, its events are events of the
    predicate. *)
Lemma std_find_if_events_Forall (P : E -> Prop) (l : list A) (i : nat) :
  (forall x, Forall P (fst (pred x))) ->
  Forall P (fst (std_find_if pred l i)).
Proof.
  intros HP. revert i. induction l as [|x l IH]; intros i; simpl; [done|].
  pose proof (HP x) as Hx.
  destruct (pred x) as [ev [found|]]; [|done].
  destruct found; [done|].
  specialize (IH (S i)). destruct (std_find_if pred l (S i)) as [ev' r].
  by apply Forall_app.
Qed.

Lemma remove_if_loop_events_Forall (P : E -> Prop) (remaining : nat)
    (buf : list A) (first i : nat) :
  (forall x, Forall P (fst (pred x))) ->
  Forall P (fst (fst (remove_if_loop moved_from pred remaining buf first i))).
Proof.
  intros HP. revert buf first i.
  induction remaining as [|remaining IH]; intros buf first i; simpl; [done|].
  destruct (buf !! i) as [x|]; [|done].
  pose proof (HP x) as Hx.
  destruct (pred x) as [ev [drop_it|]]; [|done].
  destruct drop_it.
  - specialize (IH buf first (S i)).
    destruct (remove_if_loop _ _ _ _ _ _) as [[? ?] ?].
    by apply Forall_app.
  - specialize (IH (move_assign moved_from buf first i) (S first) (S i)).
    destruct (remove_if_loop _ _ _ _ _ _) as [[? ?] ?].
    by apply Forall_app.
Qed.

Lemma std_remove_if_events_Forall (P : E -> Prop) (buf : list A) :
  (forall x, Forall P (fst (pred x))) ->
  Forall P (fst (fst (std_remove_if moved_from pred buf))).
Proof.
  intros HP. unfold std_remove_if.
  pose proof (std_find_if_events_Forall P buf 0 HP) as Hfind.
  destruct (std_find_if pred buf 0) as [ev [first|]]; [|done].
  destruct (decide (first = length buf)); [done|].
  pose proof (remove_if_loop_events_Forall P (length buf - S first) buf first
                (S first) HP) as Hloop.
  destruct (remove_if_loop _ _ _ _ _ _) as [[? ?] ?].
  by apply Forall_app.
Qed.

(** The search throws only on an element on which the predicate throws,
    and it passes only elements on which it does not. *)
Lemma std_find_if_throws (l : list A) (i : nat) :
  snd (std_find_if pred l i) = None -> Exists (throws pred) l.
Proof.
  revert i. induction l as [|x l IH]; intros i; simpl; [done|].
  destruct (pred x) as [ev [found|]] eqn:Ep.
  - destruct found; [done|].
    specialize (IH (S i)). destruct (std_find_if pred l (S i)) as [ev' r].
    intros Hr. apply Exists_cons_tl. by apply IH.
  - intros _. apply Exists_cons_hd. unfold throws. by rewrite Ep.
Qed.

Lemma std_find_if_passes (l : list A) (i j : nat) :
  snd (std_find_if pred l i) = Some j ->
  Forall (fun x => ~ throws pred x) (take (S (j - i)) l).
Proof.
  revert i. induction l as [|x l IH]; intros i; simpl; [done|].
  destruct (pred x) as [ev [found|]] eqn:Ep; [|done].
  assert (Hx : ~ throws pred x) by (unfold throws; by rewrite Ep).
  destruct found; simpl.
  - intros [= <-]. rewrite Nat.sub_diag. simpl. by repeat constructor.
  - specialize (IH (S i)).
    pose proof (std_find_if_events l (S i) j) as Hj.
    destruct (std_find_if pred l (S i)) as [ev' r]. simpl in *.
    intros ->. destruct (Hj eq_refl) as [_ Hle].
    replace (j - i)%nat with (S (j - S i)) by lia.
    constructor; [done | by apply IH].
Qed.

Lemma remove_if_loop_throws (remaining : nat) (buf : list A) (first i : nat) :
  (first < i)%nat ->
  snd (remove_if_loop moved_from pred remaining buf first i) = None ->
  Exists (throws pred) (drop i buf).
Proof.
  revert buf first i.
  induction remaining as [|remaining IH]; intros buf first i Hlt; simpl;
    [done|].
  destruct (buf !! i) as [x|] eqn:Ei; [|done].
  rewrite (drop_S _ _ _ Ei).
  destruct (pred x) as [ev [drop_it|]] eqn:Ep.
  - destruct drop_it.
    + specialize (IH buf first (S i) ltac:(lia)).
      destruct (remove_if_loop _ _ _ _ _ _) as [[? ?] ?]. simpl in *.
      intros Hr. apply Exists_cons_tl. by apply IH.
    + specialize (IH (move_assign moved_from buf first i) (S first) (S i)
                    ltac:(lia)).
      rewrite move_assign_drop in IH by lia.
      destruct (remove_if_loop _ _ _ _ _ _) as [[? ?] ?]. simpl in *.
      intros Hr. apply Exists_cons_tl. by apply IH.
  - intros _. apply Exists_cons_hd. unfold throws. by rewrite Ep.
Qed.

Lemma remove_if_loop_passes (remaining : nat) (buf : list A)
    (first i f : nat) :
  (first < i)%nat -> (length buf - i <= remaining)%nat ->
  snd (remove_if_loop moved_from pred remaining buf first i) = Some f ->
  Forall (fun x => ~ throws pred x) (drop i buf).
Proof.
  revert buf first i.
  induction remaining as [|remaining IH]; intros buf first i Hlt Hrem.
  - simpl. rewrite drop_ge by lia. done.
  - simpl. destruct (buf !! i) as [x|] eqn:Ei.
    + rewrite (drop_S _ _ _ Ei).
      destruct (pred x) as [ev [drop_it|]] eqn:Ep; [|done].
      assert (Hx : ~ throws pred x) by (unfold throws; by rewrite Ep).
      destruct drop_it.
      * specialize (IH buf first (S i) ltac:(lia) ltac:(lia)).
        destruct (remove_if_loop _ _ _ _ _ _) as [[? ?] ?]. simpl in *.
        intros Hf. constructor; [done | by apply IH].
      * specialize (IH (move_assign moved_from buf first i) (S first) (S i)
                      ltac:(lia)).
        rewrite move_assign_length, move_assign_drop in IH by lia.
        specialize (IH ltac:(lia)).
        destruct (remove_if_loop _ _ _ _ _ _) as [[? ?] ?]. simpl in *.
        intros Hf. constructor; [done | by apply IH].
    + apply lookup_ge_None in Ei. rewrite drop_ge by lia. done.
Qed.

(** [std::remove_if] is left by an exception exactly when the predicate
    throws on some element of the container. *)
Lemma std_remove_if_throws (buf : list A) :
  snd (std_remove_if moved_from pred buf) = None
  <-> Exists (throws pred) buf.
Proof.
  assert (Hdrop : forall n, Exists (throws pred) (drop n buf) ->
                    Exists (throws pred) buf).
  { intros n Hn. rewrite <- (take_drop n buf). apply Exists_app. by right. }
  assert (Hsome : forall f, snd (std_remove_if moved_from pred buf) = Some f ->
                    Forall (fun x => ~ throws pred x) buf).
  { intros f. unfold std_remove_if.
    pose proof (std_find_if_passes buf 0) as Hfind.
    pose proof (std_find_if_events buf 0) as Hbound.
    destruct (std_find_if pred buf 0) as [ev [first|]]; [|done].
    specialize (Hfind first eq_refl). destruct (Hbound first eq_refl) as [_ Hj].
    rewrite Nat.sub_0_r in Hfind.
    destruct (decide (first = length buf)) as [->|Hne]; simpl.
    - intros _. by rewrite take_ge in Hfind by lia.
    - pose proof (remove_if_loop_passes (length buf - S first) buf first
                    (S first) f ltac:(lia) ltac:(lia)) as Hloop.
      destruct (remove_if_loop _ _ _ _ _ _) as [[ev' buf'] first'].
      simpl in *. intros Hf. rewrite <- (take_drop (S first) buf).
      apply Forall_app. split; [done | by apply Hloop]. }
  split.
  - unfold std_remove_if.
    pose proof (std_find_if_throws buf 0) as Hfind.
    destruct (std_find_if pred buf 0) as [ev [first|]]; [|by intros _; apply Hfind].
    destruct (decide (first = length buf)); [done|].
    pose proof (remove_if_loop_throws (length buf - S first) buf first
                  (S first) ltac:(lia)) as Hloop.
    destruct (remove_if_loop _ _ _ _ _ _) as [[ev' buf'] first'].
    simpl in *. intros Hr. apply (Hdrop (S first)). by apply Hloop.
  - intros Hex.
    destruct (snd (std_remove_if moved_from pred buf)) as [f|] eqn:Hr; [|done].
    exfalso. specialize (Hsome f eq_refl).
    apply Exists_exists in Hex as (x & Hin & Hx).
    rewrite Forall_forall in Hsome. by apply (Hsome x).
Qed.

End std_remove_if_properties.

(** ** transaction_pool *)

Section transaction_pool_properties.
Import transaction_pool.
Context `{pool_externals}.

(** C9.  [store] on a stopped pool returns at once: neither the
    confirmation handler nor the validation handler is invoked (no handler
    at all is), and the pool, its buffer included, is unchanged. *)
Theorem store_while_stopped (t : transaction)
    (hc : std_function confirm_handler) (hv : validate_handler) (p : pool) :
  stopped_ p = true ->
  store t hc hv p = ([], p, returned)
  /\ confirmations (events_of (store t hc hv p)) = []
  /\ validations (events_of (store t hc hv p)) = []
  /\ buffer_ (pool_of (store t hc hv p)) = buffer_ p.
Proof.
  intros Hs. unfold store, stopped. by rewrite Hs.
Qed.

Lemma confirmations_map_confirm_called (l : list confirm_handler)
    (ec : code) :
  confirmations (map (fun target => confirm_called target ec) l)
  = map (fun target => (target, ec)) l.
Proof. induction l as [|e l IH]; simpl; [done | by f_equal]. Qed.

(** The loop over the entries calls the handlers in buffer order and never
    touches the pool; it returns when every handler holds a target and is
    left by [std::bad_function_call] at the first that holds none. *)
Lemma confirm_each_outcome (entries : pool_buffer) (ec : code) (p : pool) :
  pool_of (confirm_each entries ec p) = p
  /\ (Forall callable entries ->
      confirm_each entries ec p
      = (map (fun target => confirm_called target ec) (targets entries),
         p, returned))
  /\ (~ Forall callable entries ->
      ending_of (confirm_each entries ec p) = bad_function_call)
  /\ ending_of (confirm_each entries ec p) <> undefined_front.
Proof.
  induction entries as [|entry entries IH]; simpl.
  - split; [done|]. split; [done|]. split; [|done].
    intros Hn. by destruct Hn.
  - destruct IH as (Hp & Hall & Hnot & Hdef).
    rewrite Forall_cons. unfold and_then, call_confirm, targets, callable.
    simpl.
    destruct (handle_confirm entry) as [target|] eqn:Hc; simpl.
    + destruct (confirm_each entries ec p) as [[ev p'] e] eqn:Hrest.
      unfold pool_of in Hp. simpl in Hp. subst p'.
      unfold ending_of in Hdef. simpl in Hdef.
      split; [by destruct e|]. split; [|split].
      * intros [_ Hf]. specialize (Hall Hf). by injection Hall as -> ->.
      * intros Hn. unfold ending_of in *. simpl in *.
        assert (He : e = bad_function_call).
        { apply Hnot. intros Hf. apply Hn. split; [by eexists | done]. }
        by subst e.
      * by destruct e.
    + split; [done|]. split; [|done].
      intros [Hx _]. by destruct Hx.
Qed.

(** A running pool that is notified (with [success]) of a reorganization
    whose list of replaced blocks is not empty, and all of whose entries
    hold a handler with a target, ends with an empty buffer after one call
    per entry, each with [blockchain_reorganized].  When some entry holds a
    handler without target, [std::bad_function_call] leaves
    [invalidate_pool] before the buffer is cleared. *)
Lemma reorganize_invalidate_outcome (fork_point : Z)
    (new_blocks replaced_blocks : list block) (p : pool) :
  stopped_ p = false ->
  replaced_blocks <> [] ->
  let r := reorganize success fork_point new_blocks replaced_blocks p in
  (Forall callable (buffer_ p) ->
   ending_of r = returned
   /\ buffer_ (pool_of r) = []
   /\ confirmations (events_of r)
      = map (fun target => (target, blockchain_reorganized))
            (targets (buffer_ p)))
  /\ (~ Forall callable (buffer_ p) ->
      ending_of r = bad_function_call /\ pool_of r = p).
Proof.
  intros Hs Hne r. subst r. unfold reorganize, invalidate_pool, stopped.
  rewrite Hs. simpl.
  rewrite bool_decide_eq_false_2 by done.
  destruct (confirm_each_outcome (buffer_ p) blockchain_reorganized p)
    as (Hp & Hall & Hnot & _).
  unfold and_then. split.
  - intros Hf. rewrite (Hall Hf). simpl. split; [done|]. split; [done|].
    unfold events_of. simpl. rewrite app_nil_r.
    apply confirmations_map_confirm_called.
  - intros Hn. specialize (Hnot Hn).
    destruct (confirm_each (buffer_ p) blockchain_reorganized p)
      as [[ev p'] e].
    unfold pool_of, ending_of in *. simpl in *. subst p' e. done.
Qed.

(** [try_delete_tx] never changes the number of entries of the buffer. *)
Lemma try_delete_tx_size (h : hash_digest) (p : pool) :
  size (pool_of (try_delete_tx h p)) = size p.
Proof.
  unfold try_delete_tx, size, stopped.
  destruct (stopped_ p); [done|].
  pose proof (std_remove_if_length moved_from (match_and_confirm h) (buffer_ p))
    as Hlen.
  by destruct (std_remove_if _ _ _) as [[? ?] ?].
Qed.

(** When [try_delete_tx] returns on a running pool, it has fired the
    confirmation handler of every entry with the given hash, with
    [success], and no other. *)
Lemma try_delete_tx_confirms (h : hash_digest) (p : pool) :
  stopped_ p = false ->
  ending_of (try_delete_tx h p) = returned ->
  confirmations (events_of (try_delete_tx h p))
  = map (fun target => (target, success))
        (targets
           (List.filter (fun entry => bool_decide (hash entry = h))
              (buffer_ p))).
Proof.
  intros Hs. unfold try_delete_tx, stopped. rewrite Hs.
  pose proof (std_remove_if_events moved_from (match_and_confirm h) (buffer_ p))
    as Hev.
  destruct (std_remove_if _ _ _) as [[ev buf] [first|]]; [|done].
  intros _. specialize (Hev first eq_refl).
  unfold events_of. simpl in *. subst ev.
  generalize (buffer_ p) as b.
  induction b as [|e b IH]; [done|].
  simpl. unfold match_and_confirm at 1.
  destruct (bool_decide (hash e = h)); simpl; [|done].
  unfold targets. simpl.
  destruct (handle_confirm e); simpl; [by f_equal | done].
Qed.

End transaction_pool_properties.

(** [store_while_stopped] on a stopped pool that holds one entry. *)
Lemma store_while_stopped_witness :
  transaction_pool.store (H := reference.pool) (reference.payment 8 51 0)
    (Some 4%nat) 5%nat
    (transaction_pool.mk_pool [reference.entry 7 1%nat] 2 true)
  = ([], transaction_pool.mk_pool [reference.entry 7 1%nat] 2 true,
     transaction_pool.returned).
Proof.
  apply (store_while_stopped (H := reference.pool)). reflexivity.
Defined.

(** C4 (the code departs from the claim).  A pool of capacity 2 is
    started and stores the transactions 7 and 8.  A first fork event
    brings a new block that contains transaction 7 and replaces nothing:
    [std::remove_if] moves the entry of 8 to the front and leaves a
    moved-from entry, whose handler has no target, behind it.  The next
    fork event replaces a block: [invalidate_pool] calls the handler of the
    entry of 8 and is then left by [std::bad_function_call] at the
    moved-from entry, before the buffer is cleared.  The buffer still holds
    both slots. *)
Theorem reorganize_throws_on_moved_from_entry :
  let new_block := reference.block_of 2
                     [reference.coinbase 100 [1; 2; 3];
                      reference.payment 7 50 0] in
  let before :=
    transaction_pool.sequence_
      (map (perform (H := reference.pool))
         [call_start;
          call_store (reference.payment 7 50 0) (Some 1%nat) 11%nat;
          call_store (reference.payment 8 50 0) (Some 2%nat) 12%nat;
          call_reorganize success 10 [new_block] []])
      (transaction_pool.create 2) in
  let r := transaction_pool.reorganize (H := reference.pool) success 11
             [reference.coinbase_only] [reference.coinbase_only]
             (transaction_pool.pool_of before) in
  transaction_pool.ending_of before = transaction_pool.returned
  /\ transaction_pool.pool_of before
     = transaction_pool.mk_pool
         [reference.entry 8 2%nat; reference.moved_from_entry 8] 2 false
  /\ transaction_pool.events_of r
     = [transaction_pool.subscribe_reorganize;
        transaction_pool.confirm_called 2%nat blockchain_reorganized]
  /\ transaction_pool.ending_of r = transaction_pool.bad_function_call
  /\ transaction_pool.buffer_ (transaction_pool.pool_of r)
     = [reference.entry 8 2%nat; reference.moved_from_entry 8].
Proof. vm_compute. repeat split; reflexivity. Qed.

(** C3 (the code departs from the claim).  A running pool holds the single
    entry with hash 7; the fork event brings one new block that contains
    the transaction with hash 7 and replaces nothing.  The entry's
    confirmation handler is fired with [success], but the entry is still in
    the buffer afterwards: [std::remove_if] moved nothing and nothing was
    erased. *)
Theorem delete_confirmed_keeps_entry :
  let p := transaction_pool.mk_pool [reference.entry 7 1%nat] 2 false in
  let new_block := reference.block_of 2
                     [reference.coinbase 100 [1; 2; 3]; reference.payment 7 50 0] in
  let r := transaction_pool.reorganize (H := reference.pool) success 10
             [new_block] [] p in
  confirmations (transaction_pool.events_of r) = [(1%nat, success)]
  /\ transaction_pool.buffer_ (transaction_pool.pool_of r)
     = [reference.entry 7 1%nat]
  /\ transaction_pool.tx_exists (transaction_pool.pool_of r) 7 = true
  /\ transaction_pool.ending_of r = transaction_pool.returned.
Proof. vm_compute. repeat split; reflexivity. Qed.

(** ** populate_chain_state *)

Section populate_chain_state_properties.
Import populate_chain_state.
Context `{chain_state.library} `{!fast_chain}.
Variable branch : header_branch.t.
Variable block : bool.

Lemma branch_first_nil : branch_first branch block [].
Proof. constructor. Qed.

Lemma branch_first_app (l1 l2 : list query) :
  branch_first branch block l1 -> branch_first branch block l2 ->
  branch_first branch block (l1 ++ l2).
Proof. intros. by apply Forall_app. Qed.

Lemma branch_first_bind {A B : Type} (m : R A) (f : A -> R B) :
  branch_first branch block (snd m) ->
  (forall a, branch_first branch block (snd (f a))) ->
  branch_first branch block (snd (rbind m f)).
Proof.
  intros Hm Hf. unfold rbind. destruct m as [a log]. specialize (Hf a).
  destruct (f a) as [b log']. simpl in *. by apply branch_first_app.
Qed.

(** The getters try the branch first and ask the reader only for what the
    branch does not cover; the result is the looked-up value. *)
Lemma get_lookup (k : kind) (height : Z) :
  fst (get k height branch block) = lookup branch block k height
  /\ branch_first branch block (snd (get k height branch block)).
Proof.
  unfold get, lookup, ask.
  destruct (branch_get k branch height) eqn:Eb; simpl.
  - split; [done | apply branch_first_nil].
  - split; [done|]. constructor; [done | constructor].
Qed.

Lemma fill_branch_first (k : kind) (n i : nat) (height : Z) (ordered : list Z) :
  branch_first branch block (snd (fill k branch block n i height ordered)).
Proof.
  revert i height ordered.
  induction n as [|n IH]; intros i height ordered; simpl.
  - apply branch_first_nil.
  - apply branch_first_bind; [apply get_lookup|].
    intros [x|]; [apply IH | apply branch_first_nil].
Qed.

Lemma wrap64_succ (height : Z) (j : nat) :
  wrap64 (wrap64 (height + 1) + 1 + Z.of_nat j)
  = wrap64 (height + 1 + Z.of_nat (S j)).
Proof.
  unfold wrap64.
  rewrite <- Z.add_assoc, Zplus_mod_idemp_l. f_equal. lia.
Qed.

Lemma heights_step (height : Z) (n : nat) :
  map (fun j => wrap64 (height + 1 + Z.of_nat j)) (seq 0 (S n))
  = wrap64 (height + 1)
    :: map (fun j => wrap64 (wrap64 (height + 1) + 1 + Z.of_nat j)) (seq 0 n).
Proof.
  simpl. f_equal; [f_equal; lia|].
  rewrite <- seq_shift, map_map. apply map_ext. intros j.
  by rewrite wrap64_succ.
Qed.

Lemma fst_rbind {A B : Type} (m : R A) (f : A -> R B) :
  fst (rbind m f) = fst (f (fst m)).
Proof. unfold rbind. destruct m as [a log]. simpl. by destruct (f a). Qed.

Lemma fill_step (k : kind) (n i : nat) (height : Z) (ordered : list Z) :
  fst (fill k branch block (S n) i height ordered)
  = match lookup branch block k (wrap64 (height + 1)) with
    | None => (false, ordered)
    | Some x =>
        fst (fill k branch block n (S i) (wrap64 (height + 1))
               (<[i:=x]> ordered))
    end.
Proof.
  simpl. unfold mbind, R_bind. rewrite fst_rbind.
  rewrite (proj1 (get_lookup k (wrap64 (height + 1)))).
  by destruct (lookup branch block k (wrap64 (height + 1))).
Qed.

(** When every height of the loop can be looked up, [fill] runs to its end
    and has written the values, in order, from index [i] on. *)
Lemma fill_Some (k : kind) (n i : nat) (height : Z) (ordered vals : list Z) :
  mapM (lookup branch block k)
       (map (fun j => wrap64 (height + 1 + Z.of_nat j)) (seq 0 n)) = Some vals ->
  fst (fill k branch block n i height ordered)
  = (true, list_inserts i vals ordered).
Proof.
  revert i height ordered vals.
  induction n as [|n IH]; intros i height ordered vals Hm.
  - simpl in Hm. by injection Hm as <-.
  - rewrite heights_step in Hm. simpl in Hm. rewrite fill_step.
    destruct (lookup branch block k (wrap64 (height + 1))) as [x|] eqn:El;
      [|discriminate].
    simpl in Hm.
    destruct (mapM _ _) as [vals'|] eqn:Em; [|discriminate].
    injection Hm as <-.
    rewrite (IH (S i) (wrap64 (height + 1)) (<[i:=x]> ordered) vals' Em).
    simpl. f_equal. symmetry. apply list_insert_inserts_lt. lia.
Qed.

(** When some height of the loop cannot be looked up, [fill] fails. *)
Lemma fill_None (k : kind) (n i : nat) (height : Z) (ordered : list Z) :
  mapM (lookup branch block k)
       (map (fun j => wrap64 (height + 1 + Z.of_nat j)) (seq 0 n)) = None ->
  fst (fst (fill k branch block n i height ordered)) = false.
Proof.
  revert i height ordered.
  induction n as [|n IH]; intros i height ordered Hm.
  - simpl in Hm. discriminate.
  - rewrite heights_step in Hm. simpl in Hm. rewrite fill_step.
    destruct (lookup branch block k (wrap64 (height + 1))) as [x|] eqn:El;
      [|done].
    simpl in Hm.
    destruct (mapM _ _) as [vals'|] eqn:Em; [discriminate|].
    by apply IH.
Qed.

Lemma range_heights_loop (r : chain_state.range) :
  map (fun j => wrap64 (wrap64 (chain_state.high r - chain_state.count r)
                        + 1 + Z.of_nat j))
      (seq 0 (Z.to_nat (chain_state.count r)))
  = range_heights r.
Proof.
  unfold range_heights. apply map_ext. intros j. unfold wrap64.
  rewrite <- !Z.add_assoc, Zplus_mod_idemp_l. done.
Qed.

Lemma populate_range_Some (k : kind) (r : chain_state.range)
    (ordered vals : list Z) :
  mapM (lookup branch block k) (range_heights r) = Some vals ->
  fst (populate_range k r ordered branch block) = (true, vals).
Proof.
  intros Hm. unfold populate_range.
  rewrite length_resize.
  rewrite <- range_heights_loop in Hm.
  rewrite (fill_Some _ _ _ _ _ vals Hm). f_equal.
  apply length_mapM in Hm. rewrite length_map, length_seq in Hm.
  rewrite <- (app_nil_r vals) at 1.
  apply list_inserts_0_l. by rewrite length_resize.
Qed.

Lemma populate_range_None (k : kind) (r : chain_state.range)
    (ordered : list Z) :
  mapM (lookup branch block k) (range_heights r) = None ->
  fst (fst (populate_range k r ordered branch block)) = false.
Proof.
  intros Hm. unfold populate_range. rewrite length_resize.
  rewrite <- range_heights_loop in Hm. by apply fill_None.
Qed.

Lemma populate_range_branch_first (k : kind) (r : chain_state.range)
    (ordered : list Z) :
  branch_first branch block (snd (populate_range k r ordered branch block)).
Proof. apply fill_branch_first. Qed.

(** *** The four populating steps *)

Lemma populate_bits_result (d : chain_state.data) (m : chain_state.map) :
  match mapM (lookup branch block k_bits)
          (range_heights (chain_state.map_bits m)),
        lookup branch block k_bits (chain_state.map_bits_self m) with
  | Some vals, Some x =>
      fst (populate_bits d m branch block)
      = (true, chain_state.set_bits_self
                 (chain_state.set_bits_ordered d vals) x)
  | _, _ => fst (fst (populate_bits d m branch block)) = false
  end.
Proof.
  unfold populate_bits, get_bits, mbind, R_bind. rewrite fst_rbind.
  destruct (mapM _ _) as [vals|] eqn:Em.
  - rewrite (populate_range_Some _ _ _ _ Em). simpl. rewrite fst_rbind.
    rewrite (proj1 (get_lookup _ _)).
    by destruct (lookup _ _ _ _).
  - pose proof (populate_range_None _ _ (chain_state.bits_ordered d) Em) as Hn.
    destruct (fst (populate_range _ _ _ _ _)) as [ok bits]. simpl in Hn.
    by subst ok.
Qed.

Lemma populate_versions_result (d : chain_state.data) (m : chain_state.map) :
  match mapM (lookup branch block k_version)
          (range_heights (chain_state.map_version m)),
        lookup branch block k_version (chain_state.map_version_self m) with
  | Some vals, Some x =>
      fst (populate_versions d m branch block)
      = (true, chain_state.set_version_self
                 (chain_state.set_version_ordered d vals) x)
  | _, _ => fst (fst (populate_versions d m branch block)) = false
  end.
Proof.
  unfold populate_versions, get_version, mbind, R_bind. rewrite fst_rbind.
  destruct (mapM _ _) as [vals|] eqn:Em.
  - rewrite (populate_range_Some _ _ _ _ Em). simpl. rewrite fst_rbind.
    rewrite (proj1 (get_lookup _ _)).
    by destruct (lookup _ _ _ _).
  - pose proof (populate_range_None _ _ (chain_state.version_ordered d) Em)
      as Hn.
    destruct (fst (populate_range _ _ _ _ _)) as [ok versions]. simpl in Hn.
    by subst ok.
Qed.

Lemma populate_timestamps_result (d : chain_state.data) (m : chain_state.map) :
  match mapM (lookup branch block k_timestamp)
          (range_heights (chain_state.map_timestamp m)),
        retarget_value branch block m,
        lookup branch block k_timestamp (chain_state.map_timestamp_self m) with
  | Some vals, Some rt, Some x =>
      fst (populate_timestamps d m branch block)
      = (true, chain_state.set_timestamp_self
                 (chain_state.set_timestamp_retarget
                    (chain_state.set_timestamp_ordered d vals) rt) x)
  | _, _, _ => fst (fst (populate_timestamps d m branch block)) = false
  end.
Proof.
  unfold populate_timestamps, get_timestamp, retarget_value, mbind, R_bind.
  cbv zeta. rewrite fst_rbind.
  destruct (mapM _ _) as [vals|] eqn:Em.
  - rewrite (populate_range_Some _ _ _ _ Em). simpl. rewrite fst_rbind.
    destruct (decide (chain_state.map_timestamp_retarget m
                      = chain_state.unrequested)) as [Er|Er].
    + rewrite (bool_decide_eq_true_2 _ Er).
      rewrite bool_decide_eq_false_2 by (intros Hc; by apply Hc).
      simpl. rewrite fst_rbind, (proj1 (get_lookup _ _)).
      by destruct (lookup _ _ _ (chain_state.map_timestamp_self m)).
    + rewrite (bool_decide_eq_false_2 _ Er).
      rewrite (bool_decide_eq_true_2 _ Er).
      rewrite fst_rbind, (proj1 (get_lookup _ _)).
      destruct (lookup _ _ _ (chain_state.map_timestamp_retarget m)); simpl;
        [|done].
      rewrite fst_rbind, (proj1 (get_lookup _ _)).
      by destruct (lookup _ _ _ (chain_state.map_timestamp_self m)).
  - pose proof (populate_range_None _ _
                  (chain_state.timestamp_ordered
                     (chain_state.set_timestamp_retarget d unspecified_timestamp))
                  Em) as Hn.
    destruct (fst (populate_range _ _ _ _ _)) as [ok timestamps]. simpl in Hn.
    by subst ok.
Qed.

Lemma populate_checkpoint_result (d : chain_state.data) (m : chain_state.map) :
  match collision_value branch block m with
  | Some x =>
      fst (populate_checkpoint d m branch block)
      = (true, chain_state.set_allow_collisions_hash d x)
  | None => fst (fst (populate_checkpoint d m branch block)) = false
  end.
Proof.
  unfold populate_checkpoint, get_block_hash, collision_value, mbind, R_bind.
  destruct (bool_decide _); [done|].
  rewrite fst_rbind, (proj1 (get_lookup _ _)).
  by destruct (lookup _ _ _ _).
Qed.

(** *** populate_all *)

Lemma and_then_fst (a : R (bool * chain_state.data))
    (b : chain_state.data -> R (bool * chain_state.data)) :
  fst (and_then a b)
  = if fst (fst a) then fst (b (snd (fst a))) else (false, snd (fst a)).
Proof.
  unfold and_then. rewrite fst_rbind.
  destruct (fst a) as [ok d]. by destruct ok.
Qed.

Lemma and_then_branch_first (a : R (bool * chain_state.data))
    (b : chain_state.data -> R (bool * chain_state.data)) :
  branch_first branch block (snd a) ->
  (forall d, branch_first branch block (snd (b d))) ->
  branch_first branch block (snd (and_then a b)).
Proof.
  intros Ha Hb. apply branch_first_bind; [done|].
  intros [ok d]. destruct ok; [apply Hb | apply branch_first_nil].
Qed.

Lemma get_branch_first (k : kind) (height : Z) :
  branch_first branch block (snd (get k height branch block)).
Proof. apply get_lookup. Qed.

Lemma populate_all_branch_first (p : t) (d : chain_state.data) :
  branch_first branch block (snd (populate_all p d branch block)).
Proof.
  unfold populate_all, populate_bits, populate_versions, populate_timestamps,
    populate_checkpoint, get_bits, get_version, get_timestamp, get_block_hash,
    mbind, R_bind.
  cbv zeta.
  repeat first
    [ apply branch_first_nil
    | apply get_branch_first
    | apply populate_range_branch_first
    | apply and_then_branch_first; [|intros ?]
    | apply branch_first_bind; [|intros ?]
    | match goal with
      | |- context [let '(_, _) := ?x in _] => destruct x
      | |- context [match ?x with Some _ => _ | None => _ end] => destruct x
      | |- context [if ?c then _ else _] => destruct c
      end ].
Qed.

Lemma available_range (k : kind) (hs : list Z) :
  Forall (available branch block) (map (pair k) hs)
  <-> is_Some (mapM (lookup branch block k) hs).
Proof.
  induction hs as [|h hs IH]; simpl.
  - split; [by eexists | constructor].
  - rewrite Forall_cons, IH. unfold available. simpl.
    destruct (lookup branch block k h) as [x|]; simpl.
    + destruct (mapM _ hs); simpl; split;
        [ intros _; by eexists | done | intros [_ [? ?]]; done
        | intros [? ?]; done ].
    + split; [intros [[? ?] _]; done | intros [? ?]; done].
Qed.

Lemma Forall_if_requested {A : Type} (P : A -> Prop) (c : bool) (a : A) :
  Forall P (if c then [] else [a]) <-> (if c then True else P a).
Proof. destruct c; [apply Forall_nil | apply Forall_singleton]. Qed.

Lemma mapM_Some_map {A B : Type} (f : A -> option B) (l : list A)
    (vals : list B) :
  mapM f l = Some vals -> map Some vals = map f l.
Proof.
  revert vals. induction l as [|a l IH]; intros vals Hm; simpl in *.
  - by injection Hm as <-.
  - destruct (f a) as [y|]; [|done]. simpl in Hm.
    destruct (mapM f l) as [ys|]; [|done].
    injection Hm as <-. simpl. f_equal. by apply IH.
Qed.

Lemma retarget_value_None (m : chain_state.map) :
  retarget_value branch block m = None ->
  bool_decide (chain_state.map_timestamp_retarget m = chain_state.unrequested)
  = false
  /\ lookup branch block k_timestamp (chain_state.map_timestamp_retarget m)
     = None.
Proof. unfold retarget_value. by destruct (bool_decide _). Qed.

Lemma collision_value_None (m : chain_state.map) :
  collision_value branch block m = None ->
  bool_decide (chain_state.map_allow_collisions_height m
               = chain_state.unrequested) = false
  /\ lookup branch block k_block_hash
       (chain_state.map_allow_collisions_height m) = None.
Proof. unfold collision_value. by destruct (bool_decide _). Qed.

(** A step failed: the outcome is [false] and one of the lookups is
    [None]. *)
Ltac failed_step E :=
  rewrite E; split;
  [ split; [done | intros ?; destruct_and?; exfalso; by eapply is_Some_None]
  | done ].

(** The populated data in closed form: every step succeeded exactly when
    every required attribute could be looked up. *)
Lemma populate_all_result (p : t) (d : chain_state.data) :
  let m := chain_state.get_map (chain_state.height d)
             (checkpoints_ p) (forks_ p) in
  (fst (fst (populate_all p d branch block)) = true
   <-> Forall (available branch block) (required m))
  /\ (fst (fst (populate_all p d branch block)) = true ->
      complete_data m branch block (snd (fst (populate_all p d branch block)))
      /\ chain_state.height (snd (fst (populate_all p d branch block)))
         = chain_state.height d
      /\ chain_state.hash (snd (fst (populate_all p d branch block)))
         = chain_state.hash d).
Proof.
  intros m. unfold populate_all. fold m.
  unfold required, complete_data.
  rewrite !Forall_app, !available_range, !Forall_singleton,
    !Forall_if_requested.
  unfold available. simpl fst. simpl snd.
  rewrite !and_then_fst.
  pose proof (populate_bits_result d m) as Hb.
  destruct (mapM (lookup branch block k_bits) _) as [bs|] eqn:Ebs;
    [|failed_step Hb].
  destruct (lookup branch block k_bits (chain_state.map_bits_self m))
    as [b|] eqn:Eb; [|failed_step Hb].
  rewrite Hb. simpl fst. simpl snd. cbv iota.
  set (d1 := chain_state.set_bits_self (chain_state.set_bits_ordered d bs) b).
  pose proof (populate_versions_result d1 m) as Hv.
  destruct (mapM (lookup branch block k_version) _) as [vs|] eqn:Evs;
    [|failed_step Hv].
  destruct (lookup branch block k_version (chain_state.map_version_self m))
    as [v|] eqn:Ev; [|failed_step Hv].
  rewrite Hv. simpl fst. simpl snd. cbv iota.
  set (d2 := chain_state.set_version_self
               (chain_state.set_version_ordered d1 vs) v).
  pose proof (populate_timestamps_result d2 m) as Ht.
  destruct (mapM (lookup branch block k_timestamp) _) as [ts|] eqn:Ets;
    [|failed_step Ht].
  destruct (retarget_value branch block m) as [rt|] eqn:Hrt;
    [|apply retarget_value_None in Hrt as [Hrb Hrl]; rewrite Hrb, Hrl;
      failed_step Ht].
  destruct (lookup branch block k_timestamp (chain_state.map_timestamp_self m))
    as [x|] eqn:Ex; [|failed_step Ht].
  rewrite Ht. simpl fst. simpl snd. cbv iota.
  set (d3 := chain_state.set_timestamp_self
               (chain_state.set_timestamp_retarget
                  (chain_state.set_timestamp_ordered d2 ts) rt) x).
  pose proof (populate_checkpoint_result d3 m) as Hc.
  destruct (collision_value branch block m) as [ch|] eqn:Hch;
    [|apply collision_value_None in Hch as [Hcb Hcl]; rewrite Hcb, Hcl;
      failed_step Hc].
  rewrite Hc. simpl.
  unfold retarget_value in Hrt. unfold collision_value in Hch.
  split; [split; [intros _ | done] | intros _].
  - repeat split; try (by eexists).
    + destruct (bool_decide _); [done | by eexists].
    + destruct (bool_decide (chain_state.map_allow_collisions_height m = _));
        [done | by eexists].
  - repeat split; try done; try (by apply mapM_Some_map).
    + destruct (bool_decide _); [by injection Hrt | by symmetry].
    + destruct (bool_decide (chain_state.map_allow_collisions_height m = _));
        [by injection Hch | by symmetry].
Qed.

End populate_chain_state_properties.

Section populate_branch_properties.
Import populate_chain_state.
Context `{chain_state.library} `{!fast_chain}.

Lemma top_None (branch : header_branch.t) :
  header_branch.top branch = None <-> header_branch.empty branch = true.
Proof.
  unfold header_branch.top, header_branch.empty.
  rewrite last_None, bool_decide_eq_true. done.
Qed.

Lemma not_all_available (branch : header_branch.t) (block : bool)
    (l : list (kind * Z)) :
  ~ Forall (available branch block) l
  <-> exists a, In a l /\ ~ available branch block a.
Proof.
  split.
  - intros Hn.
    assert (Hdec : forall a, Decision (available branch block a))
      by (intros a; unfold available; apply _).
    apply (not_Forall_Exists _) in Hn.
    apply Exists_exists in Hn as (a & Hin & Ha).
    exists a. split; [by apply list_elem_of_In | done].
  - intros (a & Hin & Ha) Hall.
    rewrite Forall_forall in Hall. apply Ha, Hall. by apply list_elem_of_In.
Qed.

(** Population for a branch on the path that derives the state from
    the headers: when it returns no state, what it asks the reader, and
    what a returned state is. *)
Lemma populate_branch_derivation (p : t) (branch : header_branch.t) :
  let m := chain_state.get_map (header_branch.top_height branch)
             (checkpoints_ p) (forks_ p) in
  (header_branch.empty branch = false ->
   header_branch.top_parent branch ≫= header_branch.validation_state = None ->
   fst (populate p branch) = None
   <-> exists a, In a (required m) /\ ~ available branch false a)
  /\ branch_first branch false (snd (populate p branch))
  /\ (forall st, fst (populate p branch) = Some st ->
        (exists parent_state top,
            header_branch.top_parent branch
              ≫= header_branch.validation_state = Some parent_state
            /\ header_branch.top branch = Some top
            /\ st = chain_state.promote parent_state
                      (header_branch.entry_header top))
        \/ (exists d,
              st = chain_state.make d (checkpoints_ p) (forks_ p)
                     (stale_seconds_ p)
              /\ complete_data m branch false d
              /\ chain_state.height d = header_branch.top_height branch)).
Proof.
  intros m. unfold populate.
  destruct (header_branch.top branch) as [top_header|] eqn:Etop.
  2:{ apply top_None in Etop.
      split; [intros Hne; congruence|].
      split; [apply branch_first_nil | intros st Hst; discriminate]. }
  destruct (header_branch.top_parent branch
              ≫= header_branch.validation_state) as [parent_state|] eqn:Epar.
  { split; [intros _ Hn; discriminate|].
    split; [apply branch_first_nil|].
    intros st Hst. simpl in Hst. injection Hst as <-.
    left. by exists parent_state, top_header. }
  set (d0 := chain_state.set_height
               (chain_state.set_hash chain_state.default_data
                  (header_hash (header_branch.entry_header top_header)))
               (header_branch.top_height branch)).
  pose proof (populate_all_result branch false p d0) as [Hok Hdata].
  change (chain_state.height d0) with (header_branch.top_height branch)
    in Hok, Hdata.
  fold m in Hok, Hdata.
  unfold mbind, R_bind. rewrite fst_rbind.
  split; [|split].
  - intros _ _. rewrite <- not_all_available, <- Hok.
    destruct (fst (populate_all p d0 branch false)) as [ok d'].
    simpl. destruct ok; simpl; split; (done || congruence).
  - apply branch_first_bind; [apply populate_all_branch_first|].
    intros [ok d']. destruct ok; apply branch_first_nil.
  - intros st Hst. right.
    destruct (fst (populate_all p d0 branch false)) as [ok d'].
    simpl in *. destruct ok; simpl in Hst; [|discriminate].
    injection Hst as <-. exists d'.
    destruct (Hdata eq_refl) as (Hc & Hh & _). done.
Qed.

(** C7, as amended.  For a branch that is not empty and whose top header's
    parent carries no cached state, population returns no state exactly
    when some attribute required by the chain-state map is available
    neither from the branch nor from the fast-chain reader.  In every case
    the reader is consulted only for heights the branch does not cover, and
    a returned state is either the promotion of the parent's cached state
    or built from data in which every member the map asks for is
    populated: no partial state is returned.  When the parent of the top
    header carries a cached state, the state returned is the promotion of
    that state to the top header, and the reader is not asked at all; for
    an empty branch no state is returned and the reader is not asked. *)
Theorem populate_branch_state (p : t) (branch : header_branch.t) :
  let m := chain_state.get_map (header_branch.top_height branch)
             (checkpoints_ p) (forks_ p) in
  (header_branch.empty branch = false ->
   header_branch.top_parent branch ≫= header_branch.validation_state = None ->
   fst (populate p branch) = None
   <-> exists a, In a (required m) /\ ~ available branch false a)
  /\ branch_first branch false (snd (populate p branch))
  /\ (forall st, fst (populate p branch) = Some st ->
        (exists parent_state top,
            header_branch.top_parent branch
              ≫= header_branch.validation_state = Some parent_state
            /\ header_branch.top branch = Some top
            /\ st = chain_state.promote parent_state
                      (header_branch.entry_header top))
        \/ (exists d,
              st = chain_state.make d (checkpoints_ p) (forks_ p)
                     (stale_seconds_ p)
              /\ complete_data m branch false d
              /\ chain_state.height d = header_branch.top_height branch))
  /\ (forall parent_state top,
        header_branch.top branch = Some top ->
        header_branch.top_parent branch ≫= header_branch.validation_state
        = Some parent_state ->
        populate p branch
        = (Some (chain_state.promote parent_state
                   (header_branch.entry_header top)), []))
  /\ (header_branch.empty branch = true -> populate p branch = (None, [])).
Proof.
  intros m.
  destruct (populate_branch_derivation p branch) as (Hnone & Hfirst & Hstate).
  split; [exact Hnone|]. split; [exact Hfirst|]. split; [exact Hstate|].
  unfold populate. split.
  - intros parent_state top Htop Hparent. by rewrite Htop, Hparent.
  - intros Hempty. apply top_None in Hempty. by rewrite Hempty.
Qed.

End populate_branch_properties.

(** [populate_branch_state] on the reference environment: the branch
    [reference.branch_above_3] over the four indexed headers, where every
    required attribute is found and a complete state is returned. *)
Lemma populate_branch_state_witness :
  (fst (populate_chain_state.populate (H := reference.chain_states)
          (H0 := reference.reader reference.indexed_chain false)
          reference.populator reference.branch_above_3) = None
   <-> exists a,
         In a (required (reference.small_map 5))
         /\ ~ available (H := reference.chain_states)
                (H0 := reference.reader reference.indexed_chain false)
                reference.branch_above_3 false a).
Proof.
  apply (populate_branch_state (H := reference.chain_states)
           (H0 := reference.reader reference.indexed_chain false)
           reference.populator reference.branch_above_3);
    reflexivity.
Defined.

(** The state returned on that branch: bits of height 4, versions of
    heights 3 and 4 (the first from the reader, the second from the
    branch), timestamps of heights 2 to 4. *)
Example populate_branch_example :
  populate_chain_state.populate (H := reference.chain_states)
    (H0 := reference.reader reference.indexed_chain false)
    reference.populator reference.branch_above_3
  = (Some (chain_state.mk_data 5 1005 0 486604799 [486604799]
             2 [2; 2] 600 populate_chain_state.unspecified_timestamp
             [300; 400; 500]),
     [populate_chain_state.mk_query populate_chain_state.k_version 3 false;
      populate_chain_state.mk_query populate_chain_state.k_timestamp 2 false;
      populate_chain_state.mk_query populate_chain_state.k_timestamp 3 false]).
Proof. vm_compute. reflexivity. Qed.

(** C7, counterexample to the claim as stated.  The reader knows no header
    at all, so the version of height 3, which the map for height 5
    requires and the branch (heights 4 and 5) does not cover, is available
    from neither; but the parent of the top header carries a cached state,
    and population returns the promoted state instead of none. *)
Lemma populate_promotes_without_lookup :
  let branch := reference.branch_with_parent_state in
  let chain := reference.reader [] false in
  (exists a,
      In a (required (reference.small_map
                        (header_branch.top_height branch)))
      /\ ~ available (H := reference.chain_states) (H0 := chain)
             branch false a)
  /\ exists st,
       fst (populate_chain_state.populate (H := reference.chain_states)
              (H0 := chain) reference.populator branch) = Some st.
Proof.
  intros branch chain. split.
  - exists (populate_chain_state.k_version, 3). split.
    + vm_compute. tauto.
    + intros [x Hx]. vm_compute in Hx. discriminate.
  - eexists. vm_compute. reflexivity.
Qed.

(** ** populate_block: the buckets *)

Section populate_block_properties.
Import populate_block.
Context `{base_library} `{chain_state.library} `{!fast_chain}.

Lemma count_calls_app (f : call -> bool) (l1 l2 : list call) :
  count_calls f (l1 ++ l2) = (count_calls f l1 + count_calls f l2)%nat.
Proof. unfold count_calls. by rewrite List.filter_app, length_app. Qed.

Lemma count_calls_cons (f : call -> bool) (c : call) (l : list call) :
  count_calls f (c :: l)
  = ((if f c then 1 else 0) + count_calls f l)%nat.
Proof. unfold count_calls. simpl. by destruct (f c). Qed.

(** [q mod B = b] says that [q] is [b] plus a multiple of [B]. *)
Lemma mod_eq_iff_sub (q b B : Z) :
  0 < B -> 0 <= b < B -> (q mod B = b <-> (q - b) mod B = 0).
Proof.
  intros HB Hb. split.
  - intros Hq. rewrite Zminus_mod, Hq, (Z.mod_small b B) by lia.
    by rewrite Z.sub_diag.
  - intros Hz. apply Z.mod_divide in Hz as [k Hk]; [|lia].
    replace q with (b + k * B) by lia.
    rewrite Z.mod_add by lia. apply Z.mod_small. lia.
Qed.

(** *** The per-input pass *)

Lemma inputs_pass_tx_final (ins : list input) (fork_height bucket buckets s : Z) :
  snd (inputs_pass_tx ins fork_height bucket buckets s)
  = s + Z.of_nat (length ins).
Proof.
  revert s. induction ins as [|i ins IH]; intros s; simpl; [lia|].
  specialize (IH (s + 1)).
  destruct (inputs_pass_tx ins fork_height bucket buckets (s + 1)) as [calls final].
  simpl in IH. destruct (negb _); simpl; lia.
Qed.

(** Case analysis on every integer comparison of the goal. *)
Ltac zbool :=
  repeat match goal with
         | |- context [?a <=? ?b] => destruct (Z.leb_spec a b)
         | |- context [?a <? ?b] => destruct (Z.ltb_spec a b)
         | |- context [?a =? ?b] => destruct (Z.eqb_spec a b)
         end;
  simpl; try done; try lia.

Lemma inputs_pass_tx_count (ins : list input)
    (fork_height bucket buckets s p : Z) :
  count_calls (on_input p)
    (fst (inputs_pass_tx ins fork_height bucket buckets s))
  = if (s <=? p) && (p <? s + Z.of_nat (length ins))
       && (p mod buckets =? bucket)
    then 1%nat else 0%nat.
Proof.
  revert s. induction ins as [|i ins IH]; intros s.
  - simpl. zbool.
  - simpl inputs_pass_tx. specialize (IH (s + 1)).
    destruct (inputs_pass_tx ins fork_height bucket buckets (s + 1))
      as [calls final].
    simpl fst in *. simpl length. rewrite Nat2Z.inj_succ.
    destruct (Z.eqb_spec (s mod buckets) bucket) as [Hm|Hm]; simpl negb;
      cbv iota; simpl fst.
    + rewrite count_calls_cons, IH. simpl on_input. zbool.
      all: assert (s = p) by lia; subst; exfalso; congruence.
    + rewrite IH. zbool.
      all: assert (s = p) by lia; subst; exfalso; congruence.
Qed.

Lemma inputs_pass_count (txs : list transaction)
    (fork_height bucket buckets s p : Z) :
  count_calls (on_input p) (inputs_pass txs fork_height bucket buckets s)
  = if (s <=? p) && (p <? s + Z.of_nat (length (flat_map inputs txs)))
       && (p mod buckets =? bucket)
    then 1%nat else 0%nat.
Proof.
  revert s. induction txs as [|tx txs IH]; intros s.
  - simpl. zbool.
  - simpl inputs_pass.
    pose proof (inputs_pass_tx_count (inputs tx) fork_height bucket buckets s p)
      as Hc.
    pose proof (inputs_pass_tx_final (inputs tx) fork_height bucket buckets s)
      as Hf.
    destruct (inputs_pass_tx (inputs tx) fork_height bucket buckets s)
      as [calls final].
    simpl in Hc, Hf. subst final.
    rewrite count_calls_app, Hc, IH. simpl flat_map.
    rewrite length_app, Nat2Z.inj_add. zbool.
Qed.

Lemma inputs_pass_no_transaction (txs : list transaction)
    (fork_height bucket buckets s q : Z) :
  count_calls (on_transaction q)
    (inputs_pass txs fork_height bucket buckets s) = 0%nat.
Proof.
  revert s. induction txs as [|tx txs IH]; intros s; [done|].
  simpl inputs_pass.
  assert (Htx : forall ins s',
             count_calls (on_transaction q)
               (fst (inputs_pass_tx ins fork_height bucket buckets s')) = 0%nat).
  { induction ins as [|i ins IHi]; intros s'; [done|].
    simpl. specialize (IHi (s' + 1)).
    destruct (inputs_pass_tx ins fork_height bucket buckets (s' + 1)).
    by destruct (negb _). }
  specialize (Htx (inputs tx) s).
  destruct (inputs_pass_tx (inputs tx) fork_height bucket buckets s).
  simpl in Htx. by rewrite count_calls_app, Htx, IH.
Qed.

(** *** The per-transaction pass *)

Lemma stride_step (pos B q : Z) :
  0 < B -> q <> pos ->
  (pos <= q /\ (q - pos) mod B = 0)
  <-> (pos + B <= q /\ (q - (pos + B)) mod B = 0).
Proof.
  intros HB Hne.
  replace (q - (pos + B)) with (q - pos + (-1) * B) by lia.
  rewrite Z.mod_add by lia.
  split; intros [Hle Hm].
  - split; [|done]. apply Z.mod_divide in Hm as [k Hk]; [|lia].
    destruct (Z_le_gt_dec k 0) as [Hk0|Hk1].
    + assert (k * B <= 0) by nia. lia.
    + assert (1 * B <= k * B) by (apply Z.mul_le_mono_pos_r; lia). lia.
  - split; [lia | done].
Qed.

Lemma transactions_pass_count (fuel : nat) (txs : list transaction)
    (forks fork_height pos B : Z) :
  0 < B -> 0 <= pos ->
  Z.of_nat (length txs) <= max_uint64 ->
  Z.max 0 (Z.of_nat (length txs) - pos) < Z.of_nat fuel ->
  exists calls,
    transactions_pass fuel txs forks fork_height pos B = Some calls
    /\ (forall q,
          count_calls (on_transaction q) calls
          = (if (pos <=? q) && (q <? Z.of_nat (length txs))
                && ((q - pos) mod B =? 0)
             then 1%nat else 0%nat))
    /\ forall p, count_calls (on_input p) calls = 0%nat.
Proof.
  intros HB. revert pos.
  induction fuel as [|fuel IH]; intros pos Hpos Hsize Hfuel; [lia|].
  simpl transactions_pass.
  destruct (Z.ltb_spec pos (Z.of_nat (length txs))) as [Hlt|Hge].
  - destruct (IH (ceiling_add pos B)) as (rest & Hrest & Hcount & Hin).
    + unfold ceiling_add. destruct (_ >? _); unfold max_uint64; lia.
    + done.
    + unfold ceiling_add. destruct (Z.gtb_spec (pos + B) max_uint64); lia.
    + rewrite Hrest. simpl. eexists. split; [done|]. split.
      * intros q. rewrite count_calls_cons, Hcount. simpl on_transaction.
        destruct (Z.eqb_spec pos q) as [->|Hne].
        { rewrite Z.sub_diag, Z.mod_0_l by lia.
          unfold ceiling_add. destruct (Z.gtb_spec (q + B) max_uint64); zbool. }
        pose proof (stride_step pos B q HB ltac:(congruence)) as Hstep.
        unfold ceiling_add.
        destruct (Z.gtb_spec (pos + B) max_uint64) as [Hsat|Hnosat].
        -- zbool. all: exfalso; lia.
        -- zbool. all: exfalso; lia.
      * intros p. by rewrite count_calls_cons, Hin.
  - exists []. split; [done|]. split; [|done]. intros q. zbool.
Qed.

(** A position from 1 on lies on the stride of a bucket exactly when it is
    congruent to the bucket. *)
Lemma first_position (bucket B q : Z) :
  0 < B -> 0 <= bucket < B -> 1 <= q ->
  let first := if bucket =? 0 then B else bucket in
  (first <= q /\ (q - first) mod B = 0) <-> q mod B = bucket.
Proof.
  intros HB Hb Hq first. subst first.
  destruct (Z.eqb_spec bucket 0) as [->|Hne].
  - rewrite (mod_eq_iff_sub q 0 B) by lia. rewrite Z.sub_0_r.
    replace (q - B) with (q + (-1) * B) by lia. rewrite Z.mod_add by lia.
    split; [tauto|]. intros Hm. split; [|done].
    apply Z.mod_divide in Hm as [k Hk]; [|lia].
    destruct (Z_le_gt_dec k 0) as [Hk0|Hk1].
    + assert (k * B <= 0) by nia. lia.
    + assert (1 * B <= k * B) by (apply Z.mul_le_mono_pos_r; lia). lia.
  - rewrite (mod_eq_iff_sub q bucket B) by lia.
    split; [tauto|]. intros Hm. split; [|done].
    apply (mod_eq_iff_sub q bucket B) in Hm; [|lia|lia].
    pose proof (Z.mod_le q B ltac:(lia) HB). lia.
Qed.

(** What one bucket does. *)
Lemma populate_transactions_counts (blk : block) (st : chain_state.state)
    (fork_height bucket B : Z) :
  0 < B -> 0 <= bucket < B ->
  Z.of_nat (length (transactions blk)) <= max_uint64 ->
  exists work,
    populate_transactions (enough_fuel blk) blk st fork_height bucket B
    = Some work
    /\ (forall p,
          count_calls (on_input p) work
          = if (0 <=? p) && (p <? total_non_coinbase_inputs blk)
               && (p mod B =? bucket)
            then 1%nat else 0%nat)
    /\ (forall q, 1 <= q < Z.of_nat (length (transactions blk)) ->
          count_calls (on_transaction q) work
          = if transactions_pass_enabled st && (q mod B =? bucket)
            then 1%nat else 0%nat)
    /\ count_calls (on_transaction 0) work = 0%nat.
Proof.
  intros HB Hb Hsize. unfold populate_transactions. cbv zeta.
  set (first := if bucket =? 0 then B else bucket).
  assert (Hfirst : 1 <= first) by (subst first; destruct (Z.eqb_spec bucket 0); lia).
  assert (Hpass : exists calls,
             (if transactions_pass_enabled st
              then transactions_pass (enough_fuel blk) (transactions blk)
                     (chain_state.enabled_forks st) fork_height first B
              else Some []) = Some calls
             /\ (forall q, 1 <= q < Z.of_nat (length (transactions blk)) ->
                   count_calls (on_transaction q) calls
                   = if transactions_pass_enabled st && (q mod B =? bucket)
                     then 1%nat else 0%nat)
             /\ count_calls (on_transaction 0) calls = 0%nat
             /\ forall p, count_calls (on_input p) calls = 0%nat).
  { destruct (transactions_pass_enabled st).
    - destruct (transactions_pass_count (enough_fuel blk) (transactions blk)
                  (chain_state.enabled_forks st) fork_height first B)
        as (calls & Hcalls & Hq & Hp); [lia | lia | done | |].
      { unfold enough_fuel. lia. }
      exists calls. split; [done|]. split; [|split; [|done]].
      + intros q Hq1. rewrite Hq. simpl andb.
        pose proof (first_position bucket B q HB Hb ltac:(lia)) as Hfp.
        fold first in Hfp. cbv zeta in Hfp. zbool.
        all: exfalso; intuition (try lia; try congruence).
      + rewrite Hq. zbool.
    - exists []. split; [done|]. split; [done|]. split; done. }
  destruct Hpass as (calls & -> & Hq & Hcb & Hp). simpl.
  eexists. split; [done|]. split; [|split].
  - intros p. rewrite !count_calls_app, Hp, inputs_pass_count. simpl.
    unfold total_non_coinbase_inputs, count_calls. simpl.
    rewrite Z.add_0_l. apply Nat.add_0_r.
  - intros q Hq1. rewrite !count_calls_app, (Hq q Hq1),
      inputs_pass_no_transaction.
    unfold count_calls. simpl. lia.
  - rewrite !count_calls_app, Hcb, inputs_pass_no_transaction. done.
Qed.

(** *** What a bucket does, call by call *)






Lemma filter_agree {A : Type} (f g : A -> bool) (l : list A) :
  Forall (fun x => f x = g x) l -> List.filter f l = List.filter g l.
Proof.
  induction 1 as [|x l Hx _ IH]; simpl; [done|]. by rewrite Hx, IH.
Qed.




(** *** All buckets together *)


Lemma bucket_work_Some (blk : block) (st : chain_state.state)
    (fork_height B : Z) :
  0 < B -> Z.of_nat (length (transactions blk)) <= max_uint64 ->
  exists work,
    bucket_work blk st fork_height B = Some work
    /\ map fst work = map Z.of_nat (seq 0 (Z.to_nat B))
    /\ forall bucket w, In (bucket, w) work ->
         0 <= bucket < B
         /\ populate_transactions (enough_fuel blk) blk st fork_height bucket B
            = Some w.
Proof.
  intros HB Hsize. unfold bucket_work.
  assert (Hrange : Forall (fun b => 0 <= b < B)
                     (map Z.of_nat (seq 0 (Z.to_nat B)))).
  { apply Forall_forall. intros b Hb. apply list_elem_of_In in Hb.
    apply in_map_iff in Hb as (i & <- & Hi). apply in_seq in Hi. lia. }
  revert Hrange. generalize (map Z.of_nat (seq 0 (Z.to_nat B))) as buckets.
  induction buckets as [|b buckets IH]; intros Hrange.
  - exists []. by repeat split.
  - apply Forall_cons in Hrange as [Hb Hrange].
    destruct (IH Hrange) as (work & Hwork & Hfst & Hin).
    destruct (populate_transactions_counts blk st fork_height b B HB Hb Hsize)
      as (w & Hw & _).
    exists ((b, w) :: work). simpl. rewrite Hw. simpl. rewrite Hwork. simpl.
    split; [done|]. split; [by rewrite Hfst|].
    intros bucket w' [Heq|Hin']; [by injection Heq as <- <- | by apply Hin].
Qed.



End populate_block_properties.


(** The two buckets of that population, call by call. *)
Example populate_buckets_example :
  populate_block.bucket_work (H0 := reference.chain_states)
    (H1 := reference.reader reference.indexed_chain false)
    reference.four_inputs chain_state.default_data 3 2
  = Some
      [(0, [populate_block.populate_transaction_called 2 0 3;
            populate_block.populate_output_called 0 (mk_output_point 50 0) 3;
            populate_block.populate_output_called 2 (mk_output_point 52 1) 3;
            populate_block.handler_called success]);
       (1, [populate_block.populate_transaction_called 1 0 3;
            populate_block.populate_transaction_called 3 0 3;
            populate_block.populate_output_called 1 (mk_output_point 51 0) 3;
            populate_block.populate_output_called 3 (mk_output_point 53 0) 3;
            populate_block.handler_called success])].
Proof. vm_compute. reflexivity. Qed.


(** ** check_block, accept_block, connect_block: the handler discipline *)

Section completion_discipline.
Context `{base_library}.

Lemma reports_ret {A : Type} (a : A) : reports_on_return (vret a).
Proof. intros s s' E. inversion E. Qed.

Lemma reports_stopped (v : validate_block) : reports_on_return (stopped v).
Proof. intros s s' E. inversion E. Qed.

Lemma reports_complete_return {A : Type} (ec : code) :
  reports_on_return (@complete_return A ec).
Proof. intros s s' E. injection E as <-. by exists ec. Qed.

Lemma reports_return_if (c : bool) (ec : code) :
  reports_on_return (return_if c ec).
Proof. destruct c; [apply reports_complete_return | apply reports_ret]. Qed.

Lemma reports_bind {A B : Type} (m : V A) (f : A -> V B) :
  quiet m -> reports_on_return m -> (forall a, reports_on_return (f a)) ->
  reports_on_return (vbind m f).
Proof.
  intros Hq Hm Hf s s' E. unfold vbind in E.
  destruct (m s) as [[a|] s1] eqn:Em.
  - destruct (Hf a _ _ E) as [ec Hec]. exists ec.
    by rewrite Hec, (Hq _ _ _ Em).
  - injection E as <-. by apply Hm.
Qed.

Lemma reports_RETURN_IF_STOPPED (v : validate_block) :
  reports_on_return (RETURN_IF_STOPPED v).
Proof.
  apply reports_bind; [apply quiet_stopped | apply reports_stopped|].
  intros b. apply reports_return_if.
Qed.

Lemma reports_for_each {A : Type} (l : list A) (body : A -> V unit) :
  (forall x, quiet (body x)) -> (forall x, reports_on_return (body x)) ->
  reports_on_return (for_each l body).
Proof.
  intros Hq Hb. induction l as [|x rest IH]; simpl; [apply reports_ret|].
  apply reports_bind; [apply Hq | apply Hb | intros _; exact IH].
Qed.

Lemma completes_once_complete (ec : code) : completes_once (complete ec).
Proof. intros s. by exists ec. Qed.

Lemma completes_once_bind {A B : Type} (m : V A) (k : A -> V B) :
  quiet m -> reports_on_return m -> (forall a, completes_once (k a)) ->
  completes_once (vbind m k).
Proof.
  intros Hq Hm Hk s. unfold vbind.
  destruct (m s) as [[a|] s1] eqn:Em.
  - destruct (Hk a s1) as [ec Hec]. exists ec.
    by rewrite Hec, (Hq _ _ _ Em).
  - by apply Hm.
Qed.

(** The building blocks of the three validation functions, one by one. *)
Ltac discipline :=
  repeat first
    [ apply quiet_return_if
    | apply quiet_RETURN_IF_STOPPED
    | apply quiet_for_each; intros ?
    | apply quiet_bind; [|intros ?]
    | apply reports_return_if
    | apply reports_RETURN_IF_STOPPED
    | apply reports_for_each; intros ?
    | apply reports_bind; [| |intros ?]
    | apply completes_once_complete
    | apply completes_once_bind; [| |intros ?] ].

Lemma emits_for_each_in {A : Type} (P : code -> Prop) (l : list A)
    (body : A -> V unit) :
  (forall x, In x l -> emits P (body x)) -> emits P (for_each l body).
Proof.
  intros Hb. induction l as [|x rest IH]; simpl; [apply emits_ret|].
  apply emits_bind; [apply Hb; by left|].
  intros _. apply IH. intros y Hy. apply Hb. by right.
Qed.

(** A computation that calls the handler once, with codes that satisfy
    [P], delivers one code that satisfies [P]. *)
Lemma completes_once_emits (P : code -> Prop) (m : V unit) (n : nat) :
  completes_once m -> emits P m -> exists ec, run_from n m = [ec] /\ P ec.
Proof.
  intros Hc He. unfold run_from.
  destruct (Hc (mk_vstate n [])) as [ec Hec].
  destruct (He (mk_vstate n [])) as (extra & Hextra & HP).
  exists ec. split; [done|].
  rewrite Hec in Hextra. simpl in Hextra. subst extra.
  exact (proj1 (Forall_singleton P ec) HP).
Qed.

(** X1.  Whatever the block, the chain view and the answers of the stop
    callback, [check_block] calls its handler exactly once; the code is
    one of the ten codes that the function names, or the error that
    [check_transaction] returned for a transaction of the block. *)
Theorem check_block_completes_once (v : validate_block) (n : nat) :
  exists ec,
    run_from n (check_block v) = [ec]
    /\ (In ec [size_limits; proof_of_work; service_stopped;
               futuristic_timestamp; first_not_coinbase; extra_coinbases;
               duplicate; too_many_sigs; merkle_mismatch; success]
        \/ exists tx, In tx (transactions (current_block_ v))
                      /\ ec = check_transaction tx).
Proof.
  apply completes_once_emits.
  - unfold check_block, check_block_before_distinct,
      check_block_from_distinct, mbind, V_bind.
    cbv zeta. discipline.
  - unfold check_block, check_block_before_distinct,
      check_block_from_distinct, mbind, V_bind.
    cbv zeta.
    repeat first
      [ apply emits_return_if; left; simpl; tauto
      | apply emits_RETURN_IF_STOPPED; left; simpl; tauto
      | apply emits_complete; left; simpl; tauto
      | apply emits_for_each_in; intros tx Htx;
        (apply emits_bind; [|intros ?]);
        [ apply emits_RETURN_IF_STOPPED; left; simpl; tauto
        | apply emits_return_if; right; by exists tx ]
      | apply emits_for_each; intros ?
      | apply emits_bind; [|intros ?] ].
Qed.

(** X2.  Whatever the block, the chain view and the answers of the stop
    callback, [accept_block] calls its handler exactly once, with one of
    the eight codes that the function names. *)
Theorem accept_block_completes_once (v : validate_block) (n : nat) :
  exists ec,
    run_from n (accept_block v) = [ec]
    /\ In ec [incorrect_proof_of_work; service_stopped; timestamp_too_early;
              non_final_transaction; checkpoints_failed; old_version_block;
              coinbase_height_mismatch; success].
Proof.
  apply completes_once_emits.
  - unfold accept_block, accept_block_before_coinbase_height,
      accept_block_coinbase_height, mbind, V_bind.
    cbv zeta. discipline.
  - unfold accept_block, accept_block_before_coinbase_height,
      accept_block_coinbase_height, mbind, V_bind.
    cbv zeta.
    repeat first
      [ apply emits_return_if; simpl; tauto
      | apply emits_RETURN_IF_STOPPED; simpl; tauto
      | apply emits_complete; simpl; tauto
      | apply emits_for_each; intros ?
      | apply emits_bind; [|intros ?] ].
Qed.

(** X3.  [connect_block] calls its handler at most once, with
    [service_stopped] or with [unknown]; it calls it not at all only when
    the height is not a BIP30 exception height and the join of the parallel
    duplicate checks never invokes the next step. *)
Theorem connect_block_handler_calls (v : validate_block) (n : nat) :
  run_from n (connect_block v) = [service_stopped]
  \/ run_from n (connect_block v) = [unknown]
  \/ (run_from n (connect_block v) = []
      /\ height_ v <> bip30_exception_block1
      /\ height_ v <> bip30_exception_block2
      /\ bip30_phase v (S n) = None).
Proof.
  unfold bip30_phase.
  unfold run_from, connect_block, RETURN_IF_STOPPED, connect_block1,
    RETURN_IF_STOPPED, mbind, V_bind, vbind, stopped.
  simpl. destruct (stop_callback_ v n); simpl; [by left|].
  destruct (Z.eqb_spec (height_ v) bip30_exception_block1) as [E1|E1]; simpl.
  { destruct (stop_callback_ v (S n)); simpl; auto. }
  destruct (Z.eqb_spec (height_ v) bip30_exception_block2) as [E2|E2]; simpl.
  { destruct (stop_callback_ v (S n)); simpl; auto. }
  unfold parallel, mbind, V_bind, vbind.
  destruct (collect_state (transactions (current_block_ v))
              (check_spent_duplicate v) (mk_vstate (S n) []))
    as (results & n' & Hc).
  rewrite Hc. destruct (parallel_join results); simpl.
  - destruct (stop_callback_ v n'); simpl; auto.
  - right. right. done.
Qed.

End completion_discipline.

(** ** check_block and accept_block: when they complete with success *)

Section validation_verdicts.
Context `{base_library}.

Lemma checks_return_if (c : bool) (ec : code) :
  (c = true -> ec <> success) -> checks (return_if c ec) (negb c).
Proof.
  intros Hne s. exists (polls s). destruct c; simpl.
  - exists ec. split; [by apply Hne | done].
  - exists tt. by destruct s.
Qed.

Lemma checks_RETURN_IF_STOPPED (v : validate_block) :
  never_stopped v -> checks (RETURN_IF_STOPPED v) true.
Proof.
  intros Hns s. exists (S (polls s)). exists tt.
  unfold RETURN_IF_STOPPED, mbind, V_bind, vbind, stopped.
  by rewrite Hns.
Qed.

Lemma checks_bind {A B : Type} (m : V A) (k : A -> V B) (ok1 ok2 : bool) :
  checks m ok1 -> (forall a, checks (k a) ok2) ->
  checks (vbind m k) (ok1 && ok2).
Proof.
  intros Hm Hk s. destruct (Hm s) as [n Hn]. unfold vbind.
  destruct ok1; simpl.
  - destruct Hn as [a ->]. exact (Hk a (mk_vstate n (fired s))).
  - destruct Hn as (ec & Hne & ->). exists n, ec. done.
Qed.

Lemma checks_for_each {A : Type} (l : list A) (body : A -> V unit)
    (okx : A -> bool) :
  (forall x, checks (body x) (okx x)) ->
  checks (for_each l body) (forallb okx l).
Proof.
  intros Hb. induction l as [|x rest IH]; simpl.
  - intros s. exists (polls s), tt. by destruct s.
  - apply checks_bind; [apply Hb | intros _; exact IH].
Qed.

Lemma concludes_complete_success : concludes (complete success) true.
Proof. intros s. by exists success. Qed.

Lemma concludes_bind {A B : Type} (m : V A) (k : A -> V B) (ok1 ok2 : bool) :
  checks m ok1 -> (forall a, concludes (k a) ok2) ->
  concludes (vbind m k) (ok1 && ok2).
Proof.
  intros Hm Hk s. destruct (Hm s) as [n Hn]. unfold vbind.
  destruct ok1; simpl.
  - destruct Hn as [a ->]. exact (Hk a (mk_vstate n (fired s))).
  - destruct Hn as (ec & Hne & ->). exists ec. simpl. split; [done|].
    split; [done | discriminate].
Qed.

Lemma concludes_run {A : Type} (m : V A) (ok : bool) (n : nat) :
  concludes m ok ->
  fired (snd (m (mk_vstate n []))) = [success] <-> ok = true.
Proof.
  intros Hc. destruct (Hc (mk_vstate n [])) as (ec & -> & Hiff). simpl.
  rewrite <- Hiff. split; [by intros [= ->] | by intros ->].
Qed.

Lemma forallb_Forall {A : Type} (f : A -> bool) (l : list A) :
  forallb f l = true <-> Forall (fun x => f x = true) l.
Proof.
  induction l as [|x l IH]; simpl; [by split|].
  by rewrite andb_true_iff, Forall_cons, IH.
Qed.

Lemma front_and_tail_coinbase (txs : list transaction) :
  front_is_coinbase txs = true
  /\ forallb (fun it => true && negb (is_coinbase it)) (tail txs) = true
  <-> only_first_is_coinbase txs.
Proof.
  unfold only_first_is_coinbase. destruct txs as [|first rest]; simpl.
  - split; [by intros [? _] | by intros (? & ? & ? & _)].
  - rewrite forallb_Forall. split.
    + intros [Hf Hr]. exists first, rest. repeat split; [done|].
      eapply Forall_impl; [exact Hr|]. intros t. simpl.
      by rewrite negb_true_iff.
    + intros (f & r & [= <- <-] & Hf & Hr). split; [done|].
      eapply Forall_impl; [exact Hr|]. intros t. simpl.
      by rewrite negb_true_iff.
Qed.

(** Assemble the verdict of a chain of tests, test by test. *)
Ltac verdict Hns :=
  repeat first
    [ apply (checks_RETURN_IF_STOPPED _ Hns)
    | apply checks_return_if;
      intros Hc Heq; try discriminate; rewrite Heq in Hc; discriminate
    | apply concludes_complete_success
    | eapply checks_for_each; intros ?
    | eapply checks_bind; [|intros ?]
    | eapply concludes_bind; [|intros ?] ].

(** X4.  When the stop callback never reports a stop, [check_block]
    completes with [success] exactly when the block has between one and
    [max_block_size] transactions and a serialized size within
    [max_block_size], its header hash meets the target of its bits, its
    timestamp is at most two hours ahead of the current time, its first
    transaction is its only coinbase, every transaction passes
    [check_transaction], no two neighbouring transactions share a hash, the
    legacy signature operations are within the limit and the header's
    merkle root is that of the transactions. *)
Theorem check_block_success_iff (v : validate_block) :
  never_stopped v ->
  let blk := current_block_ v in
  let txs := transactions blk in
  let hd := block_header blk in
  run (check_block v) = [success]
  <-> txs <> []
      /\ Z.of_nat (length txs) <= max_block_size
      /\ serialized_size blk <= max_block_size
      /\ is_valid_proof_of_work (header_hash hd) (bits hd) = true
      /\ timestamp hd <= current_time v + 2 * 3600
      /\ only_first_is_coinbase txs
      /\ Forall (fun tx => check_transaction tx = success) txs
      /\ no_adjacent_equal (map tx_hash txs)
      /\ legacy_sigops_count txs <= max_block_script_sig_operations
      /\ merkle hd = generate_merkle_root txs.
Proof.
  intros Hns blk txs hd. unfold run, run_from.
  eapply iff_trans.
  { apply concludes_run.
    unfold check_block, check_block_before_distinct,
      check_block_from_distinct, mbind, V_bind.
    cbv zeta. verdict Hns. }
  subst blk txs hd.
  rewrite <- front_and_tail_coinbase, <- is_distinct_tx_set_adjacent.
  rewrite !andb_true_iff, !negb_involutive, !negb_true_iff, !orb_false_iff,
    bool_decide_eq_false, !Z.gtb_ltb, !Z.ltb_ge, Z.eqb_eq.
  unfold is_valid_time_stamp. rewrite Z.leb_le.
  rewrite (forallb_Forall
             (fun x => true && negb (is_error (check_transaction x)))).
  assert (HF : Forall (fun x => true && negb (is_error (check_transaction x))
                               = true) (transactions (current_block_ v))
               <-> Forall (fun tx => check_transaction tx = success)
                     (transactions (current_block_ v))).
  { apply Forall_iff. intros tx. simpl. rewrite negb_true_iff.
    destruct (check_transaction tx); simpl; split; congruence. }
  rewrite HF.
  intuition.
Qed.

(** X5.  When the stop callback never reports a stop, [accept_block]
    completes with [success] exactly when the header's bits are the work
    required, its timestamp is later than the median time past, every
    transaction is final, the checkpoints accept the block hash, a block of
    version below 2 is not above [max_version1_height] and a block of
    version 2 or more passes the coinbase height test. *)
Theorem accept_block_success_iff (v : validate_block) :
  never_stopped v ->
  let blk := current_block_ v in
  let hd := block_header blk in
  run (accept_block v) = [success]
  <-> bits hd = work_required v
      /\ median_time_past v < timestamp hd
      /\ Forall (fun tx => is_final tx (height_ v) (timestamp hd) = true)
           (transactions blk)
      /\ checkpoint_validate (header_hash hd) (height_ v) (checkpoints_ v)
         = true
      /\ (version hd < 2 -> height_ v <= max_version1_height)
      /\ (2 <= version hd ->
          is_valid_coinbase_height (height_ v) blk = true).
Proof.
  intros Hns blk hd. unfold run, run_from.
  eapply iff_trans.
  { apply concludes_run.
    unfold accept_block, accept_block_before_coinbase_height,
      accept_block_coinbase_height, mbind, V_bind.
    cbv zeta. verdict Hns. }
  subst blk hd.
  rewrite !andb_true_iff, !negb_involutive, !negb_true_iff, !andb_false_iff,
    negb_false_iff, Z.eqb_eq, Z.leb_gt, Z.gtb_ltb, Z.geb_leb, Z.leb_gt,
    !Z.ltb_ge.
  rewrite forallb_Forall.
  assert (HF : Forall (fun x => negb (negb (is_final x (height_ v)
                                 (timestamp (block_header (current_block_ v)))))
                               && true = true)
                 (transactions (current_block_ v))
               <-> Forall (fun tx => is_final tx (height_ v)
                                  (timestamp (block_header (current_block_ v)))
                                = true)
                     (transactions (current_block_ v))).
  { apply Forall_iff. intros tx.
    by rewrite negb_involutive, andb_true_r. }
  rewrite HF.
  destruct (Z.lt_ge_cases (version (block_header (current_block_ v))) 2);
    intuition lia.
Qed.

End validation_verdicts.

(** [check_block_success_iff] on the reference environment: the block that
    holds its coinbase only completes with [success], and the conditions
    follow. *)
Lemma check_block_success_iff_witness :
  let v := reference.validator 300000 reference.coinbase_only in
  never_stopped v
  /\ only_first_is_coinbase (transactions (current_block_ v))
  /\ legacy_sigops_count (transactions (current_block_ v))
     <= max_block_script_sig_operations.
Proof.
  intros v.
  assert (Hns : never_stopped v) by (intros n; reflexivity).
  assert (Hrun : run (check_block (H := reference.library) v) = [success])
    by (vm_compute; reflexivity).
  apply (check_block_success_iff (H := reference.library) v Hns) in Hrun.
  split; [exact Hns|]. split; apply Hrun.
Defined.

(** [accept_block_success_iff] on the reference environment: a version 2
    block at height 300000 whose coinbase script begins with the height. *)
Lemma accept_block_success_iff_witness :
  let v := reference.validator 300000 reference.coinbase_at_300000 in
  never_stopped v
  /\ run (accept_block (H := reference.library) v) = [success].
Proof.
  intros v.
  assert (Hns : never_stopped v) by (intros n; reflexivity).
  split; [exact Hns|].
  apply (accept_block_success_iff (H := reference.library) v Hns).
  vm_compute. repeat split; try discriminate; try reflexivity.
  repeat constructor.
Defined.

(** ** is_distinct_tx_set on distinct and on sorted hashes *)

Section distinct_sets.
Context `{base_library}.

Lemma NoDup_no_adjacent_equal {A : Type} (l : list A) :
  NoDup l -> no_adjacent_equal l.
Proof.
  induction l as [|x [|y rest] IH]; intros Hnd; simpl; try done.
  apply NoDup_cons in Hnd as [Hx Hnd]. split; [|by apply IH].
  intros ->. apply Hx. by left.
Qed.

Lemma sorted_no_adjacent_equal_NoDup (l : list Z) :
  Sorted Z.le l -> no_adjacent_equal l -> NoDup l.
Proof.
  intros Hs. apply Sorted_StronglySorted in Hs; [|intros x y z; lia].
  induction Hs as [|x l Hs IH Hall]; intros Hadj; [constructor|].
  apply NoDup_cons.
  destruct l as [|y rest]; [split; [by inversion 1 | constructor]|].
  simpl in Hadj. destruct Hadj as [Hne Hadj]. split; [|by apply IH].
  intros Hin. apply list_elem_of_In in Hin.
  inversion Hall as [|? ? Hxy Hrest]; subst.
  inversion Hs as [|? ? _ Hyrest]; subst.
  destruct Hin as [<-|Hin]; [done|].
  rewrite List.Forall_forall in Hyrest, Hrest.
  specialize (Hyrest _ Hin). specialize (Hrest _ Hin). lia.
Qed.

(** X6.  [is_distinct_tx_set] never rejects transactions whose hashes are
    pairwise distinct; and on transactions sorted by hash it is an exact
    test: it accepts them if and only if their hashes are pairwise
    distinct. *)
Theorem is_distinct_tx_set_distinct_sorted (txs : list transaction) :
  (NoDup (map tx_hash txs) -> is_distinct_tx_set txs = true)
  /\ (Sorted Z.le (map tx_hash txs) ->
      is_distinct_tx_set txs = true <-> NoDup (map tx_hash txs)).
Proof.
  rewrite is_distinct_tx_set_adjacent. split.
  - apply NoDup_no_adjacent_equal.
  - intros Hs. split.
    + by apply sorted_no_adjacent_equal_NoDup.
    + apply NoDup_no_adjacent_equal.
Qed.

End distinct_sets.

(** [is_distinct_tx_set_distinct_sorted] on three payments sorted by hash,
    the last two being the same. *)
Lemma is_distinct_tx_set_distinct_sorted_witness :
  let txs := [reference.payment 7 50 0; reference.payment 8 51 0;
              reference.payment 8 51 0] in
  Sorted Z.le (map tx_hash txs)
  /\ (is_distinct_tx_set txs = true <-> NoDup (map tx_hash txs))
  /\ is_distinct_tx_set (take 2 txs) = true.
Proof.
  intros txs.
  assert (Hs : Sorted Z.le (map tx_hash txs)).
  { repeat constructor; vm_compute; discriminate. }
  split; [exact Hs|]. split.
  - by apply (proj2 (is_distinct_tx_set_distinct_sorted txs)).
  - apply (proj1 (is_distinct_tx_set_distinct_sorted (take 2 txs))).
    apply (bool_decide_unpack _). vm_compute. reflexivity.
Defined.

(** ** Counting signature operations *)

Section signature_operations.
Context `{base_library}.

Lemma wrap64_small (z : Z) : 0 <= z < 2 ^ 64 -> wrap64 z = z.
Proof. intros Hz. unfold wrap64. by apply Z.mod_small. Qed.

Lemma wrap64_add_l (a b : Z) : wrap64 (wrap64 a + b) = wrap64 (a + b).
Proof. unfold wrap64. by rewrite Zplus_mod_idemp_l. Qed.

Lemma wrap64_add_r (a b : Z) : wrap64 (a + wrap64 b) = wrap64 (a + b).
Proof. unfold wrap64. by rewrite Zplus_mod_idemp_r. Qed.

Lemma wrap64_idemp (a : Z) : wrap64 (wrap64 a) = wrap64 a.
Proof. unfold wrap64. by rewrite Zmod_mod. Qed.

(** The legacy count of one operation. *)
Lemma count_op_legacy (total last : Z) (op : operation) :
  count_op false (wrap64 total, last) op
  = (wrap64 (total + (if single_sig op then 1
                      else if multi_sig op then 20 else 0)),
     op_code op).
Proof.
  unfold count_op, single_sig, multi_sig. simpl.
  destruct (_ || _); [by rewrite wrap64_add_l|].
  destruct (_ || _); [by rewrite wrap64_add_l|].
  by rewrite Z.add_0_r.
Qed.

Lemma single_not_multi (op : operation) :
  single_sig op = true -> multi_sig op = false.
Proof.
  unfold single_sig, multi_sig, opcode.checksig, opcode.checksigverify,
    opcode.checkmultisig, opcode.checkmultisigverify.
  rewrite orb_true_iff, orb_false_iff, !Z.eqb_eq, !Z.eqb_neq. lia.
Qed.

Lemma fold_count_op_legacy (ops : list operation) (total last : Z) :
  fst (fold_left (count_op false) ops (wrap64 total, last))
  = wrap64 (total
            + Z.of_nat (length (List.filter single_sig ops))
            + 20 * Z.of_nat (length (List.filter multi_sig ops))).
Proof.
  revert total last. induction ops as [|op ops IH]; intros total last.
  - simpl. f_equal. lia.
  - cbn [fold_left]. rewrite count_op_legacy, IH. cbn [List.filter].
    pose proof (single_not_multi op) as Hsm.
    destruct (single_sig op); [rewrite Hsm by done|];
      [|destruct (multi_sig op)]; simpl length; f_equal; lia.
Qed.

(** X7.  The legacy count of a script is the number of its [checksig] and
    [checksigverify] operations plus twenty for each of its
    [checkmultisig] and [checkmultisigverify] operations, as a [size_t]
    value. *)
Theorem count_script_sigops_legacy (ops : list operation) :
  count_script_sigops ops false
  = wrap64 (Z.of_nat (length (List.filter single_sig ops))
            + 20 * Z.of_nat (length (List.filter multi_sig ops))).
Proof.
  unfold count_script_sigops.
  change (0, opcode.bad_operation) with (wrap64 0, opcode.bad_operation).
  by rewrite fold_count_op_legacy.
Qed.

Lemma decode_op_n_range (code : Z) :
  within_op_n code = true -> 1 <= decode_op_n code <= 16.
Proof.
  unfold within_op_n, decode_op_n, opcode.op_1, opcode.op_16.
  rewrite andb_true_iff, !Z.leb_le. intros [Hlo Hhi].
  rewrite Z.mod_small; lia.
Qed.

Lemma count_op_cases (accurate : bool) (total last : Z) (op : operation) :
  count_op accurate (total, last) op
  = (if single_sig op then wrap64 (total + 1)
     else if multi_sig op
     then if accurate && within_op_n last
          then wrap64 (total + decode_op_n last)
          else wrap64 (total + 20)
     else total,
     op_code op).
Proof. reflexivity. Qed.

Lemma fold_count_op_bounds (ops : list operation)
    (accurate_total accurate_last legacy_total legacy_last : Z) :
  0 <= accurate_total <= legacy_total ->
  legacy_total + 20 * Z.of_nat (length ops) < 2 ^ 64 ->
  0 <= fst (fold_left (count_op true) ops (accurate_total, accurate_last))
    <= fst (fold_left (count_op false) ops (legacy_total, legacy_last))
  /\ fst (fold_left (count_op false) ops (legacy_total, legacy_last))
     <= legacy_total + 20 * Z.of_nat (length ops).
Proof.
  revert accurate_total accurate_last legacy_total legacy_last.
  induction ops as [|op ops IH];
    intros accurate_total accurate_last legacy_total legacy_last Hle Hfit.
  - simpl in *. lia.
  - cbn [fold_left]. cbn [length] in *. rewrite Nat2Z.inj_succ in *.
    rewrite !count_op_cases.
    pose proof (decode_op_n_range accurate_last) as Hd.
    destruct (single_sig op); [|destruct (multi_sig op)]; simpl andb.
    + rewrite !wrap64_small by lia.
      destruct (IH (accurate_total + 1) (op_code op) (legacy_total + 1)
                  (op_code op)); lia.
    + destruct (within_op_n accurate_last).
      * rewrite !wrap64_small by lia.
        destruct (IH (accurate_total + decode_op_n accurate_last)
                    (op_code op) (legacy_total + 20) (op_code op)); lia.
      * rewrite !wrap64_small by lia.
        destruct (IH (accurate_total + 20) (op_code op) (legacy_total + 20)
                    (op_code op)); lia.
    + destruct (IH accurate_total (op_code op) legacy_total (op_code op));
        lia.
Qed.

(** X8.  For a script whose operations number fewer than [2^64 / 20], the
    accurate count is never above the legacy count, and the legacy count is
    at most twenty per operation. *)
Theorem count_script_sigops_accurate_le_legacy (ops : list operation) :
  20 * Z.of_nat (length ops) < 2 ^ 64 ->
  0 <= count_script_sigops ops true <= count_script_sigops ops false
  /\ count_script_sigops ops false <= 20 * Z.of_nat (length ops).
Proof.
  intros Hfit. unfold count_script_sigops.
  apply fold_count_op_bounds; lia.
Qed.

Lemma sum_of_app (l1 l2 : list Z) : sum_of (l1 ++ l2) = sum_of l1 + sum_of l2.
Proof. induction l1 as [|x l1 IH]; simpl; [done|]. rewrite IH. lia. Qed.

Lemma fold_wrapping_sum {A : Type} (f : A -> Z) (l : list A) (total : Z) :
  fold_left (fun total x => wrap64 (total + f x)) l (wrap64 total)
  = wrap64 (total + sum_of (map f l)).
Proof.
  revert total. induction l as [|x l IH]; intros total; simpl.
  - by rewrite Z.add_0_r.
  - rewrite wrap64_add_l, IH. f_equal. lia.
Qed.

Lemma legacy_sigops_count_tx_sum (tx : transaction) :
  legacy_sigops_count_tx tx
  = wrap64 (sum_of (map (fun s => count_script_sigops (operations s) false)
                        (scripts_of tx))).
Proof.
  unfold legacy_sigops_count_tx, scripts_of.
  change 0 with (wrap64 0) at 1.
  rewrite (fold_wrapping_sum
             (fun i =>
                count_script_sigops (operations (input_script i)) false)).
  rewrite (fold_wrapping_sum
             (fun o =>
                count_script_sigops (operations (output_script o)) false)).
  rewrite map_app, sum_of_app, !map_map. done.
Qed.

(** X9.  The legacy count of a list of transactions is the sum, as a
    [size_t] value, of the legacy counts of all their input and output
    scripts: the intermediate reductions do not matter, nor does the order
    of the transactions. *)
Theorem legacy_sigops_count_sum (txs : list transaction) :
  legacy_sigops_count txs
  = wrap64 (sum_of (map (fun s => count_script_sigops (operations s) false)
                        (flat_map scripts_of txs))).
Proof.
  unfold legacy_sigops_count. change 0 with (wrap64 0) at 1.
  rewrite (fold_wrapping_sum legacy_sigops_count_tx), Z.add_0_l.
  induction txs as [|tx txs IH]; [done|].
  cbn [map flat_map sum_of fold_right].
  fold (sum_of (map legacy_sigops_count_tx txs)).
  rewrite map_app, sum_of_app, legacy_sigops_count_tx_sum.
  rewrite wrap64_add_l, <- wrap64_add_r, IH, wrap64_add_r. done.
Qed.

End signature_operations.

(** [count_script_sigops_accurate_le_legacy] on a 2-of-3 multi-signature
    script: the accurate count is 3, the legacy count 20. *)
Lemma count_script_sigops_accurate_le_legacy_witness :
  let ops := [mk_operation 82 []; mk_operation opcode.special [1];
              mk_operation opcode.special [2]; mk_operation opcode.special [3];
              mk_operation 83 []; mk_operation opcode.checkmultisig []] in
  count_script_sigops ops true = 3
  /\ count_script_sigops ops false = 20
  /\ 0 <= count_script_sigops ops true <= count_script_sigops ops false.
Proof.
  intros ops. split; [reflexivity|]. split; [reflexivity|].
  apply (count_script_sigops_accurate_le_legacy ops). reflexivity.
Defined.

(** ** connect_block: the duplicate check of one transaction *)

Section spent_duplicates.
Context `{base_library}.

Lemma output_points_seq (hash : hash_digest) (outs : list output) :
  output_points hash outs
  = map (fun index => mk_output_point hash (Z.of_nat index))
        (seq 0 (length outs)).
Proof.
  unfold output_points.
  assert (Hgen : forall (k : nat),
             imap (fun index _ => mk_output_point hash (Z.of_nat (k + index)))
                  outs
             = map (fun index => mk_output_point hash (Z.of_nat index))
                   (seq k (length outs))).
  { induction outs as [|o outs IH]; intros k; [done|].
    simpl. rewrite Nat.add_0_r. f_equal.
    rewrite <- (IH (S k)). apply imap_ext. intros i x _. simpl.
    do 2 f_equal. lia. }
  by rewrite <- (Hgen 0%nat).
Qed.

Lemma check_output_spent_own (v : validate_block) (point : output_point)
    (s : vstate) :
  never_stopped v ->
  with_own_handler (check_output_spent v point) s
  = (Next [output_spent_code v point], mk_vstate (S (polls s)) (fired s)).
Proof.
  intros Hns.
  unfold with_own_handler, check_output_spent, RETURN_IF_STOPPED, mbind,
    V_bind, vbind, stopped.
  simpl. by rewrite Hns.
Qed.

(** Without a stop, the parallel calls of [check_output_spent] complete
    with one code per outpoint, in order. *)
Lemma collect_check_output_spent (v : validate_block)
    (points : list output_point) (s : vstate) :
  never_stopped v ->
  exists n,
    collect points (check_output_spent v) s
    = (Next (map (output_spent_code v) points), mk_vstate n (fired s)).
Proof.
  intros Hns. revert s. induction points as [|point points IH]; intros s.
  - exists (polls s). by destruct s.
  - cbn [collect map]. unfold mbind, V_bind, vbind.
    rewrite (check_output_spent_own v point s Hns).
    destruct (IH (mk_vstate (S (polls s)) (fired s))) as [n ->].
    by exists n.
Qed.

(** X10.  Without a stop, [check_spent_duplicate] completes with [success]
    for a transaction whose hash the chain does not know.  For one it
    knows, the outpoints [(hash, 0) .. (hash, n - 1)] of its [n] outputs are
    each checked once, an outpoint giving [success] when it is spent and
    [duplicate_or_spent] when it is not, and the handler receives what the
    join of these codes delivers. *)
Theorem check_spent_duplicate_result (v : validate_block) (tx : transaction)
    (n : nat) :
  never_stopped v ->
  run_from n (check_spent_duplicate v tx)
  = if transaction_exists v (tx_hash tx)
    then
      match parallel_join
              (map (fun index =>
                      output_spent_code v
                        (mk_output_point (tx_hash tx) (Z.of_nat index)))
                   (seq 0 (length (outputs tx)))) with
      | Some ec => [ec]
      | None => []
      end
    else [success].
Proof.
  intros Hns.
  unfold run_from, check_spent_duplicate, RETURN_IF_STOPPED, mbind, V_bind,
    vbind, stopped.
  simpl. rewrite Hns. simpl.
  destruct (transaction_exists v (tx_hash tx)); simpl; [|done].
  unfold parallel, mbind, V_bind, vbind.
  destruct (collect_check_output_spent v
              (output_points (tx_hash tx) (outputs tx)) (mk_vstate (S n) [])
              Hns) as [n' ->].
  rewrite output_points_seq, map_map.
  by destruct (parallel_join _).
Qed.

End spent_duplicates.

(** [check_spent_duplicate_result] on the reference environment, whose
    join delivers the first failure: the chain knows transaction 50, none
    of whose outputs is spent. *)
Lemma check_spent_duplicate_result_witness :
  run_from 0
    (check_spent_duplicate (H := reference.library)
       (reference.validator_knowing 300000 reference.one_payment
          (reference.payment 50 49 0) 1000)
       (reference.payment 50 49 0))
  = [duplicate_or_spent]
  /\ run_from 0
       (check_spent_duplicate (H := reference.library)
          (reference.validator_knowing 300000 reference.one_payment
             (reference.payment 50 49 0) 1000)
          (reference.payment 7 50 0))
     = [success].
Proof.
  split.
  - rewrite (check_spent_duplicate_result (H := reference.library));
      [reflexivity | intros n; reflexivity].
  - rewrite (check_spent_duplicate_result (H := reference.library));
      [reflexivity | intros n; reflexivity].
Defined.

(** ** connect_input and validate_inputs: what an accepted input
    guarantees *)

Section accepted_inputs.
Context `{base_library}.

(** What [connect_input] has established when it returns [true], in the
    terms of the function. *)
Lemma connect_input_true (v : validate_block) (index_in_parent : Z)
    (current_tx : transaction) (input_index value_in total_sigops : Z)
    (value_in' total_sigops' : Z) :
  connect_input v index_in_parent current_tx input_index value_in total_sigops
  = defined (true, value_in', total_sigops') ->
  exists input previous_tx previous_height previous_tx_out,
    at_index (inputs current_tx) input_index = Some input
    /\ fetch_transaction v (point_hash (previous_output input))
       = Some (previous_tx, previous_height)
    /\ at_index (outputs previous_tx) (point_index (previous_output input))
       = Some previous_tx_out
    /\ total_sigops' <= max_block_script_sig_operations
    /\ value previous_tx_out <= max_money
    /\ value_in' = wrap64 (value_in + value previous_tx_out)
    /\ value_in' <= max_money
    /\ is_coinbase previous_tx
       && (wrap64 (height_ v - previous_height) <? coinbase_maturity) = false
    /\ validate_consensus (output_script previous_tx_out) current_tx
         input_index (block_header (current_block_ v)) (height_ v) = true
    /\ is_output_spent_by v (previous_output input) index_in_parent
         input_index = false.
Proof.
  unfold connect_input. intros Hc.
  destruct (at_index (inputs current_tx) input_index) as [input|];
    [|discriminate].
  destruct (fetch_transaction v _) as [[previous_tx previous_height]|]
    eqn:Hfetch; [|discriminate].
  destruct (at_index (outputs previous_tx) _) as [previous_tx_out|]
    eqn:Hout; [|discriminate].
  destruct (script_hash_signature_operations_count _ _) as [count|];
    [|discriminate].
  destruct (Z.gtb_spec (wrap64 (total_sigops + count))
              max_block_script_sig_operations) as [|Hsig]; [discriminate|].
  destruct (Z.gtb_spec (value previous_tx_out) max_money) as [|Hval];
    [discriminate|].
  destruct (is_coinbase previous_tx && _) eqn:Hmat; [discriminate|].
  destruct (validate_consensus _ _ _ _ _) eqn:Hcons; [|discriminate].
  destruct (is_output_spent_by _ _ _ _) eqn:Hspent; [discriminate|].
  simpl in Hc.
  destruct (Z.gtb_spec (wrap64 (value_in + value previous_tx_out)) max_money)
    as [|Hin]; [discriminate|].
  injection Hc as <- <-.
  exists input, previous_tx, previous_height, previous_tx_out.
  repeat split; done.
Qed.

(** X11.  When [connect_input] returns [true], the input exists, its
    previous transaction was fetched and has the output spent, the running
    count of signature operations is within the block limit, the output's
    value and the running input value are within [max_money], the running
    value has grown by the output's value, the consensus check passed and
    the output was not spent already.  If the previous transaction is a
    coinbase confirmed at a height not above the block's (heights being
    [size_t] values), it is at least [coinbase_maturity] blocks deep. *)
Theorem connect_input_accepted (v : validate_block) (index_in_parent : Z)
    (current_tx : transaction) (input_index value_in total_sigops : Z)
    (value_in' total_sigops' : Z) :
  connect_input v index_in_parent current_tx input_index value_in total_sigops
  = defined (true, value_in', total_sigops') ->
  exists input previous_tx previous_height previous_tx_out,
    at_index (inputs current_tx) input_index = Some input
    /\ fetch_transaction v (point_hash (previous_output input))
       = Some (previous_tx, previous_height)
    /\ at_index (outputs previous_tx) (point_index (previous_output input))
       = Some previous_tx_out
    /\ total_sigops' <= max_block_script_sig_operations
    /\ value previous_tx_out <= max_money
    /\ value_in' = wrap64 (value_in + value previous_tx_out)
    /\ value_in' <= max_money
    /\ (is_coinbase previous_tx = true ->
        0 <= previous_height <= height_ v -> height_ v < 2 ^ 64 ->
        previous_height + coinbase_maturity <= height_ v)
    /\ validate_consensus (output_script previous_tx_out) current_tx
         input_index (block_header (current_block_ v)) (height_ v) = true
    /\ is_output_spent_by v (previous_output input) index_in_parent
         input_index = false.
Proof.
  intros Hc.
  destruct (connect_input_true _ _ _ _ _ _ _ _ Hc)
    as (input & previous_tx & previous_height & out & Hi & Hf & Ho & Hsig
        & Hval & Hsum & Hmax & Hmat & Hcons & Hspent).
  exists input, previous_tx, previous_height, out.
  repeat split; try done.
  intros Hcb Hh Hfit. rewrite Hcb in Hmat. simpl in Hmat.
  apply Z.ltb_ge in Hmat. rewrite wrap64_small in Hmat; lia.
Qed.

Lemma at_index_lookup {A : Type} (l : list A) (k : nat) :
  at_index l (Z.of_nat k) = l !! k.
Proof.
  unfold at_index. destruct (Z.ltb_spec (Z.of_nat k) 0); [lia|].
  by rewrite Nat2Z.id.
Qed.

Lemma validate_inputs_from_tally (v : validate_block) (tx : transaction)
    (index_in_parent : Z) (remaining k : nat)
    (value_in total_sigops value_in' total_sigops' : Z) :
  0 <= value_in <= max_money ->
  (forall i out, In i (inputs tx) -> spent_output v i = Some out ->
                 0 <= value out) ->
  validate_inputs_from v tx index_in_parent remaining (Z.of_nat k)
    value_in total_sigops
  = defined (true, value_in', total_sigops') ->
  exists outs,
    mapM (spent_output v) (take remaining (drop k (inputs tx))) = Some outs
    /\ length outs = remaining
    /\ value_in' = value_in + sum_of (map value outs)
    /\ value_in' <= max_money
    /\ (remaining <> 0%nat ->
        total_sigops' <= max_block_script_sig_operations).
Proof.
  intros Hin Hpos. revert k value_in total_sigops Hin.
  induction remaining as [|remaining IH];
    intros k value_in total_sigops Hin Hv.
  - simpl in Hv. injection Hv as <- <-. exists []. simpl.
    repeat split; try done; lia.
  - simpl in Hv.
    destruct (connect_input v index_in_parent tx (Z.of_nat k) value_in
                total_sigops) as [[[ok value_in1] total_sigops1]|]
      eqn:Hc; [|discriminate].
    destruct ok; [|discriminate].
    destruct (connect_input_true _ _ _ _ _ _ _ _ Hc)
      as (input & previous_tx & previous_height & out & Hi & Hf & Ho
          & Hsig & Hval & Hsum & Hmax & _).
    rewrite at_index_lookup in Hi.
    assert (Hspent : spent_output v input = Some out).
    { unfold spent_output. by rewrite Hf. }
    assert (Hnn : 0 <= value out).
    { apply (Hpos input); [|done].
      apply list_elem_of_In. by eapply list_elem_of_lookup_2. }
    rewrite wrap64_small in Hsum
      by (unfold max_money in *; lia).
    replace (Z.of_nat k + 1) with (Z.of_nat (S k)) in Hv by lia.
    destruct (IH (S k) value_in1 total_sigops1 ltac:(lia) Hv)
      as (outs & Hm & Hlen & Hsum' & Hmax' & Hsig').
    exists (out :: outs).
    rewrite (drop_S _ _ _ Hi). simpl. rewrite Hspent, Hm. simpl.
    repeat split; try done; try lia.
    intros _. destruct remaining as [|remaining']; [|by apply Hsig'].
    simpl in Hv. by injection Hv as <- <-.
Qed.

(** X12.  When [validate_inputs] returns [true] for a running input value
    within [max_money] (output values being unsigned), every input of the
    transaction spends an output the chain view has, the running value has
    grown by exactly the sum of the values of these outputs and is still
    within [max_money], and, for a transaction with an input, the running
    count of signature operations is within the block limit. *)
Theorem validate_inputs_tally (v : validate_block) (tx : transaction)
    (index_in_parent value_in total_sigops value_in' total_sigops' : Z) :
  0 <= value_in <= max_money ->
  (forall i out, In i (inputs tx) -> spent_output v i = Some out ->
                 0 <= value out) ->
  validate_inputs v tx index_in_parent value_in total_sigops
  = defined (true, value_in', total_sigops') ->
  exists outs,
    mapM (spent_output v) (inputs tx) = Some outs
    /\ value_in' = value_in + sum_of (map value outs)
    /\ value_in' <= max_money
    /\ (inputs tx <> [] ->
        total_sigops' <= max_block_script_sig_operations).
Proof.
  intros Hin Hpos Hv. unfold validate_inputs in Hv.
  destruct (validate_inputs_from_tally v tx index_in_parent
              (length (inputs tx)) 0 value_in total_sigops value_in'
              total_sigops' Hin Hpos Hv)
    as (outs & Hm & _ & Hsum & Hmax & Hsig).
  rewrite drop_0, firstn_all in Hm.
  exists outs. repeat split; try done.
  intros Hne. apply Hsig. by destruct (inputs tx).
Qed.

End accepted_inputs.

(** [connect_input_accepted] and [validate_inputs_tally] on the reference
    environment: the payment that spends the single output, worth 1000, of
    the known transaction 50. *)
Lemma connect_input_accepted_witness :
  exists input previous_tx previous_height previous_tx_out,
    at_index (inputs (reference.payment 7 50 0)) 0 = Some input
    /\ fetch_transaction
         (reference.validator_knowing 300000 reference.one_payment
            (reference.payment 50 49 0) 1000)
         (point_hash (previous_output input))
       = Some (previous_tx, previous_height)
    /\ at_index (outputs previous_tx) (point_index (previous_output input))
       = Some previous_tx_out
    /\ value previous_tx_out <= max_money.
Proof.
  destruct (connect_input_accepted (H := reference.library)
              (reference.validator_knowing 300000 reference.one_payment
                 (reference.payment 50 49 0) 1000)
              1 (reference.payment 7 50 0) 0 0 0 1000 0 eq_refl)
    as (input & previous_tx & previous_height & out & Hi & Hf & Ho & _
        & Hval & _).
  by exists input, previous_tx, previous_height, out.
Defined.

Lemma validate_inputs_tally_witness :
  exists outs,
    mapM (spent_output
            (reference.validator_knowing 300000 reference.one_payment
               (reference.payment 50 49 0) 1000))
         (inputs (reference.payment 7 50 0)) = Some outs
    /\ 1000 = 0 + sum_of (map value outs).
Proof.
  destruct (validate_inputs_tally (H := reference.library)
              (reference.validator_knowing 300000 reference.one_payment
                 (reference.payment 50 49 0) 1000)
              (reference.payment 7 50 0) 1 0 0 1000 0)
    as (outs & Hm & Hsum & _).
  - vm_compute. split; discriminate.
  - intros i out [<-|[]] Hs. vm_compute in Hs. injection Hs as <-.
    vm_compute. discriminate.
  - reflexivity.
  - by exists outs.
Defined.

(** ** std::remove_if: what is kept *)

Section std_remove_if_kept.
Context {A E : Type}.
Variable moved_from : A -> A -> A.
Variable pred : A -> list E * option bool.

Lemma std_find_if_kept (l : list A) (i first : nat) :
  snd (std_find_if pred l i) = Some first ->
  List.filter (not_selected pred) (take (first - i) l) = take (first - i) l
  /\ (i <= first <= i + length l)%nat
  /\ (first < i + length l ->
      exists x, l !! (first - i)%nat = Some x
                /\ not_selected pred x = false)%nat.
Proof.
  revert i. induction l as [|x l IH]; intros i; simpl.
  - intros [= <-]. rewrite Nat.sub_diag. repeat split; try done; lia.
  - destruct (pred x) as [ev [found|]] eqn:Ep; [|done].
    destruct found; simpl.
    + intros [= <-]. rewrite Nat.sub_diag. simpl. repeat split; try lia.
      intros _. exists x. split; [done|]. unfold not_selected. by rewrite Ep.
    + specialize (IH (S i)).
      destruct (std_find_if pred l (S i)) as [ev' r]. simpl in *.
      intros ->. destruct (IH eq_refl) as (Hf & Hj & Hx).
      replace (first - i)%nat with (S (first - S i)) by lia. simpl.
      unfold not_selected at 1. rewrite Ep. simpl. rewrite Hf.
      repeat split; try done; try lia.
      intros Hlt. apply Hx. lia.
Qed.

Lemma move_assign_take (buf : list A) (first i : nat) (x : A) :
  (first < i)%nat -> buf !! i = Some x ->
  take (S first) (move_assign moved_from buf first i) = take first buf ++ [x].
Proof.
  intros Hlt Hi. unfold move_assign. rewrite Hi.
  assert (Hf : is_Some (buf !! first)).
  { apply lookup_lt_is_Some. apply lookup_lt_Some in Hi. lia. }
  destruct Hf as [old Hold]. rewrite Hold.
  rewrite take_insert_ge by lia.
  apply lookup_lt_Some in Hold.
  rewrite (take_S_r _ _ x).
  - by rewrite take_insert_ge by lia.
  - by apply list_lookup_insert_eq.
Qed.

Lemma filter_take_S (orig : list A) (i : nat) (x : A) :
  orig !! i = Some x ->
  List.filter (not_selected pred) (take (S i) orig)
  = List.filter (not_selected pred) (take i orig)
    ++ (if not_selected pred x then [x] else []).
Proof.
  intros Hi. rewrite (take_S_r _ _ _ Hi), List.filter_app. simpl.
  by destruct (not_selected pred x).
Qed.

(** When the loop comes to its end, it has kept, below the write position,
    the elements examined that the predicate does not select, in their
    order. *)
Lemma remove_if_loop_kept (remaining : nat) (orig buf : list A)
    (first i f : nat) :
  (first < i <= length orig)%nat -> (length orig - i <= remaining)%nat ->
  length buf = length orig ->
  take first buf = List.filter (not_selected pred) (take i orig) ->
  drop i buf = drop i orig ->
  snd (remove_if_loop moved_from pred remaining buf first i) = Some f ->
  take f (snd (fst (remove_if_loop moved_from pred remaining buf first i)))
  = List.filter (not_selected pred) orig
  /\ (f <= length orig)%nat.
Proof.
  revert buf first i.
  induction remaining as [|remaining IH];
    intros buf first i Hlt Hrem Hlen Htake Hdrop.
  - simpl. intros [= <-].
    rewrite (take_ge orig i) in Htake by lia. split; [done | lia].
  - simpl. destruct (buf !! i) as [x|] eqn:Ei.
    + assert (Hoi : orig !! i = Some x).
      { rewrite <- (Nat.add_0_r i), <- lookup_drop, <- Hdrop, lookup_drop.
        by rewrite Nat.add_0_r. }
      pose proof (lookup_lt_Some _ _ _ Hoi) as Hi.
      pose proof (filter_take_S orig i x Hoi) as Hstep.
      unfold not_selected at 3 in Hstep.
      destruct (pred x) as [ev [drop_it|]]; [|done]. simpl in Hstep.
      assert (Hd : drop (S i) buf = drop (S i) orig).
      { replace (S i) with (i + 1)%nat by lia.
        by rewrite <- !drop_drop, Hdrop. }
      destruct drop_it; simpl in Hstep.
      * rewrite app_nil_r in Hstep.
        specialize (IH buf first (S i) ltac:(lia) ltac:(lia) Hlen).
        rewrite Hstep in IH. specialize (IH Htake Hd).
        destruct (remove_if_loop _ _ _ _ _ _) as [[? ?] ?]. exact IH.
      * specialize (IH (move_assign moved_from buf first i) (S first) (S i)
                      ltac:(lia) ltac:(lia)).
        rewrite move_assign_length in IH. specialize (IH Hlen).
        rewrite (move_assign_take buf first i x ltac:(lia) Ei) in IH.
        rewrite Hstep, Htake in IH. specialize (IH eq_refl).
        rewrite move_assign_drop in IH by lia.
        specialize (IH Hd).
        destruct (remove_if_loop _ _ _ _ _ _) as [[? ?] ?]. exact IH.
    + apply lookup_ge_None in Ei. intros [= <-].
      rewrite (take_ge orig i) in Htake by lia. simpl. split; [done | lia].
Qed.

(** When [std::remove_if] comes to its end, it leaves the elements that the
    predicate does not select at the front of the container, in their
    order, and returns the position after them. *)
Lemma std_remove_if_kept (buf : list A) (f : nat) :
  snd (std_remove_if moved_from pred buf) = Some f ->
  take f (snd (fst (std_remove_if moved_from pred buf)))
  = List.filter (not_selected pred) buf
  /\ f = length (List.filter (not_selected pred) buf).
Proof.
  intros Hf.
  assert (Hgoal : take f (snd (fst (std_remove_if moved_from pred buf)))
                  = List.filter (not_selected pred) buf
                  /\ (f <= length (snd (fst (std_remove_if moved_from pred
                                                buf))))%nat).
  { revert Hf. unfold std_remove_if.
    pose proof (std_find_if_kept buf 0) as Hfind.
    destruct (std_find_if pred buf 0) as [ev [first|]]; [|done].
    specialize (Hfind first eq_refl).
    rewrite Nat.sub_0_r in Hfind. destruct Hfind as (Hk & Hj & Hx).
    destruct (decide (first = length buf)) as [->|Hne]; simpl.
    - intros [= <-]. rewrite take_ge in * by lia. split; [done | lia].
    - destruct (Hx ltac:(lia)) as (x & Hxi & Hkx).
      pose proof (remove_if_loop_kept (length buf - S first) buf buf first
                    (S first) f) as Hloop.
      pose proof (remove_if_loop_length moved_from pred
                    (length buf - S first) buf first (S first)) as Hlen.
      destruct (remove_if_loop _ _ _ _ _ _) as [[ev' buf'] first'].
      simpl in *. intros Hf. rewrite Hlen. apply Hloop; try done.
      + apply lookup_lt_Some in Hxi. lia.
      + rewrite (filter_take_S buf first x Hxi), Hkx, app_nil_r. done. }
  destruct Hgoal as [Ht Hle]. split; [done|].
  rewrite <- Ht, length_take. lia.
Qed.

(** When the predicate selects no element and does not throw,
    [std::remove_if] leaves the container as it is. *)
Lemma std_remove_if_none (buf : list A) :
  Forall (fun x => not_selected pred x = true) buf ->
  snd (fst (std_remove_if moved_from pred buf)) = buf
  /\ snd (std_remove_if moved_from pred buf) = Some (length buf).
Proof.
  intros Hall.
  assert (Hfilter : List.filter (not_selected pred) buf = buf).
  { induction Hall as [|x l Hx _ IH]; simpl; [done|]. by rewrite Hx, IH. }
  destruct (snd (std_remove_if moved_from pred buf)) as [f|] eqn:Hr.
  - destruct (std_remove_if_kept buf f Hr) as [Ht Hf].
    rewrite Hfilter in Ht, Hf. subst f. split; [|done].
    rewrite <- (std_remove_if_length moved_from pred buf) in Ht.
    by rewrite firstn_all in Ht.
  - exfalso. apply (std_remove_if_throws moved_from pred buf) in Hr.
    apply Exists_exists in Hr as (x & Hin & Hx).
    rewrite Forall_forall in Hall. specialize (Hall x Hin).
    unfold not_selected, throws in *. rewrite Hx in Hall.
    by apply bool_decide_eq_true in Hall.
Qed.

End std_remove_if_kept.

(** ** transaction_pool: storing, querying and reorganizing *)

Section transaction_pool_behaviour.
Import transaction_pool.
Context `{pool_externals}.

(** The completion of a validation hands a code to the handler on the pool
    as it is; the code is [service_stopped] on a stopped pool, and it is
    [success] only when a running pool does not hold the hash. *)
Lemma validation_complete_handler (ec : code) (unconfirmed : index_list)
    (h : hash_digest) (handle_validate : handler) (p : pool) :
  exists ec' unconfirmed',
    validation_complete ec unconfirmed h handle_validate p
    = handle_validate ec' unconfirmed' p
    /\ (stopped_ p = true -> ec' = service_stopped /\ unconfirmed' = [])
    /\ (ec' = success -> stopped_ p = false /\ tx_exists p h = false).
Proof.
  unfold validation_complete, stopped.
  destruct (stopped_ p) eqn:Hs.
  { exists service_stopped, []. repeat split; done. }
  destruct (bool_decide (ec = input_not_found)
            || bool_decide (ec = validate_inputs_failed)) eqn:Hinf.
  { exists ec, unconfirmed. split; [done|]. split; [done|].
    intros ->. discriminate. }
  destruct (is_error ec) eqn:He.
  { exists ec, []. split; [done|]. split; [done|]. intros ->. discriminate. }
  destruct (tx_exists p h) eqn:Hex.
  { exists duplicate, []. split; [done|]. split; done. }
  exists success, unconfirmed. repeat split; done.
Qed.

(** Validation hands its outcome to the handler in the same way. *)
Lemma do_validate_handler (t : transaction) (handle_validate : handler)
    (p : pool) :
  exists ec unconfirmed,
    do_validate t handle_validate p = handle_validate ec unconfirmed p
    /\ (stopped_ p = true -> ec = service_stopped /\ unconfirmed = [])
    /\ (ec = success ->
        stopped_ p = false /\ tx_exists p (tx_hash t) = false).
Proof.
  unfold do_validate, stopped.
  destruct (stopped_ p) eqn:Hs.
  { exists service_stopped, []. repeat split; done. }
  destruct (validate_transaction_start t (buffer_ p)) as [ec unconfirmed].
  destruct (validation_complete_handler ec unconfirmed (tx_hash t)
              handle_validate p) as (ec' & unconfirmed' & Heq & Hstop & Hok).
  exists ec', unconfirmed'. split; [done|]. split; [done|].
  intros Hec. split; [done|]. by apply Hok.
Qed.

Lemma is_error_false (ec : code) : is_error ec = false <-> ec = success.
Proof. destruct ec; simpl; split; congruence. Qed.

(** The completion of a validation that stores, case by case: the code is
    passed on and nothing is stored; or the buffer has room and the entry
    is appended; or the buffer is full, and then the handler of its front
    entry receives [pool_filled] before the entry takes the place that
    the front entry leaves, unless that handler has no target or the
    buffer has no front at all. *)
Lemma wrap_validate_cases (t : transaction)
    (hc : std_function confirm_handler) (hv : validate_handler)
    (ec : code) (unconfirmed : index_list) (p : pool) :
  wrap_validate t hc hv ec unconfirmed p
  = if is_error ec then ([validate_called hv ec unconfirmed], p, returned)
    else if decide (length (buffer_ p) = capacity p) then
      match buffer_ p with
      | front :: rest =>
          match handle_confirm front with
          | Some target =>
              ([confirm_called target pool_filled;
                validate_called hv ec unconfirmed],
               set_buffer p (rest ++ [mk_entry (tx_hash t) t hc]), returned)
          | None => ([], p, bad_function_call)
          end
      | [] => ([], p, undefined_front)
      end
    else
      ([validate_called hv ec unconfirmed],
       set_buffer p (push_back (capacity p) (buffer_ p)
                       (mk_entry (tx_hash t) t hc)),
       returned).
Proof.
  unfold wrap_validate, and_then.
  destruct (is_error ec); [done|].
  unfold store_transaction, and_then, call_confirm, user_handler.
  destruct (decide (length (buffer_ p) = capacity p)) as [Hfull|Hroom];
    [|done].
  destruct (buffer_ p) as [|front rest] eqn:Hbuf; [done|].
  destruct (handle_confirm front) as [target|]; [|done].
  simpl. rewrite Hbuf. unfold push_back.
  destruct (decide (capacity p = 0%nat)) as [E|_]; [simpl in Hfull; lia|].
  by destruct (decide (length (front :: rest) = capacity p)).
Qed.

(** [store] on a running pool is such a completion, with [success] only
    for a transaction whose hash the pool does not hold. *)
Lemma store_running_outcome (t : transaction)
    (hc : std_function confirm_handler) (hv : validate_handler) (p : pool) :
  stopped_ p = false ->
  exists ec unconfirmed,
    store t hc hv p = wrap_validate t hc hv ec unconfirmed p
    /\ (ec = success -> tx_exists p (tx_hash t) = false).
Proof.
  intros Hs. unfold store, validate, stopped. rewrite Hs.
  destruct (do_validate_handler t (wrap_validate t hc hv) p)
    as (ec & unconfirmed & -> & _ & Hsuccess).
  exists ec, unconfirmed. split; [done|]. intros Hec. by apply Hsuccess.
Qed.

(** X13.  [store] on a running pool, by the code of the validation.  With
    a code other than [success] the validation handler receives it and
    nothing else happens.  With [success] the pool does not hold the hash;
    when the buffer has room the entry is pushed to its back and the
    validation handler is called; when the buffer is full the handler of
    its front entry receives [pool_filled], the entry takes the place the
    front entry leaves, and the validation handler is called last.  When
    that front handler has no target, [std::bad_function_call] is thrown
    before anything is stored and the validation handler is never called;
    a buffer of capacity 0 is full without a front. *)
Theorem store_on_running_pool (t : transaction)
    (hc : std_function confirm_handler) (hv : validate_handler) (p : pool) :
  stopped_ p = false ->
  exists ec unconfirmed,
    (ec <> success ->
     store t hc hv p = ([validate_called hv ec unconfirmed], p, returned))
    /\ (ec = success ->
        tx_exists p (tx_hash t) = false
        /\ store t hc hv p
           = if decide (length (buffer_ p) = capacity p) then
               match buffer_ p with
               | front :: rest =>
                   match handle_confirm front with
                   | Some target =>
                       ([confirm_called target pool_filled;
                         validate_called hv success unconfirmed],
                        set_buffer p (rest ++ [mk_entry (tx_hash t) t hc]),
                        returned)
                   | None => ([], p, bad_function_call)
                   end
               | [] => ([], p, undefined_front)
               end
             else
               ([validate_called hv success unconfirmed],
                set_buffer p (push_back (capacity p) (buffer_ p)
                                (mk_entry (tx_hash t) t hc)),
                returned)).
Proof.
  intros Hs.
  destruct (store_running_outcome t hc hv p Hs)
    as (ec & unconfirmed & Heq & Hsuccess).
  exists ec, unconfirmed. rewrite Heq, wrap_validate_cases. split.
  - intros Hne. destruct (is_error ec) eqn:He; [done|].
    by apply is_error_false in He.
  - intros ->. split; [by apply Hsuccess | done].
Qed.

Lemma tx_exists_false (p : pool) (h : hash_digest) :
  tx_exists p h = false <-> Forall (fun e => hash e <> h) (buffer_ p).
Proof.
  unfold tx_exists, tx_find. rewrite bool_decide_eq_false.
  induction (buffer_ p) as [|e b IH]; simpl.
  - split; [constructor | by intros _ [? ?]].
  - rewrite Forall_cons. destruct (bool_decide (hash e = h)) eqn:He.
    + apply bool_decide_eq_true in He. split; [|tauto].
      intros Hn. exfalso. apply Hn. by eexists.
    + apply bool_decide_eq_false in He. tauto.
Qed.

Lemma find_app_last {A : Type} (f : A -> bool) (l : list A) (x : A) :
  Forall (fun y => f y = false) l -> f x = true ->
  find f (l ++ [x]) = Some x.
Proof.
  intros Hl Hx. induction Hl as [|y l Hy Hl IH]; simpl.
  - by rewrite Hx.
  - by rewrite Hy.
Qed.

Lemma push_back_find (cap : nat) (b : pool_buffer)
    (e : transaction_entry_info) :
  cap <> 0%nat -> Forall (fun y => hash y <> hash e) b ->
  find (fun entry => bool_decide (hash entry = hash e)) (push_back cap b e)
  = Some e.
Proof.
  intros Hcap Hb. unfold push_back.
  destruct (decide (cap = 0%nat)); [done|].
  assert (Hf : forall l, Forall (fun y => hash y <> hash e) l ->
                 Forall (fun y => bool_decide (hash y = hash e) = false) l).
  { intros l Hl. eapply Forall_impl; [exact Hl|]. intros y Hy.
    by apply bool_decide_eq_false. }
  destruct (decide (length b = cap)).
  - apply find_app_last; [|by apply bool_decide_eq_true].
    apply Hf. destruct b; [done|]. by apply Forall_cons in Hb as [_ ?].
  - apply find_app_last; [by apply Hf | by apply bool_decide_eq_true].
Qed.

(** The pool after a [store] that has reported [success]: it is running,
    it did not hold the hash, it has lost its front entry when it was
    full, and the entry stands at its back. *)
Lemma store_reported_success (t : transaction)
    (hc : std_function confirm_handler) (hv : validate_handler) (p : pool) :
  stopped_ p = false ->
  validations (events_of (store t hc hv p)) = [(hv, success)] ->
  tx_exists p (tx_hash t) = false
  /\ ending_of (store t hc hv p) = returned
  /\ stopped_ (pool_of (store t hc hv p)) = false
  /\ capacity (pool_of (store t hc hv p)) = capacity p
  /\ buffer_ (pool_of (store t hc hv p))
     = push_back (capacity p) (buffer_ p) (mk_entry (tx_hash t) t hc)
  /\ (length (buffer_ p) = capacity p ->
      exists front rest target,
        buffer_ p = front :: rest
        /\ handle_confirm front = Some target
        /\ confirmations (events_of (store t hc hv p))
           = [(target, pool_filled)]
        /\ buffer_ (pool_of (store t hc hv p))
           = rest ++ [mk_entry (tx_hash t) t hc]).
Proof.
  intros Hs.
  destruct (store_running_outcome t hc hv p Hs)
    as (ec & unconfirmed & -> & Hsuccess).
  rewrite wrap_validate_cases.
  destruct (is_error ec) eqn:He.
  { unfold events_of. simpl. intros [= ->]. discriminate. }
  apply is_error_false in He. subst ec.
  specialize (Hsuccess eq_refl).
  destruct (decide (length (buffer_ p) = capacity p)) as [Hfull|Hroom].
  - destruct (buffer_ p) as [|front rest] eqn:Hbuf; [done|].
    destruct (handle_confirm front) as [target|] eqn:Hc; [|done].
    intros _. unfold events_of, pool_of, ending_of. simpl.
    split; [done|]. split; [done|]. split; [done|]. split; [done|].
    assert (Hpush : push_back (capacity p) (front :: rest)
                      (mk_entry (tx_hash t) t hc)
                    = rest ++ [mk_entry (tx_hash t) t hc]).
    { unfold push_back.
      destruct (decide (capacity p = 0%nat)); [simpl in Hfull; lia|].
      by destruct (decide (length (front :: rest) = capacity p)). }
    split; [by rewrite Hpush|].
    intros _. by exists front, rest, target.
  - intros _. unfold events_of, pool_of, ending_of. simpl.
    repeat split; done.
Qed.

(** X14.  After [store] has reported [success] on a running pool whose
    capacity is not zero, the pool holds the transaction: [fetch] of its
    hash reports [success] with that very transaction and [exists]
    reports [true]. *)
Theorem store_then_fetch (t : transaction)
    (hc : std_function confirm_handler) (hv : validate_handler)
    (hf : fetch_handler) (he : exists_handler) (p : pool) :
  stopped_ p = false -> capacity p <> 0%nat ->
  validations (events_of (store t hc hv p)) = [(hv, success)] ->
  let p' := pool_of (store t hc hv p) in
  fetch (tx_hash t) hf p' = ([fetch_called hf success (Some t)], p', returned)
  /\ exists_ (tx_hash t) he p'
     = ([exists_called he success true], p', returned).
Proof.
  intros Hs Hcap Hv p'.
  destruct (store_reported_success t hc hv p Hs Hv)
    as (Hex & _ & Hrun & _ & Hbuf & _).
  apply tx_exists_false in Hex.
  assert (Hfind : tx_find p' (tx_hash t) = Some (mk_entry (tx_hash t) t hc)).
  { unfold tx_find. fold p' in Hbuf. rewrite Hbuf.
    by apply (push_back_find (capacity p) (buffer_ p)
                (mk_entry (tx_hash t) t hc)). }
  fold p' in Hrun.
  unfold fetch, exists_, tx_exists, stopped. rewrite Hrun, Hfind. simpl.
  split; [done|]. do 3 f_equal.
Qed.

Lemma push_back_NoDup (cap : nat) (b : pool_buffer)
    (e : transaction_entry_info) :
  NoDup (map hash b) -> Forall (fun y => hash y <> hash e) b ->
  NoDup (map hash (push_back cap b e)).
Proof.
  intros Hnd Hb. unfold push_back.
  destruct (decide (cap = 0%nat)); [done|].
  assert (Happ : forall l, NoDup (map hash l) ->
                   Forall (fun y => hash y <> hash e) l ->
                   NoDup (map hash (l ++ [e]))).
  { intros l Hl Hle. rewrite map_app. apply NoDup_app. split; [done|].
    split; [|apply NoDup_singleton].
    intros h Hin Hin'. apply list_elem_of_singleton in Hin'. subst h.
    apply list_elem_of_fmap in Hin as (y & Hy & Hyl).
    rewrite Forall_forall in Hle. by apply (Hle y Hyl). }
  destruct (decide (length b = cap)); [|by apply Happ].
  destruct b as [|front rest]; [by apply Happ|]. simpl tail.
  simpl in Hnd. apply NoDup_cons in Hnd as [_ Hnd].
  apply Forall_cons in Hb as [_ Hb]. by apply Happ.
Qed.

(** The completion of a validation that stores keeps the hashes of a
    buffer of non-zero capacity distinct and never asks an empty buffer
    for its front. *)
Lemma wrap_validate_distinct (t : transaction)
    (hc : std_function confirm_handler) (hv : validate_handler)
    (ec : code) (unconfirmed : index_list) (p : pool) :
  capacity p <> 0%nat ->
  (ec = success -> tx_exists p (tx_hash t) = false) ->
  NoDup (map hash (buffer_ p)) ->
  NoDup (map hash (buffer_ (pool_of (wrap_validate t hc hv ec unconfirmed p))))
  /\ ending_of (wrap_validate t hc hv ec unconfirmed p) <> undefined_front.
Proof.
  intros Hcap Hsuccess Hnd. rewrite wrap_validate_cases.
  destruct (is_error ec) eqn:He; [done|].
  apply is_error_false in He. subst ec.
  specialize (Hsuccess eq_refl). apply tx_exists_false in Hsuccess.
  destruct (decide (length (buffer_ p) = capacity p)) as [Hfull|Hroom].
  - destruct (buffer_ p) as [|front rest] eqn:Hbuf; [simpl in Hfull; lia|].
    destruct (handle_confirm front);
      [|unfold pool_of, ending_of; simpl; by rewrite Hbuf].
    unfold pool_of, ending_of. simpl. split; [|done].
    pose proof (push_back_NoDup (capacity p) (front :: rest)
                  (mk_entry (tx_hash t) t hc) Hnd Hsuccess) as Hpush.
    unfold push_back in Hpush.
    destruct (decide (capacity p = 0%nat)); [done|].
    by destruct (decide (length (front :: rest) = capacity p)).
  - unfold pool_of, ending_of. simpl. split; [|done].
    by apply push_back_NoDup.
Qed.

(** X15.  No second entry with the same hash enters a pool of non-zero
    capacity: if the hashes of the buffer are pairwise distinct, they are
    still so after [store], however it ends, and also after the completion
    step of a validation that stores, whatever the validator reported and
    whatever the pool holds by then; neither asks an empty buffer for its
    front. *)
Theorem store_keeps_hashes_distinct (t : transaction)
    (hc : std_function confirm_handler) (hv : validate_handler) (p : pool) :
  capacity p <> 0%nat ->
  NoDup (map hash (buffer_ p)) ->
  (NoDup (map hash (buffer_ (pool_of (store t hc hv p))))
   /\ ending_of (store t hc hv p) <> undefined_front)
  /\ forall ec unconfirmed,
       NoDup (map hash
                (buffer_ (pool_of (validation_complete ec unconfirmed
                                     (tx_hash t) (wrap_validate t hc hv) p))))
       /\ ending_of (validation_complete ec unconfirmed (tx_hash t)
                       (wrap_validate t hc hv) p) <> undefined_front.
Proof.
  intros Hcap Hnd. split.
  - destruct (stopped_ p) eqn:Hs.
    { unfold store, stopped. by rewrite Hs. }
    destruct (store_running_outcome t hc hv p Hs)
      as (ec & unconfirmed & -> & Hsuccess).
    by apply wrap_validate_distinct.
  - intros ec unconfirmed.
    destruct (validation_complete_handler ec unconfirmed (tx_hash t)
                (wrap_validate t hc hv) p)
      as (ec' & unconfirmed' & -> & _ & Hsuccess).
    apply wrap_validate_distinct; [done | | done].
    intros Hec. by apply Hsuccess.
Qed.

(** X16.  The queries never change the pool, call their handler exactly
    once and return.  On a stopped pool they report [service_stopped].  On
    a running pool [fetch] reports [success] with the transaction of an
    entry that has the hash, or [not_found] when no entry has it, and
    [exists] reports whether some entry has the hash. *)
Theorem queries_leave_pool (p : pool) :
  (forall t hv, exists ec unconfirmed,
      validate t (user_handler hv) p
      = ([validate_called hv ec unconfirmed], p, returned)
      /\ (stopped_ p = true -> ec = service_stopped))
  /\ (forall h hf, exists ec found,
        fetch h hf p = ([fetch_called hf ec found], p, returned)
        /\ (stopped_ p = true -> ec = service_stopped /\ found = None)
        /\ (stopped_ p = false ->
            match found with
            | Some t =>
                ec = success
                /\ exists e, In e (buffer_ p) /\ hash e = h /\ tx e = t
            | None =>
                ec = not_found /\ Forall (fun e => hash e <> h) (buffer_ p)
            end))
  /\ (forall h he, exists ec found,
        exists_ h he p = ([exists_called he ec found], p, returned)
        /\ (stopped_ p = true -> ec = service_stopped /\ found = false)
        /\ (stopped_ p = false ->
            ec = success
            /\ (found = true <-> exists e, In e (buffer_ p) /\ hash e = h))).
Proof.
  split; [|split].
  - intros t hv. unfold validate.
    destruct (do_validate_handler t (user_handler hv) p)
      as (ec & unconfirmed & -> & Hstop & _).
    exists ec, unconfirmed. split; [done|]. intros Hs. by apply Hstop.
  - intros h hf. unfold fetch, stopped.
    destruct (stopped_ p) eqn:Hs.
    { exists service_stopped, None. repeat split; done. }
    destruct (tx_find p h) as [it|] eqn:Hfind.
    + exists success, (Some (tx it)). split; [done|]. split; [done|].
      intros _. split; [done|]. exists it.
      apply find_some in Hfind as [Hin Hh].
      apply bool_decide_eq_true in Hh. done.
    + exists not_found, None. split; [done|]. split; [done|].
      intros _. split; [done|]. apply tx_exists_false.
      unfold tx_exists. rewrite Hfind. apply bool_decide_eq_false.
      by intros [? ?].
  - intros h he. unfold exists_, stopped.
    destruct (stopped_ p) eqn:Hs.
    { exists service_stopped, false. repeat split; done. }
    exists success, (tx_exists p h). split; [done|]. split; [done|].
    intros _. split; [done|].
    destruct (tx_exists p h) eqn:Hex.
    + split; [intros _ | done].
      unfold tx_exists in Hex. apply bool_decide_eq_true in Hex as [it Hit].
      apply find_some in Hit as [Hin Hh].
      apply bool_decide_eq_true in Hh. by exists it.
    + split; [done|]. intros (e & Hin & Hh). exfalso.
      apply tx_exists_false in Hex. rewrite Forall_forall in Hex.
      apply (Hex e); [by apply list_elem_of_In | done].
Qed.

(** X17.  A reorganization notice that carries an error, [service_stopped]
    included, stops the pool and does nothing else: no handler is called,
    the pool does not subscribe again, and the buffer is kept.  From then
    on [store] is ignored and the queries report [service_stopped]. *)
Theorem reorganize_failure_stops (ec : code) (fork_point : Z)
    (new_blocks replaced_blocks : list block) (p : pool) :
  ec <> success ->
  let r := reorganize ec fork_point new_blocks replaced_blocks p in
  events_of r = []
  /\ ending_of r = returned
  /\ buffer_ (pool_of r) = buffer_ p
  /\ capacity (pool_of r) = capacity p
  /\ stopped_ (pool_of r) = true
  /\ (forall t hc hv, store t hc hv (pool_of r) = ([], pool_of r, returned))
  /\ (forall t hv,
        validate t (user_handler hv) (pool_of r)
        = ([validate_called hv service_stopped []], pool_of r, returned))
  /\ (forall h hf,
        fetch h hf (pool_of r)
        = ([fetch_called hf service_stopped None], pool_of r, returned))
  /\ (forall h he,
        exists_ h he (pool_of r)
        = ([exists_called he service_stopped false], pool_of r, returned)).
Proof.
  intros Hne r.
  assert (Hr : r = ([], mk_pool (buffer_ p) (capacity p) true, returned)).
  { subst r. unfold reorganize, stop.
    destruct (bool_decide (ec = service_stopped)); [done|].
    destruct (is_error ec) eqn:He; [done|].
    by apply is_error_false in He. }
  rewrite Hr. unfold events_of, pool_of, ending_of. simpl.
  repeat split; done.
Qed.

Lemma match_and_confirm_events (h : hash_digest)
    (entry : transaction_entry_info) :
  Forall (fun e => exists hc, e = confirm_called hc success)
    (fst (match_and_confirm h entry)).
Proof.
  unfold match_and_confirm.
  destruct (bool_decide (hash entry = h)); [|done].
  destruct (handle_confirm entry); [|done].
  repeat constructor. by eexists.
Qed.

(** The calls of [try_delete_tx] and their sequences keep the size, the
    capacity and the stop flag of the pool, whatever way they end, and the
    events they cause are confirmations with [success]. *)
Lemma try_delete_tx_shape (h : hash_digest) : keeps_shape (try_delete_tx h).
Proof.
  intros p. split; [apply try_delete_tx_size|].
  unfold try_delete_tx, stopped.
  destruct (stopped_ p) eqn:Hs; [by repeat split|].
  pose proof (std_remove_if_events_Forall moved_from (match_and_confirm h)
                (fun e => exists hc, e = confirm_called hc success)
                (buffer_ p) (match_and_confirm_events h)) as Hev.
  destruct (std_remove_if _ _ _) as [[ev buf] position].
  unfold events_of, pool_of, ending_of. simpl in *.
  repeat split; try done. by destruct position.
Qed.

Lemma and_then_shape (a b : action) :
  keeps_shape a -> keeps_shape b -> keeps_shape (and_then a b).
Proof.
  intros Ha Hb p. unfold and_then.
  destruct (Ha p) as (Hs & Hc & Hst & He & Hd).
  destruct (a p) as [[ev p1] e].
  unfold events_of, pool_of, ending_of in *. simpl in *.
  destruct e; [|done|done].
  destruct (Hb p1) as (Hs' & Hc' & Hst' & He' & Hd').
  destruct (b p1) as [[ev' p2] e'].
  unfold events_of, pool_of, ending_of in *. simpl in *.
  repeat split; try congruence. by apply Forall_app.
Qed.

Lemma sequence_shape (acts : list action) :
  Forall keeps_shape acts -> keeps_shape (sequence_ acts).
Proof.
  induction 1 as [|a acts Ha _ IH]; simpl.
  - intros p. by repeat split.
  - by apply and_then_shape.
Qed.

Lemma delete_confirmed_shape (new_blocks : list block) :
  keeps_shape (delete_confirmed new_blocks).
Proof.
  intros p. unfold delete_confirmed.
  destruct (stopped p); [by repeat split|].
  destruct (empty p); [by repeat split|].
  apply sequence_shape. apply Forall_forall. intros a Ha.
  apply list_elem_of_In, in_flat_map in Ha as (b & _ & Ha).
  apply in_map_iff in Ha as (t & <- & _). apply try_delete_tx_shape.
Qed.

(** X18.  A reorganization that replaces no block never changes the number
    of entries of the buffer, whatever the new blocks hold and whether it
    returns or is left by [std::bad_function_call]; the pool subscribes
    again, the only handlers called are confirmation handlers, and each
    of them receives [success]. *)
Theorem reorganize_extension_keeps_size (fork_point : Z)
    (new_blocks : list block) (p : pool) :
  let r := reorganize success fork_point new_blocks [] p in
  size (pool_of r) = size p
  /\ capacity (pool_of r) = capacity p
  /\ stopped_ (pool_of r) = stopped_ p
  /\ (exists events,
        events_of r = subscribe_reorganize :: events
        /\ Forall (fun e => exists hc, e = confirm_called hc success) events)
  /\ (ending_of r = returned \/ ending_of r = bad_function_call).
Proof.
  intros r. subst r. unfold reorganize. simpl.
  destruct (delete_confirmed_shape new_blocks p) as (Hs & Hc & Hst & He & Hd).
  destruct (delete_confirmed new_blocks p) as [[ev p'] e].
  unfold events_of, pool_of, ending_of in *. simpl in *.
  split; [done|]. split; [done|]. split; [done|].
  split; [by exists ev|]. destruct e; tauto.
Qed.

Lemma push_back_within (cap : nat) (b : pool_buffer)
    (e : transaction_entry_info) :
  (length b <= cap)%nat -> (length (push_back cap b e) <= cap)%nat.
Proof.
  intros Hle. unfold push_back.
  destruct (decide (cap = 0%nat)); [done|].
  destruct (decide (length b = cap)).
  - rewrite length_app. destruct b; simpl in *; lia.
  - rewrite length_app. simpl. lia.
Qed.

(** A member call on a pool of non-zero capacity that holds no more
    entries than its capacity leaves such a pool, whatever way it ends,
    and does not ask an empty buffer for its front. *)
Lemma perform_within_capacity (c : member_call) (p : pool) :
  capacity p <> 0%nat ->
  (size p <= capacity p)%nat ->
  (size (pool_of (perform c p)) <= capacity p)%nat
  /\ capacity (pool_of (perform c p)) = capacity p
  /\ ending_of (perform c p) <> undefined_front.
Proof.
  intros Hcap Hle. unfold size in *.
  destruct c as [| |t hv|t hc hv|h hf|h he|ec fork_point new_blocks replaced];
    simpl.
  - done.
  - done.
  - unfold validate.
    destruct (do_validate_handler t (user_handler hv) p)
      as (ec & uc & -> & _). done.
  - destruct (stopped_ p) eqn:Hs.
    { unfold store, stopped. by rewrite Hs. }
    destruct (store_running_outcome t hc hv p Hs)
      as (ec & unconfirmed & -> & _).
    rewrite wrap_validate_cases.
    destruct (is_error ec); [done|].
    destruct (decide (length (buffer_ p) = capacity p)) as [Hfull|Hroom].
    + destruct (buffer_ p) as [|front rest] eqn:Hbuf; [simpl in Hfull; lia|].
      destruct (handle_confirm front);
        unfold pool_of, ending_of; simpl; rewrite ?Hbuf; [|done].
      rewrite length_app. simpl in *. split; [lia | done].
    + unfold pool_of, ending_of. simpl. split; [|done].
      by apply push_back_within.
  - unfold fetch. destruct (stopped p); [done|].
    by destruct (tx_find p h).
  - unfold exists_. by destruct (stopped p).
  - unfold reorganize, stop.
    destruct (bool_decide (ec = service_stopped)); [done|].
    destruct (is_error ec); [done|].
    destruct (bool_decide (replaced = [])).
    + destruct (delete_confirmed_shape new_blocks p) as (Hs & Hc & _ & _ & Hd).
      unfold size in Hs.
      destruct (delete_confirmed new_blocks p) as [[ev p'] e].
      unfold pool_of, ending_of in *. simpl in *.
      split; [lia | done].
    + unfold invalidate_pool. destruct (stopped p); simpl; [done|].
      destruct (confirm_each_outcome (buffer_ p) blockchain_reorganized p)
        as (Hp & _ & _ & Hd).
      unfold and_then.
      destruct (confirm_each (buffer_ p) blockchain_reorganized p)
        as [[ev p'] e].
      unfold pool_of, ending_of in *. simpl in *. subst p'.
      destruct e; simpl; try done. split; [lia | done].
Qed.

(** X19.  Whatever calls a pool of non-zero capacity receives after its
    construction, in whatever order and up to the first call that does not
    return, the number of entries it holds never exceeds the capacity it
    was constructed with, and no call asks an empty buffer for its
    front. *)
Theorem pool_within_capacity (cap : nat) (calls : list member_call) :
  cap <> 0%nat ->
  let r := sequence_ (map perform calls) (create cap) in
  (size (pool_of r) <= cap)%nat
  /\ capacity (pool_of r) = cap
  /\ ending_of r <> undefined_front.
Proof.
  intros Hcap.
  assert (Hgen : forall p,
             capacity p <> 0%nat ->
             (size p <= capacity p)%nat ->
             (size (pool_of (sequence_ (map perform calls) p))
              <= capacity p)%nat
             /\ capacity (pool_of (sequence_ (map perform calls) p))
                = capacity p
             /\ ending_of (sequence_ (map perform calls) p)
                <> undefined_front).
  { induction calls as [|c calls IH]; intros p Hp Hle; simpl; [done|].
    destruct (perform_within_capacity c p Hp Hle) as (Hle1 & Hcap1 & Hd1).
    unfold and_then.
    destruct (perform c p) as [[ev p1] e].
    unfold pool_of, ending_of in *. simpl in *.
    destruct e; [|done|done].
    destruct (IH p1) as (Hle2 & Hcap2 & Hd2); [congruence | lia |].
    destruct (sequence_ (map perform calls) p1) as [[ev' p2] e'].
    simpl in *. split; [lia|]. split; [congruence | done]. }
  apply (Hgen (create cap)); [done|]. unfold size. simpl. lia.
Qed.

Lemma match_and_confirm_throws (h : hash_digest)
    (entry : transaction_entry_info) :
  throws (match_and_confirm h) entry
  <-> hash entry = h /\ ~ callable entry.
Proof.
  unfold throws, match_and_confirm, callable.
  destruct (bool_decide (hash entry = h)) eqn:Hh.
  - apply bool_decide_eq_true in Hh.
    destruct (handle_confirm entry); simpl.
    + split; [done|]. intros [_ Hn]. destruct Hn. by eexists.
    + split; [|done]. intros _. split; [done|]. by intros [? ?].
  - apply bool_decide_eq_false in Hh. simpl. split; [done | tauto].
Qed.

Lemma match_and_confirm_not_selected (h : hash_digest)
    (entry : transaction_entry_info) :
  not_selected (match_and_confirm h) entry = other_hash h entry.
Proof.
  unfold not_selected, match_and_confirm, other_hash.
  destruct (bool_decide (hash entry = h)); [|done].
  by destruct (handle_confirm entry).
Qed.

(** X20.  [try_delete_tx] on a running pool returns exactly when every
    entry with the hash holds a handler with a target; otherwise it is
    left by [std::bad_function_call].  When it returns, the entries with
    another hash stand at the front of the buffer, in their order; what
    follows them are the leftovers of [std::remove_if].  When no entry has
    the hash, no handler is called and the pool is unchanged. *)
Theorem try_delete_tx_keeps_others (h : hash_digest) (p : pool) :
  stopped_ p = false ->
  let kept := List.filter (other_hash h) (buffer_ p) in
  (ending_of (try_delete_tx h p) = returned
   <-> Forall (fun entry => hash entry = h -> callable entry) (buffer_ p))
  /\ (ending_of (try_delete_tx h p) <> returned ->
      ending_of (try_delete_tx h p) = bad_function_call)
  /\ (ending_of (try_delete_tx h p) = returned ->
      take (length kept) (buffer_ (pool_of (try_delete_tx h p))) = kept)
  /\ (kept = buffer_ p -> try_delete_tx h p = ([], p, returned)).
Proof.
  intros Hs kept.
  assert (Hfilter : List.filter (not_selected (match_and_confirm h))
                      (buffer_ p) = kept).
  { subst kept. apply filter_agree, Forall_forall. intros e _.
    apply match_and_confirm_not_selected. }
  pose proof (std_remove_if_throws moved_from (match_and_confirm h)
                (buffer_ p)) as Hthrows.
  pose proof (std_remove_if_kept moved_from (match_and_confirm h)
                (buffer_ p)) as Hkept.
  pose proof (std_remove_if_none moved_from (match_and_confirm h)
                (buffer_ p)) as Hnone.
  pose proof (std_remove_if_events moved_from (match_and_confirm h)
                (buffer_ p)) as Hevents.
  unfold try_delete_tx, stopped. rewrite Hs.
  destruct (std_remove_if moved_from (match_and_confirm h) (buffer_ p))
    as [[ev buf] position].
  unfold events_of, pool_of, ending_of. simpl in *.
  split; [|split; [|split]].
  - destruct position as [f|].
    + split; [intros _ | done].
      apply Forall_forall. intros e He Hh.
      destruct (decide (callable e)) as [|Hn]; [done|]. exfalso.
      assert (Hex : Exists (throws (match_and_confirm h)) (buffer_ p)).
      { apply Exists_exists. exists e. split; [done|].
        by apply match_and_confirm_throws. }
      by apply Hthrows in Hex.
    + split; [done|]. intros Hall. exfalso.
      pose proof (proj1 Hthrows eq_refl) as Hex.
      apply Exists_exists in Hex as (e & He & Hx).
      apply match_and_confirm_throws in Hx as [Hh Hn].
      rewrite Forall_forall in Hall. by apply Hn, Hall.
  - by destruct position.
  - destruct position as [f|]; [|done]. intros _.
    destruct (Hkept f eq_refl) as [Ht Hf].
    rewrite Hfilter in Ht, Hf. by subst f.
  - intros Hall.
    assert (Hsel : Forall (fun x => not_selected (match_and_confirm h) x
                                    = true) (buffer_ p)).
    { apply Forall_forall. intros e He.
      rewrite match_and_confirm_not_selected.
      fold kept in Hfilter. rewrite <- Hall in He. subst kept.
      apply list_elem_of_In, filter_In in He. tauto. }
    destruct (Hnone Hsel) as [-> ->].
    rewrite (Hevents _ eq_refl).
    assert (Hev : flat_map (fun x => fst (match_and_confirm h x)) (buffer_ p)
                  = []).
    { clear -Hsel. induction Hsel as [|e b He _ IH]; simpl; [done|].
      rewrite IH, app_nil_r.
      rewrite match_and_confirm_not_selected in He.
      unfold other_hash in He. unfold match_and_confirm.
      by destruct (bool_decide (hash e = h)). }
    rewrite Hev. by destruct p.
Qed.

End transaction_pool_behaviour.

(** [store_on_running_pool] on a full pool of capacity 2: the new
    transaction is accepted and the handler of the front entry receives
    [pool_filled]. *)
Lemma store_on_running_pool_witness :
  let p := transaction_pool.mk_pool
             [reference.entry 7 1%nat; reference.entry 8 2%nat] 2 false in
  let r := transaction_pool.store (H := reference.pool)
             (reference.payment 9 53 0) (Some 4%nat) 5%nat p in
  transaction_pool.ending_of r = transaction_pool.returned
  /\ validations (transaction_pool.events_of r) = [(5%nat, success)]
  /\ confirmations (transaction_pool.events_of r) = [(1%nat, pool_filled)]
  /\ transaction_pool.buffer_ (transaction_pool.pool_of r)
     = [reference.entry 8 2%nat;
        transaction_pool.mk_entry 9 (reference.payment 9 53 0) (Some 4%nat)].
Proof.
  intros p r.
  destruct (store_on_running_pool (H := reference.pool)
              (reference.payment 9 53 0) (Some 4%nat) 5%nat p eq_refl)
    as (ec & unconfirmed & Hfail & Hsuccess).
  destruct (decide (ec = success)) as [->|Hne].
  - destruct (Hsuccess eq_refl) as [_ Heq]. subst r. rewrite Heq.
    vm_compute. repeat split; reflexivity.
  - specialize (Hfail Hne). vm_compute in Hfail. discriminate.
Defined.

(** [store_then_fetch] on a running pool that holds one entry. *)
Lemma store_then_fetch_witness :
  let p := transaction_pool.mk_pool [reference.entry 7 1%nat] 2 false in
  let p' := transaction_pool.pool_of
              (transaction_pool.store (H := reference.pool)
                 (reference.payment 9 53 0) (Some 4%nat) 5%nat p) in
  transaction_pool.fetch 9 6%nat p'
  = ([transaction_pool.fetch_called 6%nat success
        (Some (reference.payment 9 53 0))], p', transaction_pool.returned).
Proof.
  intros p p'.
  apply (store_then_fetch (H := reference.pool) (reference.payment 9 53 0)
           (Some 4%nat) 5%nat 6%nat 0%nat p).
  - reflexivity.
  - discriminate.
  - reflexivity.
Defined.

(** [store_keeps_hashes_distinct] when the transaction is already in the
    pool. *)
Lemma store_keeps_hashes_distinct_witness :
  let p := transaction_pool.mk_pool
             [reference.entry 7 1%nat; reference.entry 8 2%nat] 4 false in
  NoDup (map transaction_pool.hash
           (transaction_pool.buffer_
              (transaction_pool.pool_of
                 (transaction_pool.store (H := reference.pool)
                    (reference.payment 7 50 0) (Some 4%nat) 5%nat p)))).
Proof.
  intros p.
  apply (store_keeps_hashes_distinct (H := reference.pool)
           (reference.payment 7 50 0) (Some 4%nat) 5%nat p).
  - discriminate.
  - apply (bool_decide_unpack _). vm_compute. reflexivity.
Defined.

(** [reorganize_failure_stops] on a running pool that holds one entry. *)
Lemma reorganize_failure_stops_witness :
  let p := transaction_pool.mk_pool [reference.entry 7 1%nat] 2 false in
  let r := transaction_pool.reorganize (H := reference.pool)
             operation_failed 10 [reference.coinbase_only] [] p in
  transaction_pool.events_of r = []
  /\ transaction_pool.buffer_ (transaction_pool.pool_of r)
     = [reference.entry 7 1%nat]
  /\ transaction_pool.stopped_ (transaction_pool.pool_of r) = true.
Proof.
  intros p r.
  destruct (reorganize_failure_stops (H := reference.pool) operation_failed
              10 [reference.coinbase_only] [] p)
    as (Hev & _ & Hbuf & _ & Hst & _).
  - discriminate.
  - by repeat split.
Defined.

(** [pool_within_capacity] on a pool of capacity 2 that is started and
    stores three transactions. *)
Lemma pool_within_capacity_witness :
  let r := transaction_pool.sequence_
             (map (perform (H := reference.pool))
                [call_start;
                 call_store (reference.payment 7 50 0) (Some 1%nat) 11%nat;
                 call_store (reference.payment 8 50 0) (Some 2%nat) 12%nat;
                 call_store (reference.payment 9 50 0) (Some 3%nat) 13%nat])
             (transaction_pool.create 2) in
  (transaction_pool.size (transaction_pool.pool_of r) <= 2)%nat
  /\ transaction_pool.ending_of r <> transaction_pool.undefined_front.
Proof.
  intros r.
  destruct (pool_within_capacity (H := reference.pool) 2
              [call_start;
               call_store (reference.payment 7 50 0) (Some 1%nat) 11%nat;
               call_store (reference.payment 8 50 0) (Some 2%nat) 12%nat;
               call_store (reference.payment 9 50 0) (Some 3%nat) 13%nat])
    as (Hsize & _ & Hdefined).
  - discriminate.
  - split; [exact Hsize | exact Hdefined].
Defined.

(** [try_delete_tx_keeps_others] on a buffer in which the first and the
    third of four entries have the hash 7. *)
Lemma try_delete_tx_keeps_others_witness :
  let p := transaction_pool.mk_pool
             [reference.entry 7 1%nat; reference.entry 8 2%nat;
              reference.entry 7 3%nat; reference.entry 9 4%nat] 4 false in
  take 2 (transaction_pool.buffer_
            (transaction_pool.pool_of
               (transaction_pool.try_delete_tx (H := reference.pool) 7 p)))
  = [reference.entry 8 2%nat; reference.entry 9 4%nat].
Proof.
  intros p.
  destruct (try_delete_tx_keeps_others (H := reference.pool) 7 p eq_refl)
    as (_ & _ & Htake & _).
  apply Htake. reflexivity.
Defined.

(** A running pool holds the entries 7 and 8, and the new block of a fork
    event that replaces nothing contains both transactions.  The handler
    of 7 receives [success] and the entry of 8 is moved to the front; for
    hash 8 the handler of the moved entry receives [success], and the
    leftover behind it, which has the same hash and a handler without
    target, ends the reorganization by [std::bad_function_call]. *)
Example reorganize_extension_throws :
  let p := transaction_pool.mk_pool
             [reference.entry 7 1%nat; reference.entry 8 2%nat] 2 false in
  let new_block := reference.block_of 2
                     [reference.coinbase 100 [1; 2; 3];
                      reference.payment 7 50 0; reference.payment 8 50 0] in
  transaction_pool.reorganize (H := reference.pool) success 10
    [new_block] [] p
  = ([transaction_pool.subscribe_reorganize;
      transaction_pool.confirm_called 1%nat success;
      transaction_pool.confirm_called 2%nat success],
     transaction_pool.mk_pool
       [reference.entry 8 2%nat; reference.moved_from_entry 8] 2 false,
     transaction_pool.bad_function_call).
Proof. vm_compute. reflexivity. Qed.

(** ** populate_chain_state: the reader calls *)

Section populate_reader_calls.
Import populate_chain_state.
Context `{chain_state.library} `{!fast_chain}.
Variable branch : header_branch.t.
Variable block : bool.

Lemma reader_queries_app (l1 l2 : list (kind * Z)) :
  reader_queries branch block (l1 ++ l2)
  = reader_queries branch block l1 ++ reader_queries branch block l2.
Proof. unfold reader_queries. apply flat_map_app. Qed.

Lemma reads_of_ret {A : Type} (succeeded : A -> bool) (a : A) :
  reads_of branch block succeeded (rret a) [].
Proof. split; [by exists 0%nat | done]. Qed.

Lemma reads_of_bind {A B : Type} (s1 : A -> bool) (s2 : B -> bool)
    (m : R A) (f : A -> R B) (l1 l2 : list (kind * Z)) :
  reads_of branch block s1 m l1 ->
  (forall a, s1 a = true -> reads_of branch block s2 (f a) l2) ->
  (forall a, s1 a = false -> snd (f a) = [] /\ s2 (fst (f a)) = false) ->
  reads_of branch block s2 (rbind m f) (l1 ++ l2).
Proof.
  intros [[c Hc] Hm] Hf Hfail. unfold rbind.
  destruct m as [a log]. simpl in *.
  destruct (s1 a) eqn:Hs.
  - specialize (Hm eq_refl). clear Hc. subst log.
    destruct (Hf a Hs) as [[c' Hc'] Hfa].
    destruct (f a) as [b log']. simpl in *. split.
    + exists (length l1 + c')%nat.
      rewrite take_app_add, reader_queries_app. by rewrite Hc'.
    + intros Hb. by rewrite reader_queries_app, (Hfa Hb).
  - destruct (Hfail a Hs) as [Hlog Hb].
    destruct (f a) as [b log']. simpl in *. subst log'. split.
    + rewrite app_nil_r.
      destruct (decide (c <= length l1)%nat).
      * exists c. by rewrite take_app_le.
      * exists (length l1). rewrite take_app_length.
        rewrite take_ge in Hc by lia. done.
    + intros Hb'. simpl in Hb'. congruence.
Qed.

(** Whether a getter found a value. *)
Lemma reads_of_get (k : kind) (height : Z) :
  reads_of branch block (fun r : option Z => bool_decide (is_Some r))
    (get k height branch block) [(k, height)].
Proof.
  assert (Hlog : snd (get k height branch block)
                 = reader_queries branch block [(k, height)]).
  { unfold get, ask, reader_queries. simpl.
    by destruct (branch_get k branch height). }
  split; [|done]. exists 1%nat. done.
Qed.

(** A getter followed by the storing of its value. *)
Lemma reads_of_get_then {A : Type} (k : kind) (height : Z)
    (failed : A) (stored : Z -> A) :
  reads_of branch block (fun r : bool * A => fst r)
    (rbind (get k height branch block)
       (fun r => match r with
                 | None => rret (false, failed)
                 | Some x => rret (true, stored x)
                 end))
    [(k, height)].
Proof.
  rewrite <- (app_nil_r [(k, height)]).
  eapply reads_of_bind; [apply reads_of_get | |].
  - intros [x|] _; apply reads_of_ret.
  - intros [x|] Hr; [|done].
    apply bool_decide_eq_false in Hr. exfalso. apply Hr. by eexists.
Qed.

Lemma reads_of_fill (k : kind) (n i : nat) (height : Z) (ordered : list Z) :
  reads_of branch block (fun r : bool * list Z => fst r)
    (fill k branch block n i height ordered)
    (map (pair k)
       (map (fun j => wrap64 (height + 1 + Z.of_nat j)) (seq 0 n))).
Proof.
  revert i height ordered. induction n as [|n IH]; intros i height ordered.
  - apply reads_of_ret.
  - rewrite heights_step.
    change (fill k branch block (S n) i height ordered)
      with (rbind (get k (wrap64 (height + 1)) branch block)
              (fun r => match r with
                        | None => rret (false, ordered)
                        | Some x =>
                            fill k branch block n (S i)
                              (wrap64 (height + 1)) (<[i:=x]> ordered)
                        end)).
    apply (reads_of_bind (fun r : option Z => bool_decide (is_Some r)) _ _ _
             [(k, wrap64 (height + 1))]).
    + apply reads_of_get.
    + intros [x|] _; [apply IH|].
      split; [by exists 0%nat | done].
    + intros [x|] Hr; [|done].
      apply bool_decide_eq_false in Hr. exfalso. apply Hr. by eexists.
Qed.

Lemma reads_of_populate_range (k : kind) (r : chain_state.range)
    (ordered : list Z) :
  reads_of branch block (fun r : bool * list Z => fst r)
    (populate_range k r ordered branch block)
    (map (pair k) (range_heights r)).
Proof.
  unfold populate_range. rewrite length_resize, <- range_heights_loop.
  apply reads_of_fill.
Qed.

Lemma reads_of_populate_bits (d : chain_state.data) (m : chain_state.map) :
  reads_of branch block (fun r : bool * chain_state.data => fst r)
    (populate_bits d m branch block)
    (map (pair k_bits) (range_heights (chain_state.map_bits m))
     ++ [(k_bits, chain_state.map_bits_self m)]).
Proof.
  unfold populate_bits, get_bits, mbind, R_bind.
  apply (reads_of_bind (fun r : bool * list Z => fst r)).
  - apply reads_of_populate_range.
  - intros [ok bits] Hok. simpl in Hok. subst ok. apply reads_of_get_then.
  - intros [ok bits] Hok. simpl in Hok. subst ok. done.
Qed.

Lemma reads_of_populate_versions (d : chain_state.data)
    (m : chain_state.map) :
  reads_of branch block (fun r : bool * chain_state.data => fst r)
    (populate_versions d m branch block)
    (map (pair k_version) (range_heights (chain_state.map_version m))
     ++ [(k_version, chain_state.map_version_self m)]).
Proof.
  unfold populate_versions, get_version, mbind, R_bind.
  apply (reads_of_bind (fun r : bool * list Z => fst r)).
  - apply reads_of_populate_range.
  - intros [ok versions] Hok. simpl in Hok. subst ok.
    apply reads_of_get_then.
  - intros [ok versions] Hok. simpl in Hok. subst ok. done.
Qed.

Lemma reads_of_populate_timestamps (d : chain_state.data)
    (m : chain_state.map) :
  reads_of branch block (fun r : bool * chain_state.data => fst r)
    (populate_timestamps d m branch block)
    (map (pair k_timestamp) (range_heights (chain_state.map_timestamp m))
     ++ (if bool_decide (chain_state.map_timestamp_retarget m
                         = chain_state.unrequested)
         then [] else [(k_timestamp, chain_state.map_timestamp_retarget m)])
     ++ [(k_timestamp, chain_state.map_timestamp_self m)]).
Proof.
  unfold populate_timestamps, get_timestamp, mbind, R_bind. cbv zeta.
  apply (reads_of_bind (fun r : bool * list Z => fst r)).
  - apply reads_of_populate_range.
  - intros [ok timestamps] Hok. simpl in Hok. subst ok. simpl negb. cbv iota.
    apply (reads_of_bind (fun r : bool * chain_state.data => fst r)).
    + destruct (decide (chain_state.map_timestamp_retarget m
                        = chain_state.unrequested)) as [Er|Er].
      * rewrite (bool_decide_eq_true_2 _ Er).
        rewrite bool_decide_eq_false_2 by (intros Hc; by apply Hc).
        apply reads_of_ret.
      * rewrite (bool_decide_eq_false_2 _ Er).
        rewrite (bool_decide_eq_true_2 _ Er).
        apply reads_of_get_then.
    + intros [ok d'] Hok. simpl in Hok. subst ok. apply reads_of_get_then.
    + intros [ok d'] Hok. simpl in Hok. subst ok. done.
  - intros [ok timestamps] Hok. simpl in Hok. subst ok. done.
Qed.

Lemma reads_of_populate_checkpoint (d : chain_state.data)
    (m : chain_state.map) :
  reads_of branch block (fun r : bool * chain_state.data => fst r)
    (populate_checkpoint d m branch block)
    (if bool_decide (chain_state.map_allow_collisions_height m
                     = chain_state.unrequested)
     then [] else [(k_block_hash, chain_state.map_allow_collisions_height m)]).
Proof.
  unfold populate_checkpoint, get_block_hash, mbind, R_bind.
  destruct (bool_decide _); [apply reads_of_ret | apply reads_of_get_then].
Qed.

Lemma reads_of_and_then (a : R (bool * chain_state.data))
    (b : chain_state.data -> R (bool * chain_state.data))
    (l1 l2 : list (kind * Z)) :
  reads_of branch block (fun r : bool * chain_state.data => fst r) a l1 ->
  (forall d, reads_of branch block
               (fun r : bool * chain_state.data => fst r) (b d) l2) ->
  reads_of branch block (fun r : bool * chain_state.data => fst r)
    (and_then a b) (l1 ++ l2).
Proof.
  intros Ha Hb. unfold and_then.
  apply (reads_of_bind (fun r : bool * chain_state.data => fst r));
    [done | |].
  - intros [ok d] Hok. simpl in Hok. subst ok. apply Hb.
  - intros [ok d] Hok. simpl in Hok. subst ok. done.
Qed.

(** X21.  [populate_all] asks the reader for nothing but attributes that
    the chain-state map requires and the branch does not cover, in the
    order of the map and each time with the caller's index flag: its calls
    are those of looking up a prefix of the required attributes, and of
    all of them when it succeeds. *)
Theorem populate_all_reader_calls (p : t) (d : chain_state.data) :
  let m := chain_state.get_map (chain_state.height d)
             (checkpoints_ p) (forks_ p) in
  (exists c,
      snd (populate_all p d branch block)
      = reader_queries branch block (take c (required m)))
  /\ (fst (fst (populate_all p d branch block)) = true ->
      snd (populate_all p d branch block)
      = reader_queries branch block (required m)).
Proof.
  intros m.
  assert (Hr : reads_of branch block
                 (fun r : bool * chain_state.data => fst r)
                 (populate_all p d branch block) (required m)).
  { assert (Hreq : required m
                    = (map (pair k_bits)
                         (range_heights (chain_state.map_bits m))
                       ++ [(k_bits, chain_state.map_bits_self m)])
                      ++ (map (pair k_version)
                            (range_heights (chain_state.map_version m))
                          ++ [(k_version, chain_state.map_version_self m)])
                      ++ (map (pair k_timestamp)
                            (range_heights (chain_state.map_timestamp m))
                          ++ (if bool_decide
                                   (chain_state.map_timestamp_retarget m
                                    = chain_state.unrequested)
                              then []
                              else [(k_timestamp,
                                     chain_state.map_timestamp_retarget m)])
                          ++ [(k_timestamp,
                               chain_state.map_timestamp_self m)])
                      ++ (if bool_decide
                               (chain_state.map_allow_collisions_height m
                                = chain_state.unrequested)
                          then []
                          else [(k_block_hash,
                                 chain_state.map_allow_collisions_height m)])).
    { unfold required. by rewrite <- !app_assoc. }
    rewrite Hreq. unfold populate_all. fold m.
    apply reads_of_and_then; [apply reads_of_populate_bits|]. intros d1.
    apply reads_of_and_then; [apply reads_of_populate_versions|]. intros d2.
    apply reads_of_and_then; [apply reads_of_populate_timestamps|].
    intros d3. apply reads_of_populate_checkpoint. }
  exact Hr.
Qed.

End populate_reader_calls.

(** [populate_all_reader_calls] on the reference environment: for the top
    of [reference.branch_above_3] the branch covers heights 4 and 5, and
    the reader is asked for the version of height 3 and the timestamps of
    heights 2 and 3. *)
Lemma populate_all_reader_calls_witness :
  snd (populate_chain_state.populate_all (H := reference.chain_states)
         (H0 := reference.reader reference.indexed_chain false)
         reference.populator
         (chain_state.set_height chain_state.default_data 5)
         reference.branch_above_3 false)
  = [populate_chain_state.mk_query populate_chain_state.k_version 3 false;
     populate_chain_state.mk_query populate_chain_state.k_timestamp 2 false;
     populate_chain_state.mk_query populate_chain_state.k_timestamp 3 false].
Proof.
  rewrite (proj2 (populate_all_reader_calls (H := reference.chain_states)
                    (H0 := reference.reader reference.indexed_chain false)
                    reference.branch_above_3 false reference.populator
                    (chain_state.set_height chain_state.default_data 5)));
    reflexivity.
Defined.

(** ** populate_chain_state: the state of the top block *)

Section populate_top_properties.
Import populate_chain_state.
Context `{chain_state.library} `{!fast_chain}.

Lemma no_branch_get (k : kind) (height : Z) :
  branch_get k no_branch height = None.
Proof.
  unfold branch_get, header_branch.get_bits, header_branch.get_version,
    header_branch.get_timestamp, header_branch.get_block_hash,
    header_branch.at_height, no_branch.
  simpl. destruct k; by destruct (height <=? 0).
Qed.

Lemma no_branch_lookup (block : bool) (k : kind) (height : Z) :
  lookup no_branch block k height = reader_get k height block.
Proof. unfold lookup. by rewrite no_branch_get. Qed.

(** X22.  [populate(block_index)], the state of the top block or header:
    without a top height there is no state and the reader is asked nothing
    more; without the hash of the top there is no state either.  Otherwise
    there is no state exactly when the reader lacks an attribute that the
    chain-state map of the top height requires; a state that is returned
    is built from data with the top's height and hash in which every
    required member holds the reader's value; and every call of the reader
    carries the index flag of the call. *)
Theorem populate_top_state (p : t) (block_index : bool) :
  match get_block_height block_index with
  | None => populate_top p block_index = (None, [])
  | Some height =>
      match reader_get k_block_hash height block_index with
      | None =>
          populate_top p block_index
          = (None, [mk_query k_block_hash height block_index])
      | Some hash =>
          let m := chain_state.get_map height (checkpoints_ p) (forks_ p) in
          (fst (populate_top p block_index) = None
           <-> exists a, In a (required m)
                         /\ reader_get (fst a) (snd a) block_index = None)
          /\ (forall st,
                fst (populate_top p block_index) = Some st ->
                exists d,
                  st = chain_state.make d (checkpoints_ p) (forks_ p)
                         (stale_seconds_ p)
                  /\ complete_data m no_branch block_index d
                  /\ chain_state.height d = height
                  /\ chain_state.hash d = hash)
          /\ Forall (fun q => query_block q = block_index)
               (snd (populate_top p block_index))
      end
  end.
Proof.
  unfold populate_top.
  destruct (get_block_height block_index) as [height|]; [|done].
  unfold ask, mbind, R_bind.
  destruct (reader_get k_block_hash height block_index) as [hash|] eqn:Ehash;
    [|by unfold rbind; simpl].
  unfold rbind, rret. cbv beta iota.
  set (m := chain_state.get_map height (checkpoints_ p) (forks_ p)).
  set (d0 := chain_state.set_height
               (chain_state.set_hash chain_state.default_data hash) height).
  pose proof (populate_all_result no_branch block_index p d0) as [Hok Hdata].
  pose proof (populate_all_branch_first no_branch block_index p d0) as Hbf.
  change (chain_state.height d0) with height in Hok, Hdata.
  fold m in Hok, Hdata.
  destruct (populate_all p d0 no_branch block_index) as [[ok d'] log] eqn:Ep.
  simpl in *. split; [|split].
  - assert (Hiff : (exists a, In a (required m)
                              /\ reader_get (fst a) (snd a) block_index = None)
                   <-> exists a, In a (required m)
                                 /\ ~ available no_branch block_index a).
    { split; intros (a & Hin & Ha); exists a; (split; [done|]);
        unfold available in *; rewrite no_branch_lookup in *.
      - rewrite Ha. by intros [? ?].
      - by apply eq_None_not_Some. }
    rewrite Hiff, <- not_all_available, <- Hok.
    destruct ok; simpl; split; (done || congruence).
  - intros st Hst. destruct ok; simpl in Hst; [|discriminate].
    injection Hst as <-. exists d'.
    destruct (Hdata eq_refl) as (Hc & Hh & Hhash). done.
  - destruct ok; simpl; rewrite app_nil_r; (constructor; [done|]);
      (eapply Forall_impl; [exact Hbf|]); by intros q [_ ?].
Qed.

End populate_top_properties.

(** [populate_top_state] on the reference environment: over the four
    indexed headers the top is height 3, and every call of the reader
    carries the flag of the call. *)
Lemma populate_top_state_witness :
  Forall (fun q => populate_chain_state.query_block q = true)
    (snd (populate_chain_state.populate_top (H := reference.chain_states)
            (H0 := reference.reader reference.indexed_chain false)
            reference.populator true)).
Proof.
  apply (populate_top_state (H := reference.chain_states)
           (H0 := reference.reader reference.indexed_chain false)
           reference.populator true).
Defined.

(** The state of the top of the four indexed headers, with the calls of
    the reader. *)
Example populate_top_example :
  populate_chain_state.populate_top (H := reference.chain_states)
    (H0 := reference.reader reference.indexed_chain false)
    reference.populator true
  = (Some (chain_state.mk_data 3 1003 0 486604799 [486604799]
             2 [1; 2] 400 populate_chain_state.unspecified_timestamp
             [100; 200; 300]),
     [populate_chain_state.mk_query populate_chain_state.k_block_hash 3 true;
      populate_chain_state.mk_query populate_chain_state.k_bits 2 true;
      populate_chain_state.mk_query populate_chain_state.k_bits 3 true;
      populate_chain_state.mk_query populate_chain_state.k_version 1 true;
      populate_chain_state.mk_query populate_chain_state.k_version 2 true;
      populate_chain_state.mk_query populate_chain_state.k_version 3 true;
      populate_chain_state.mk_query populate_chain_state.k_timestamp 0 true;
      populate_chain_state.mk_query populate_chain_state.k_timestamp 1 true;
      populate_chain_state.mk_query populate_chain_state.k_timestamp 2 true;
      populate_chain_state.mk_query populate_chain_state.k_timestamp 3 true]).
Proof. vm_compute. reflexivity. Qed.

(** ** populate_block: the coinbase and the completion of the buckets *)

Section populate_block_completion.
Import populate_block.
Context `{base_library} `{chain_state.library} `{!fast_chain}.

Lemma joined_app (l1 l2 : list call) :
  joined (l1 ++ l2) = joined l1 ++ joined l2.
Proof. unfold joined. apply omap_app. Qed.

Lemma joined_transactions_pass (fuel : nat) (txs : list transaction)
    (forks fork_height position buckets : Z) (calls : list call) :
  transactions_pass fuel txs forks fork_height position buckets = Some calls ->
  joined calls = [].
Proof.
  revert position calls.
  induction fuel as [|fuel IH]; intros position calls Hc; [done|].
  simpl in Hc. destruct (position <? _); [|by injection Hc as <-].
  destruct (transactions_pass fuel _ _ _ _ _) as [rest|] eqn:Hr; [|done].
  simpl in Hc. injection Hc as <-. simpl. by eapply IH.
Qed.

Lemma joined_inputs_pass (txs : list transaction)
    (fork_height bucket buckets position : Z) :
  joined (inputs_pass txs fork_height bucket buckets position) = [].
Proof.
  assert (Htx : forall ins s,
             joined (fst (inputs_pass_tx ins fork_height bucket buckets s))
             = []).
  { induction ins as [|i ins IHi]; intros s; [done|].
    simpl. specialize (IHi (s + 1)).
    destruct (inputs_pass_tx ins fork_height bucket buckets (s + 1)).
    by destruct (negb _). }
  revert position. induction txs as [|tx txs IH]; intros position; [done|].
  simpl. specialize (Htx (inputs tx) position).
  destruct (inputs_pass_tx (inputs tx) fork_height bucket buckets position).
  simpl in Htx. by rewrite joined_app, Htx, IH.
Qed.

(** A bucket that runs to its end hands [success] to its join handler,
    once. *)
Lemma joined_populate_transactions (fuel : nat) (blk : block)
    (st : chain_state.state) (fork_height bucket buckets : Z)
    (work : list call) :
  populate_transactions fuel blk st fork_height bucket buckets = Some work ->
  joined work = [success].
Proof.
  unfold populate_transactions. cbv zeta. intros Hw.
  destruct (if transactions_pass_enabled st then _ else _)
    as [per_transaction|] eqn:Hp; [|done].
  simpl in Hw. injection Hw as <-.
  rewrite !joined_app, joined_inputs_pass.
  assert (Hj : joined per_transaction = []).
  { destruct (transactions_pass_enabled st).
    - by eapply joined_transactions_pass.
    - by injection Hp as <-. }
  by rewrite Hj.
Qed.

Lemma flat_map_singletons {A B : Type} (f : A -> list B) (b : B)
    (l : list A) :
  Forall (fun a => f a = [b]) l -> flat_map f l = repeat b (length l).
Proof.
  induction 1 as [|a l Ha _ IH]; simpl; [done|]. by rewrite Ha, IH.
Qed.

(** X23.  When a block is populated with buckets, the coinbase is handed to
    [populate_transaction] exactly once, by [populate_coinbase], and by no
    bucket; and each of the [B] buckets hands [success] to the join
    handler exactly once, so that the result handler receives what the
    join of [B] successes delivers. *)
Theorem populate_coinbase_and_completions (blk : block)
    (st : chain_state.state) (fork_height dispatch_size : Z) :
  let inputs_count := total_non_coinbase_inputs blk in
  let buckets := Z.min dispatch_size inputs_count in
  block_chain_state blk = Some st ->
  chain_state.is_under_checkpoint st = false ->
  0 < dispatch_size -> 0 < inputs_count ->
  Z.of_nat (length (transactions blk)) <= max_uint64 ->
  exists direct work final,
    populate dispatch_size blk fork_height = Some (direct, work, final)
    /\ count_calls (on_transaction 0) direct = 1%nat
    /\ count_calls (on_transaction 0) (all_calls work ++ final) = 0%nat
    /\ flat_map (fun bw => joined (snd bw)) work
       = repeat success (Z.to_nat buckets)
    /\ final = match parallel_join (repeat success (Z.to_nat buckets)) with
               | Some ec => [handler_called ec]
               | None => []
               end.
Proof.
  intros inputs_count buckets Hst Hcp Hd Hi Hsize.
  assert (HB : 0 < buckets) by (subst buckets; lia).
  destruct (bucket_work_Some blk st fork_height buckets HB Hsize)
    as (work & Hwork & Hfst & Hin).
  assert (Hjoined : flat_map (fun bw => joined (snd bw)) work
                    = repeat success (Z.to_nat buckets)).
  { replace (Z.to_nat buckets) with (length work).
    - apply flat_map_singletons. apply Forall_forall. intros [b w] Hbw.
      apply list_elem_of_In in Hbw. destruct (Hin b w Hbw) as [_ Hw].
      by eapply joined_populate_transactions.
    - rewrite <- (length_map fst), Hfst, length_map, length_seq. done. }
  assert (Hnone : count_calls (on_transaction 0) (all_calls work) = 0%nat).
  { unfold all_calls.
    assert (Hall : Forall (fun bw => count_calls (on_transaction 0) (snd bw)
                                     = 0%nat) work).
    { apply Forall_forall. intros [b w] Hbw. apply list_elem_of_In in Hbw.
      destruct (Hin b w Hbw) as [Hb Hw].
      destruct (populate_transactions_counts blk st fork_height b buckets
                  HB Hb Hsize) as (w' & Hw' & _ & _ & Hc).
      rewrite Hw in Hw'. by injection Hw' as <-. }
    clear -Hall. induction Hall as [|bw work' Hbw _ IH]; [done|].
    simpl. by rewrite count_calls_app, Hbw, IH. }
  unfold populate. rewrite Hst, Hcp. fold inputs_count.
  destruct (Z.eqb_spec inputs_count 0) as [E|_]; [lia|].
  fold buckets. rewrite Hwork. simpl. rewrite Hjoined.
  do 3 eexists. split; [done|]. split; [|split; [|done]].
  - unfold populate_coinbase. rewrite !count_calls_cons. done.
  - rewrite count_calls_app, Hnone.
    by destruct (parallel_join _).
Qed.

End populate_block_completion.

(** [populate_coinbase_and_completions] on the reference environment: the
    block [reference.four_inputs] populated by two workers. *)
Lemma populate_coinbase_and_completions_witness :
  exists direct work final,
    populate_block.populate (H := reference.library)
      (H0 := reference.chain_states)
      (H1 := reference.reader reference.indexed_chain false)
      2 reference.four_inputs 3 = Some (direct, work, final)
    /\ count_calls (on_transaction 0) direct = 1%nat
    /\ final = [populate_block.handler_called success].
Proof.
  destruct (populate_coinbase_and_completions (H := reference.library)
              (H0 := reference.chain_states)
              (H1 := reference.reader reference.indexed_chain false)
              reference.four_inputs chain_state.default_data 3 2)
    as (direct & work & final & Hpop & Hcb & _ & _ & Hfinal).
  - reflexivity.
  - reflexivity.
  - reflexivity.
  - reflexivity.
  - vm_compute. discriminate.
  - by exists direct, work, final.
Defined.

(** ** The validator when a stop is reported *)

Section stopped_validator.
Context `{base_library}.

Lemma vbind_return_if {B : Type} (c : bool) (ec : code) (k : unit -> V B)
    (s : vstate) :
  vbind (return_if c ec) k s
  = if c then (Return, mk_vstate (polls s) (fired s ++ [ec])) else k tt s.
Proof. by destruct c. Qed.

Lemma vbind_RETURN_IF_STOPPED {B : Type} (v : validate_block)
    (k : unit -> V B) (s : vstate) :
  stop_callback_ v (polls s) = true ->
  vbind (RETURN_IF_STOPPED v) k s
  = (Return, mk_vstate (S (polls s)) (fired s ++ [service_stopped])).
Proof.
  intros Hstop.
  unfold RETURN_IF_STOPPED, mbind, V_bind, vbind, stopped.
  by rewrite Hstop.
Qed.

Lemma vbind_returned {A B : Type} (m : V A) (k : A -> V B) (s s' : vstate) :
  m s = (Return, s') -> vbind m k s = (Return, s').
Proof. intros Hm. unfold vbind. by rewrite Hm. Qed.

(** X24.  When the first poll of the stop callback reports a stop, the
    three validation functions complete with [service_stopped], except
    that [check_block] has tested the block's size and proof of work
    before it polls, and [accept_block] the required work: a failure there
    takes precedence.  Nothing else of the block or the chain is
    examined. *)
Theorem validation_when_stopped (v : validate_block) (n : nat) :
  stop_callback_ v n = true ->
  let blk := current_block_ v in
  run_from n (check_block v)
  = [if bool_decide (transactions blk = [])
        || (Z.of_nat (length (transactions blk)) >? max_block_size)
        || (serialized_size blk >? max_block_size)
     then size_limits
     else if is_valid_proof_of_work (header_hash (block_header blk))
               (bits (block_header blk))
     then service_stopped
     else proof_of_work]
  /\ run_from n (accept_block v)
     = [if bits (block_header blk) =? work_required v
        then service_stopped
        else incorrect_proof_of_work]
  /\ run_from n (connect_block v) = [service_stopped].
Proof.
  intros Hstop blk. subst blk. unfold run_from. split; [|split].
  - unfold check_block, mbind, V_bind.
    assert (Hb : exists n',
               check_block_before_distinct v (mk_vstate n [])
               = (Return,
                  mk_vstate n'
                    [if bool_decide (transactions (current_block_ v) = [])
                        || (Z.of_nat (length (transactions (current_block_ v)))
                            >? max_block_size)
                        || (serialized_size (current_block_ v)
                            >? max_block_size)
                     then size_limits
                     else if is_valid_proof_of_work
                               (header_hash (block_header (current_block_ v)))
                               (bits (block_header (current_block_ v)))
                     then service_stopped
                     else proof_of_work])).
    { unfold check_block_before_distinct, mbind, V_bind. cbv zeta.
      rewrite vbind_return_if. destruct (_ || _); [by eexists|].
      rewrite vbind_return_if.
      destruct (is_valid_proof_of_work _ _); simpl negb; cbv iota;
        [|by eexists].
      rewrite vbind_RETURN_IF_STOPPED by exact Hstop. by eexists. }
    destruct Hb as [n' Hb]. by rewrite (vbind_returned _ _ _ _ Hb).
  - unfold accept_block, mbind, V_bind.
    assert (Hb : exists n',
               accept_block_before_coinbase_height v (mk_vstate n [])
               = (Return,
                  mk_vstate n'
                    [if bits (block_header (current_block_ v))
                        =? work_required v
                     then service_stopped
                     else incorrect_proof_of_work])).
    { unfold accept_block_before_coinbase_height, mbind, V_bind. cbv zeta.
      rewrite vbind_return_if.
      destruct (_ =? _); simpl negb; cbv iota; [|by eexists].
      rewrite vbind_RETURN_IF_STOPPED by exact Hstop. by eexists. }
    destruct Hb as [n' Hb]. by rewrite (vbind_returned _ _ _ _ Hb).
  - unfold connect_block, mbind, V_bind.
    by rewrite vbind_RETURN_IF_STOPPED by exact Hstop.
Qed.

End stopped_validator.

(** [validation_when_stopped] on the reference environment with a stop
    callback that always reports a stop. *)
Lemma validation_when_stopped_witness :
  let v := {| height_ := 300000;
              current_block_ := reference.coinbase_only;
              checkpoints_ := [];
              stop_callback_ := fun _ => true;
              actual_timespan := fun _ => target_timespan;
              fetch_block := fun _ => block_header reference.coinbase_only;
              fetch_transaction := fun _ => None;
              is_output_spent := fun _ => false;
              is_output_spent_by := fun _ _ _ => false;
              median_time_past := 1300000000;
              previous_block_bits := 486604799;
              transaction_exists := fun _ => false;
              current_time := 1500000000 |} in
  run (check_block (H := reference.library) v) = [service_stopped]
  /\ run (accept_block (H := reference.library) v) = [service_stopped]
  /\ run (connect_block (H := reference.library) v) = [service_stopped].
Proof.
  intros v.
  exact (validation_when_stopped (H := reference.library) v 0 eq_refl).
Defined.

(** ** validate_inputs: the index into the inputs *)

Section input_indexes.
Context `{base_library}.

Lemma connect_input_inputs_index (v : validate_block) (index_in_parent : Z)
    (tx : transaction) (k : nat) (value_in total_sigops : Z) :
  (k < length (inputs tx))%nat ->
  connect_input v index_in_parent tx (Z.of_nat k) value_in total_sigops
  <> undefined inputs_index.
Proof.
  intros Hk. unfold connect_input. rewrite at_index_lookup.
  destruct (lookup_lt_is_Some_2 (inputs tx) k Hk) as [input ->].
  destruct (fetch_transaction v _) as [[previous_tx previous_height]|];
    [|done].
  destruct (at_index (outputs previous_tx) _); [|done].
  destruct (script_hash_signature_operations_count _ _); [|done].
  repeat match goal with
         | |- context [if ?c then _ else _] => destruct c
         end; done.
Qed.

Lemma validate_inputs_from_inputs_index (v : validate_block)
    (tx : transaction) (index_in_parent : Z) (remaining k : nat)
    (value_in total_sigops : Z) :
  (k + remaining <= length (inputs tx))%nat ->
  validate_inputs_from v tx index_in_parent remaining (Z.of_nat k)
    value_in total_sigops
  <> undefined inputs_index.
Proof.
  revert k value_in total_sigops.
  induction remaining as [|remaining IH];
    intros k value_in total_sigops Hk; [done|].
  simpl.
  pose proof (connect_input_inputs_index v index_in_parent tx k value_in
                total_sigops ltac:(lia)) as Hc.
  destruct (connect_input _ _ _ _ _ _) as [[[ok value_in'] total_sigops']|w].
  - destruct ok; [|done].
    replace (Z.of_nat k + 1) with (Z.of_nat (S k)) by lia.
    apply IH. lia.
  - intros Hw. apply Hc. by injection Hw as ->.
Qed.

(** X25.  [validate_inputs] never reads [tx.inputs] outside the vector:
    its loop keeps [input_index] below [tx.inputs.size()], so the only
    unchecked access of [connect_input] that can leave a vector is the one
    into the outputs of the previous transaction. *)
Theorem validate_inputs_inputs_index (v : validate_block) (tx : transaction)
    (index_in_parent value_in total_sigops : Z) :
  validate_inputs v tx index_in_parent value_in total_sigops
  <> undefined inputs_index.
Proof.
  unfold validate_inputs.
  apply (validate_inputs_from_inputs_index v tx index_in_parent
           (length (inputs tx)) 0).
  lia.
Qed.

End input_indexes.

(** ** transaction_pool: the entry a full pool drops *)

Section transaction_pool_eviction.
Import transaction_pool.
Context `{pool_externals}.

(** X26.  When [store] reports [success] on a running pool whose buffer is
    full and holds pairwise distinct hashes, the oldest entry is the one
    dropped: its confirmation handler, which holds a target, receives
    [pool_filled], the pool no longer holds its hash, and the other entries
    follow in their order with the new entry last. *)
Theorem store_evicts_oldest (t : transaction)
    (hc : std_function confirm_handler) (hv : validate_handler) (p : pool)
    (front : transaction_entry_info) (rest : pool_buffer) :
  stopped_ p = false ->
  buffer_ p = front :: rest ->
  length (buffer_ p) = capacity p ->
  NoDup (map hash (buffer_ p)) ->
  validations (events_of (store t hc hv p)) = [(hv, success)] ->
  let r := store t hc hv p in
  ending_of r = returned
  /\ buffer_ (pool_of r) = rest ++ [mk_entry (tx_hash t) t hc]
  /\ (exists target,
        handle_confirm front = Some target
        /\ confirmations (events_of r) = [(target, pool_filled)])
  /\ tx_exists (pool_of r) (hash front) = false.
Proof.
  intros Hs Hbuf Hfull Hnd Hv r. subst r.
  destruct (store_reported_success t hc hv p Hs Hv)
    as (Hex & Hend & _ & _ & _ & Hreplaced).
  destruct (Hreplaced Hfull)
    as (front' & rest' & target & Hbuf' & Hc & Hconf & Hb).
  rewrite Hbuf in Hbuf'. injection Hbuf' as <- <-.
  split; [exact Hend|]. split; [exact Hb|].
  split; [by exists target|].
  apply tx_exists_false. rewrite Hb.
  apply tx_exists_false in Hex. rewrite Hbuf in Hex, Hnd.
  apply Forall_cons in Hex as [Hfront _].
  simpl in Hnd. apply NoDup_cons in Hnd as [Hnotin _].
  apply Forall_app. split.
  - apply Forall_forall. intros e He Heq. apply Hnotin.
    rewrite <- Heq. apply list_elem_of_fmap. by exists e.
  - apply Forall_singleton. simpl. congruence.
Qed.

End transaction_pool_eviction.

(** [store_evicts_oldest] on a full pool of capacity 2. *)
Lemma store_evicts_oldest_witness :
  let p := transaction_pool.mk_pool
             [reference.entry 7 1%nat; reference.entry 8 2%nat] 2 false in
  let r := transaction_pool.store (H := reference.pool)
             (reference.payment 9 53 0) (Some 4%nat) 5%nat p in
  transaction_pool.tx_exists (transaction_pool.pool_of r) 7 = false
  /\ transaction_pool.tx_exists (transaction_pool.pool_of r) 8 = true.
Proof.
  intros p r. split; [|reflexivity].
  apply (store_evicts_oldest (H := reference.pool) (reference.payment 9 53 0)
           (Some 4%nat) 5%nat p (reference.entry 7 1%nat)
           [reference.entry 8 2%nat]).
  - reflexivity.
  - reflexivity.
  - reflexivity.
  - apply (bool_decide_unpack _). vm_compute. reflexivity.
  - reflexivity.
Defined.
